(** * Crawl-and-classify pipeline of the Workday website scanner

    A shallow embedding of the two API routes of the scanner
    ([scan/route.ts] and [analyze/route.ts]), of the completion client
    ([lib/openai.ts]) and of the handlers of the scanner component with
    its helper [normalizeUrlForCompare], together with the properties the
    specification states about them and further properties of the code.

    JavaScript strings are modelled as lists of characters ([list ascii]);
    a character stands for one UTF-16 code unit of the Latin-1 range.
    Indices and lengths are natural numbers and depths are integers
    ([Z]); the crawl limits, which the request body supplies, are JSON
    numbers ([Num.number]): rationals and the two infinities. *)

From stdpp Require Import base decidable option list gmap sets strings sorting.
From Stdlib Require Import ZArith Lia Ascii.
From Stdlib Require String.
From Stdlib Require QArith Qround.

#[local] Set Warnings "-register-all,-abstract-large-number".

Local Open Scope nat_scope.
Local Open Scope list_scope.

(** ** JavaScript strings and the regular-expression atoms the routes use *)

Module JS.

Abbreviation jsstring := (list ascii).

(** A string literal of the source. *)
Definition lit (s : string) : jsstring := String.list_ascii_of_string s.

Definition code (c : ascii) : nat := nat_of_ascii c.

(** [\s] and the characters [trim] strips: TAB, LF, VT, FF, CR, SPACE
    and NBSP (the members of the class below code unit 256). *)
Definition is_space (c : ascii) : bool :=
  let n := code c in
  ((9 <=? n) && (n <=? 13)) || (n =? 32) || (n =? 160).

(** [\w]: ASCII letters, digits and underscore. *)
Definition is_word (c : ascii) : bool :=
  let n := code c in
  ((48 <=? n) && (n <=? 57)) || ((65 <=? n) && (n <=? 90))
  || (n =? 95) || ((97 <=? n) && (n <=? 122)).

(** Canonicalisation of the [i] flag on ASCII letters. *)
Definition upcase (c : ascii) : ascii :=
  let n := code c in
  if (97 <=? n) && (n <=? 122) then ascii_of_nat (n - 32) else c.

Definition ci_eqb (p c : ascii) : bool :=
  bool_decide (upcase p = upcase c).

(** The pattern literal [p] matches a prefix of [s] (flag [i]). *)
Fixpoint ci_prefix (p s : jsstring) {struct p} : bool :=
  match p, s with
  | [], _ => true
  | _ :: _, [] => false
  | a :: p', c :: s' => ci_eqb a c && ci_prefix p' s'
  end.

Definition ci_prefix_at (p s : jsstring) (i : nat) : bool :=
  ci_prefix p (drop i s).

(** [v] is the word [p] up to the case of its letters. *)
Definition ci_equal (v p : jsstring) : bool :=
  ci_prefix p v && (length v =? length p).

(** [s.startsWith(p)] (case-sensitive). *)
Fixpoint startsWith (s p : jsstring) {struct p} : bool :=
  match p, s with
  | [], _ => true
  | _ :: _, [] => false
  | a :: p', c :: s' => bool_decide (a = c) && startsWith s' p'
  end.

Definition endsWith (s p : jsstring) : bool :=
  startsWith (reverse s) (reverse p).

(** [s.slice(from, to)] for [0 <= from]. *)
Definition slice (s : jsstring) (from to : nat) : jsstring :=
  take (to - from) (drop from s).

Definition word_before (s : jsstring) (i : nat) : bool :=
  match i with
  | 0 => false
  | S j => match s !! j with Some c => is_word c | None => false end
  end.

Definition word_at (s : jsstring) (i : nat) : bool :=
  match s !! i with Some c => is_word c | None => false end.

(** The assertion [\b] at position [i] of [s]. *)
Definition word_boundary (s : jsstring) (i : nat) : bool :=
  xorb (word_before s i) (word_at s i).

Definition ends_in_word (s : jsstring) : bool :=
  match last s with Some c => is_word c | None => false end.

Definition starts_with_word (s : jsstring) : bool :=
  match s with c :: _ => is_word c | [] => false end.

(** Length of the maximal run of [\s] at the head of [s]. *)
Fixpoint space_run (s : jsstring) : nat :=
  match s with
  | c :: s' => if is_space c then S (space_run s') else 0
  | [] => 0
  end.

(** [s.replace(/\s+/g, ' ')]; [in_run] tells that the previous character
    belonged to the run of white space being replaced. *)
Fixpoint collapse_from (in_run : bool) (s : jsstring) : jsstring :=
  match s with
  | [] => []
  | c :: s' =>
      if is_space c
      then (if in_run then collapse_from true s'
            else " "%char :: collapse_from true s')
      else c :: collapse_from false s'
  end.

Definition collapse_spaces (s : jsstring) : jsstring := collapse_from false s.

Fixpoint trimStart (s : jsstring) : jsstring :=
  match s with
  | c :: s' => if is_space c then trimStart s' else s
  | [] => []
  end.

Definition trim (s : jsstring) : jsstring :=
  reverse (trimStart (reverse (trimStart s))).

(** A matcher tells where a match that starts at index [i] ends. *)
Definition matcher := jsstring -> nat -> option nat.

(** The loop [while ((m = re.exec(s)) !== null)] of a global regular
    expression: candidate start positions are tried from [pos] on, and
    after a match the search resumes at its end ([lastIndex]); [skip]
    counts the positions still covered by the previous match.  The
    result lists (index, end) of every match. *)
Fixpoint exec_from (re : matcher) (s : jsstring) (fuel pos skip : nat)
  : list (nat * nat) :=
  match fuel with
  | 0 => []
  | S fuel' =>
      match skip with
      | S k => exec_from re s fuel' (S pos) k
      | 0 =>
          match re s pos with
          | Some e => (pos, e) :: exec_from re s fuel' (S pos) (e - pos - 1)
          | None => exec_from re s fuel' (S pos) 0
          end
      end
  end.

Definition exec_all (re : matcher) (s : jsstring) : list (nat * nat) :=
  exec_from re s (S (length s)) 0 0.

(** [re.test(s)] for a regular expression without the [g] flag. *)
Definition test (re : matcher) (s : jsstring) : bool :=
  existsb (fun i => bool_decide (is_Some (re s i))) (seq 0 (S (length s))).

(** First alternative that matches, in the order of the pattern. *)
Fixpoint first_match (alts : list (option nat)) : option nat :=
  match alts with
  | [] => None
  | Some e :: _ => Some e
  | None :: rest => first_match rest
  end.

End JS.

Import JS.

(** ** Exceptions and the HTTP client *)

Module Runtime.

(** What a [catch] clause receives: an [Error] with its message, or any
    other thrown value. *)
Inductive Thrown :=
| ErrorObject (message : jsstring)
| OtherThrown.

(** Outcome of evaluating a block: a value, or an exception. *)
Inductive Completion (A : Type) :=
| Normal (a : A)
| Throw (e : Thrown).
Arguments Normal {A} a.
Arguments Throw {A} e.

Definition bind {A B} (c : Completion A) (k : A -> Completion B) : Completion B :=
  match c with
  | Normal a => k a
  | Throw e => Throw e
  end.

(** [try { body } catch (err) { handler }] *)
Definition try_catch {A} (body : Completion A) (handler : Thrown -> Completion A)
  : Completion A :=
  match body with
  | Normal a => Normal a
  | Throw e => handler e
  end.

(** What [axios.get] meets on the network.  A payload that is not text
    (a decoded JSON body) is described by its truthiness, by
    [JSON.stringify] of it and by its conversion to a string. *)
Inductive ResponseData :=
| TextData (s : jsstring)
| JsonData (is_truthy : bool) (stringified to_string : jsstring).

Inductive Network :=
| NetworkError (message : jsstring)
| Timeout
| Responded (status : Z) (data : ResponseData).

(** [axios.get(url, { validateStatus })]: a transport failure, a timeout
    and a status the predicate refuses are all rejections. *)
Definition axios_get (validateStatus : Z -> bool) (n : Network)
  : Completion ResponseData :=
  match n with
  | NetworkError msg => Throw (ErrorObject msg)
  | Timeout => Throw (ErrorObject (lit "timeout exceeded"))
  | Responded status data =>
      if validateStatus status then Normal data
      else Throw (ErrorObject (lit "Request failed"))
  end.

(** Default [validateStatus] of the client. *)
Definition status_2xx (status : Z) : bool :=
  ((200 <=? status) && (status <? 300))%Z.

Definition data_truthy (d : ResponseData) : bool :=
  match d with
  | TextData s => negb (bool_decide (s = []))
  | JsonData t _ _ => t
  end.

End Runtime.

Import Runtime.

(** ** The analyze route: reference detector, page fetcher, classifier *)

Module Analyze.

(** [COLLEGUE_SYSTEM_WORDS]: the alternatives of
    [/\b(student|system|ERP|SIS|Banner|registration|HR|finance|payroll|portal|information)\b/i]. *)
Definition system_words : list jsstring :=
  map lit ["student"; "system"; "ERP"; "SIS"; "Banner"; "registration";
           "HR"; "finance"; "payroll"; "portal"; "information"].

(** One alternative that is a plain word followed by [\b]. *)
Definition word_alt (w s : jsstring) (i : nat) : option nat :=
  if ci_prefix_at w s i && word_boundary s (i + length w)
  then Some (i + length w) else None.

Definition COLLEGUE_SYSTEM_WORDS : matcher := fun s i =>
  if word_boundary s i
  then first_match (map (fun w => word_alt w s i) system_words)
  else None.

(** The alternative [cougar\s*web] followed by [\b]: the star is greedy
    and gives white space back one character at a time. *)
Definition cougar_space_web (s : jsstring) (i : nat) : option nat :=
  if ci_prefix_at (lit "cougar") s i
  then first_match
         (map (fun k => word_alt (lit "web") s (i + 6 + k))
              (reverse (seq 0 (S (space_run (drop (i + 6) s))))))
  else None.

(** [/\b(cougar\s*web|cougarweb)\b/gi] *)
Definition cougarRegex : matcher := fun s i =>
  if word_boundary s i
  then first_match [cougar_space_web s i; word_alt (lit "cougarweb") s i]
  else None.

(** [/\bcolleague\b/gi] *)
Definition colleagueRegex : matcher := fun s i =>
  if word_boundary s i then word_alt (lit "colleague") s i else None.

Record Snippet := mkSnippet { snippet : jsstring; offset : nat }.

(** [if (snippet.length > 20 && !results.some((r) => r.snippet === snippet))
       results.push({ snippet, offset })] *)
Definition push_snippet (results : list Snippet) (snip : jsstring) (index : nat)
  : list Snippet :=
  if (20 <? length snip)
     && negb (existsb (fun r => bool_decide (snippet r = snip)) results)
  then results ++ [mkSnippet snip index]
  else results.

(** The context of a direct match at [index]. *)
Definition cougar_snippet (normalized : jsstring) (index : nat) : jsstring :=
  let start := Nat.max 0 (index - 80) in
  let end_ := Nat.min (length normalized) (index + 120) in
  trim (collapse_spaces (slice normalized start end_)).

(** The window around an occurrence of "colleague" at [index]. *)
Definition colleague_window (normalized : jsstring) (index : nat) : jsstring :=
  let windowStart := Nat.max 0 (index - 100) in
  let windowEnd := Nat.min (length normalized) (index + 100) in
  slice normalized windowStart windowEnd.

Definition cougar_body (normalized : jsstring) (results : list Snippet)
           (m : nat * nat) : list Snippet :=
  push_snippet results (cougar_snippet normalized m.1) m.1.

Definition colleague_body (normalized : jsstring) (results : list Snippet)
           (m : nat * nat) : list Snippet :=
  let window := colleague_window normalized m.1 in
  if test COLLEGUE_SYSTEM_WORDS window
  then push_snippet results (trim (collapse_spaces window)) m.1
  else results.

(** Step 1: detect legacy references. *)
Definition findLegacySnippets (html text : jsstring) : list Snippet :=
  let normalized := text in
  let results := foldl (cougar_body normalized) [] (exec_all cougarRegex normalized) in
  foldl (colleague_body normalized) results (exec_all colleagueRegex normalized).

(** [/\b(cougar\s*web|cougarweb|colleague)\b/gi], the pattern of the
    local rewrite. *)
Definition legacyRegex : matcher := fun s i =>
  if word_boundary s i
  then first_match [cougar_space_web s i; word_alt (lit "cougarweb") s i;
                    word_alt (lit "colleague") s i]
  else None.

(** [s.replace(re, rep)] for a global [re], from the matches [ms] that
    [exec_all] lists; [pos] is the end of the previous match. *)
Fixpoint splice (s rep : jsstring) (ms : list (nat * nat)) (pos : nat) : jsstring :=
  match ms with
  | [] => drop pos s
  | (i, e) :: ms' => slice s pos i ++ rep ++ splice s rep ms' e
  end.

Definition replace_all (re : matcher) (rep s : jsstring) : jsstring :=
  splice s rep (exec_all re s) 0.

(** *** Values that cross the boundary to the collaborators *)

(** A decoded JSON value; [VUndefined] stands for an absent property.
    Of a number only its being zero is ever observed, so integers stand
    for numbers. *)
Inductive JSValue :=
| VUndefined
| VNull
| VBool (b : bool)
| VNumber (n : Z)
| VString (s : jsstring)
| VArray (items : list JSValue)
| VObject (fields : list (jsstring * JSValue)).

Definition truthy (v : JSValue) : bool :=
  match v with
  | VUndefined | VNull => false
  | VBool b => b
  | VNumber n => negb (n =? 0)%Z
  | VString s => negb (bool_decide (s = []))
  | VArray _ | VObject _ => true
  end.

(** [parsed.key] on a decoded object. *)
Fixpoint get (fields : list (jsstring * JSValue)) (key : jsstring) : JSValue :=
  match fields with
  | [] => VUndefined
  | (k, v) :: rest => if bool_decide (k = key) then v else get rest key
  end.

(** [a || b] *)
Definition or_else (a b : JSValue) : JSValue := if truthy a then a else b.

Definition isArray (v : JSValue) : bool :=
  match v with VArray _ => true | _ => false end.

Inductive Confidence := high | medium | low.

(** [['high', 'medium', 'low'].includes(v) ? v : 'low'] *)
Definition confidence_of (v : JSValue) : Confidence :=
  match v with
  | VString s =>
      if bool_decide (s = lit "high") then high
      else if bool_decide (s = lit "medium") then medium
      else low
  | _ => low
  end.

Record Finding := mkFinding {
  html_context : jsstring;
  primary_audience : JSValue;
  task_category : JSValue;
  reference_type : JSValue;
  workday_feature : JSValue;
  proposed_replacement : JSValue;
  suggested_keywords : JSValue;
  confidence : Confidence;
  notes : JSValue
}.

Record AnalysisResult := mkResult {
  url : jsstring;
  pageTitle : jsstring;
  hasLegacyReferences : bool;
  findings : list Finding
}.

Record PageContent := mkPage { html : jsstring; text : jsstring; title : jsstring }.

(** The instruction sent to the completion service: the fixed wording
    apart, it carries the two hints and the snippet. *)
Record Prompt := mkPrompt {
  workStreamHint : jsstring;
  keywordHint : jsstring;
  prompt_snippet : jsstring
}.

(** [xs.join(', ')] *)
Fixpoint join (xs : list jsstring) : jsstring :=
  match xs with
  | [] => []
  | [x] => x
  | x :: rest => x ++ lit ", " ++ join rest
  end.

Fixpoint index_of (c : ascii) (s : jsstring) : option nat :=
  match s with
  | [] => None
  | a :: s' => if bool_decide (a = c) then Some 0 else S <$> index_of c s'
  end.

Fixpoint last_index_of (c : ascii) (s : jsstring) : option nat :=
  match s with
  | [] => None
  | a :: s' =>
      match last_index_of c s' with
      | Some j => Some (S j)
      | None => if bool_decide (a = c) then Some 0 else None
      end
  end.

(** [response.match(/\{[\s\S]*\}/)]: from the first opening brace to the
    last closing brace behind it. *)
Definition match_braces (response : jsstring) : option jsstring :=
  i ← index_of "{"%char response;
  j ← last_index_of "}"%char (drop (S i) response);
  Some (slice response i (S i + j + 1)).

Definition error_message (err : Thrown) (otherwise : jsstring) : jsstring :=
  match err with
  | ErrorObject message => message
  | OtherThrown => otherwise
  end.

(** The finding both failure branches push; only the note differs.  (The
    dash of the feature label is kept in its UTF-8 bytes.) *)
Definition local_finding (snip note : jsstring) : Finding :=
  {| html_context := snip;
     primary_audience := VString (lit "mixed/other");
     task_category := VString (lit "generic_system_reference");
     reference_type := VString (lit "informational_reference");
     workday_feature := VString (lit "Workday – unified cloud-based system");
     proposed_replacement := VString (replace_all legacyRegex (lit "Workday") snip);
     suggested_keywords := VArray [VString (lit "Workday")];
     confidence := low;
     notes := VString note |}.

Definition parsed_finding (snip : jsstring) (parsed : list (jsstring * JSValue))
  : Finding :=
  {| html_context := snip;
     primary_audience :=
       or_else (get parsed (lit "primary_audience")) (VString (lit "mixed/other"));
     task_category :=
       or_else (get parsed (lit "task_category")) (VString (lit "generic_system_reference"));
     reference_type :=
       or_else (get parsed (lit "reference_type")) (VString (lit "informational_reference"));
     workday_feature :=
       or_else (get parsed (lit "workday_feature"))
               (VString (lit "Workday – unified cloud-based system"));
     proposed_replacement :=
       or_else (get parsed (lit "proposed_replacement")) (VString snip);
     suggested_keywords :=
       if isArray (get parsed (lit "suggested_keywords"))
       then get parsed (lit "suggested_keywords")
       else VArray [VString (lit "Workday")];
     confidence := confidence_of (get parsed (lit "confidence"));
     notes := get parsed (lit "notes") |}.

Record Body := mkBody {
  urls : option (list jsstring);
  keywords : list jsstring;
  workStreamAreas : list jsstring
}.

Inductive Response :=
| Success (results : list AnalysisResult)
| Failure (status : Z) (error : jsstring).

Section Route.

(** The three tag-removing replacements of [fetchPageContent] (script
    blocks, style blocks, tags) and the first group of its title match;
    nothing below depends on what they compute. *)
Variable stripMarkup : jsstring -> jsstring.
Variable titleMatch : jsstring -> option jsstring.

(** [JSON.parse] of a text that opens with a brace: the fields of the
    decoded object, or the [SyntaxError] it throws. *)
Variable JSON_parse : jsstring -> Completion (list (jsstring * JSValue)).

(** What the [k]-th page request of a run, for a given URL, meets. *)
Variable network : nat -> jsstring -> Network.

(** Outcome of the [k]-th call of [chatCompletion] of a run. *)
Variable chatCompletion : nat -> Prompt -> Completion jsstring.

Definition fetchPageContent (k : nat) (url : jsstring)
  : Completion (option PageContent) :=
  try_catch
    (bind (axios_get (fun status => (status <? 500)%Z) (network k url))
       (fun data =>
          if negb (data_truthy data) then Normal None
          else
            let html := match data with
                        | TextData s => s
                        | JsonData _ stringified _ => stringified
                        end in
            let text := take 30000 (trim (collapse_spaces (stripMarkup html))) in
            let title := match titleMatch html with
                         | Some t => trim t
                         | None => []
                         end in
            Normal (Some (mkPage html text title))))
    (fun _ => Normal None).

(** The body of [for (const { snippet } of snippets)]: one completion
    call, then the three tiers of response handling. *)
Definition analyzeSnippet (k : nat) (prompt : Prompt) (snip : jsstring)
  : Completion Finding :=
  try_catch
    (bind (chatCompletion k prompt) (fun response =>
       match match_braces response with
       | Some jsonMatch =>
           bind (JSON_parse jsonMatch) (fun parsed =>
             Normal (parsed_finding snip parsed))
       | None =>
           Normal (local_finding snip (lit "AI response could not be parsed"))
       end))
    (fun err =>
       Normal (local_finding snip (error_message err (lit "Analysis failed")))).

Definition make_prompt (body : Body) (snip : jsstring) : Prompt :=
  {| workStreamHint :=
       if 0 <? length (workStreamAreas body)
       then lit "The college provided these work stream areas to consider: "
            ++ join (workStreamAreas body) ++ lit "."
       else [];
     keywordHint :=
       if 0 <? length (keywords body)
       then lit "Additional keywords to consider: "
            ++ join (keywords body) ++ lit "."
       else [];
     prompt_snippet := snip |}.

(** The inner loop; [calls] counts the completion calls made so far. *)
Fixpoint analyzeSnippets (body : Body) (calls : nat) (snippets : list Snippet)
         (findings : list Finding) : Completion (list Finding * nat) :=
  match snippets with
  | [] => Normal (findings, calls)
  | s :: rest =>
      bind (analyzeSnippet calls (make_prompt body (snippet s)) (snippet s))
        (fun finding => analyzeSnippets body (S calls) rest (findings ++ [finding]))
  end.

(** The loop [for (const url of urls)]; [page] counts page requests. *)
Fixpoint analyzeUrls (body : Body) (page calls : nat) (todo : list jsstring)
         (results : list AnalysisResult) : Completion (list AnalysisResult) :=
  match todo with
  | [] => Normal results
  | u :: rest =>
      bind (fetchPageContent page u) (fun pageContent =>
        match pageContent with
        | None =>
            analyzeUrls body (S page) calls rest
              (results ++ [mkResult u [] false []])
        | Some content =>
            let snippets := findLegacySnippets (html content) (text content) in
            if length snippets =? 0
            then analyzeUrls body (S page) calls rest
                   (results ++ [mkResult u (title content) false []])
            else
              bind (analyzeSnippets body calls snippets [])
                (fun '(findings, calls') =>
                   analyzeUrls body (S page) calls' rest
                     (results ++ [mkResult u (title content) true findings]))
        end)
  end.

Definition POST (body : Body) : Response :=
  match urls body with
  | None | Some [] => Failure 400 (lit "urls array is required")
  | Some us =>
      if 500 <? length us then Failure 400 (lit "Maximum 500 URLs per request")
      else
        match analyzeUrls body 0 0 us [] with
        | Normal results => Success results
        | Throw error =>
            Failure 500 (error_message error (lit "Failed to analyze websites"))
        end
  end.

End Route.

(** Why a completion yields no decoded object: the response holds none, or
    an exception was raised by the call or by [JSON.parse]. *)
Inductive Cause :=
| NoObject
| Raised (e : Thrown).

Definition failure_cause (JSON_parse : jsstring -> Completion (list (jsstring * JSValue)))
           (outcome : Completion jsstring) : option Cause :=
  match outcome with
  | Throw e => Some (Raised e)
  | Normal response =>
      match match_braces response with
      | None => Some NoObject
      | Some jsonMatch =>
          match JSON_parse jsonMatch with
          | Throw e => Some (Raised e)
          | Normal _ => None
          end
      end
  end.

(** The two fields of a result agree. *)
Definition consistent (r : AnalysisResult) : Prop :=
  findings r = [] <-> hasLegacyReferences r = false.

(** The thrown value has something to say: an [Error] with a message that
    is not empty, or a value that is not an [Error]. *)
Definition has_message (c : Cause) : Prop :=
  match c with
  | Raised (ErrorObject message) => message <> []
  | Raised OtherThrown | NoObject => True
  end.

End Analyze.

(** ** URLs *)

Module Url.

(** The parts of a WHATWG [URL] object the routes read or write;
    [serialized] is [href] without the fragment. *)
Record URL := mkURL {
  protocol : jsstring;
  hostname : jsstring;
  serialized : jsstring;
  fragment : option jsstring
}.

Definition href (u : URL) : jsstring :=
  serialized u ++ match fragment u with
                  | Some f => "#"%char :: f
                  | None => []
                  end.

(** [urlObj.hash = ''] *)
Definition clear_hash (u : URL) : URL :=
  {| protocol := protocol u; hostname := hostname u;
     serialized := serialized u; fragment := None |}.

(** [s.replace(/\/$/, '')] *)
Definition strip_slash (s : jsstring) : jsstring :=
  match reverse s with
  | c :: r => if bool_decide (c = "/"%char) then reverse r else s
  | [] => s
  end.

(** A string used as a condition. *)
Definition nonempty (s : jsstring) : bool := negb (bool_decide (s = [])).

Section Canon.

(** [new URL(s)]; [None] when the constructor throws. *)
Variable parse : jsstring -> option URL.

(** The normalisation the crawler applies to a dequeued URL, and the
    helper [normalizeUrl] of the route that takes [excludeUrls]. *)
Definition normalizeUrl (url : jsstring) : option jsstring :=
  urlObj ← parse url;
  Some (strip_slash (href (clear_hash urlObj))).

(** [u.startsWith('http') ? u : `https://${u}`] *)
Definition with_scheme (u : jsstring) : jsstring :=
  if startsWith u (lit "http") then u else lit "https://" ++ u.

(** [normalizeUrlForCompare] of the scanner component. *)
Definition normalizeUrlForCompare (url : jsstring) : jsstring :=
  match parse (with_scheme url) with
  | Some obj => strip_slash (href (clear_hash obj))
  | None => url
  end.

(** What the properties of canonical forms ask of the platform parser.
    Serialising a parsed URL, with or without its fragment, and parsing it
    again gives the same URL. *)
Definition reparses : Prop :=
  forall x u, parse x = Some u ->
    parse (href u) = Some u /\ parse (serialized u) = Some (clear_hash u).

(** Dropping the single slash that ends a serialisation gives an address
    of the same resource: it parses, and serialises with or without that
    slash. *)
Definition slash_stable : Prop :=
  forall x u h, parse x = Some u ->
    serialized u = h ++ ["/"%char] -> last h <> Some "/"%char ->
    exists v, parse h = Some v
              /\ (serialized v = h \/ serialized v = h ++ ["/"%char]).

(** The scheme of an address that starts with [http] is serialised
    unchanged. *)
Definition keeps_http : Prop :=
  forall x u, parse x = Some u ->
    startsWith x (lit "http") = true -> startsWith (serialized u) (lit "http") = true.

End Canon.

End Url.

Import Url.

(** ** Numbers of a request body *)

Module Num.

(** A number as [JSON.parse] gives it: a finite double, which is a
    rational, or an infinity, which a literal that overflows decodes to.
    [NaN] cannot be written in JSON. *)
Inductive number :=
| Finite (q : QArith_base.Q)
| PosInfinity
| NegInfinity.

Definition of_Z (z : Z) : number := Finite (QArith_base.inject_Z z).

Definition of_nat (n : nat) : number := of_Z (Z.of_nat n).

(** [a < b] *)
Definition lt (a b : number) : bool :=
  match a, b with
  | Finite p, Finite q => negb (QArith_base.Qle_bool q p)
  | Finite _, PosInfinity | NegInfinity, Finite _ | NegInfinity, PosInfinity => true
  | _, _ => false
  end.

(** [a > b] *)
Definition gt (a b : number) : bool := lt b a.

End Num.

(** ** The scan route *)

Module Scan.

Record URLData := mkURLData { url : jsstring; depth : Z }.

Definition dquote : ascii := ascii_of_nat 34.

Definition is_quote (c : ascii) : bool :=
  bool_decide (c = dquote) || bool_decide (c = "'"%char).

(** Length of the maximal run of characters other than quotes. *)
Fixpoint unquoted_run (s : jsstring) : nat :=
  match s with
  | c :: s' => if is_quote c then 0 else S (unquoted_run s')
  | [] => 0
  end.

(** The pattern of [hrefRegex] without its flags: [href=], a quote, one or
    more characters that are not quotes, a quote. *)
Definition hrefRegex : matcher := fun s i =>
  if ci_prefix_at (lit "href=") s i then
    match s !! (i + 5) with
    | Some q =>
        if is_quote q then
          let n := unquoted_run (drop (i + 6) s) in
          match s !! (i + 6 + n) with
          | Some q' => if (0 <? n) && is_quote q' then Some (i + 6 + n + 1) else None
          | None => None
          end
        else None
    | None => None
    end
  else None.

(** [match[1]] of a match of [hrefRegex]. *)
Definition href_group (s : jsstring) (m : nat * nat) : jsstring :=
  slice s (m.1 + 6) (m.2 - 1).

Definition includes (l : list jsstring) (x : jsstring) : bool :=
  existsb (fun y => bool_decide (y = x)) l.

(** Record of one run of the crawler: the frontier, the result list and
    the requests [fetchPage] has issued so far, oldest first. *)
Record State := mkState {
  visited : gset jsstring;
  urls : list URLData;
  queue : list URLData;
  requests : list jsstring
}.

(** One turn of [while (queue.length > 0 && urls.length < maxUrls)]. *)
Inductive Turn :=
| Continue (st : State)
| Return_ (st : State)
| Raise (st : State) (e : Thrown).

(** Where a turn ends up, whatever its kind. *)
Definition target (t : Turn) : State :=
  match t with Continue st | Return_ st | Raise st _ => st end.

(** [urls.length < maxUrls] for a list of [n] records. *)
Definition under (n : nat) (maxUrls : Num.number) : bool :=
  Num.lt (Num.of_nat n) maxUrls.

(** The two limits, as they bear on a result list: no record lies deeper
    than [maxDepth], and the last record was added while the list was
    shorter than [maxUrls]. *)
Definition limited (maxUrls maxDepth : Num.number) (found : list URLData) : Prop :=
  Forall (fun d => Num.gt (Num.of_Z (depth d)) maxDepth = false) found
  /\ (found = [] \/ under (length found - 1) maxUrls = true).

Definition bounded (maxUrls maxDepth : Num.number) (st : State) : Prop :=
  limited maxUrls maxDepth (urls st).

(** The same in integers: at most [ceiling maxUrls] records, and none for
    a limit that is not positive, at depths up to [floor maxDepth]. *)
Definition limited_int (maxUrls maxDepth : Num.number) (found : list URLData)
  : Prop :=
  match maxUrls with
  | Num.Finite q => (Z.of_nat (length found) <= Z.max 0 (Qround.Qceiling q))%Z
  | Num.PosInfinity => True
  | Num.NegInfinity => found = []
  end
  /\ match maxDepth with
     | Num.Finite q => Forall (fun d => (depth d <= Qround.Qfloor q)%Z) found
     | Num.PosInfinity => True
     | Num.NegInfinity => found = []
     end.

(** The limits [u] and [d], both integers, hold of the outcome of a
    crawl. *)
Definition within_int_limits (u d : Z)
           (r : option (State * Completion (list URLData))) : Prop :=
  match r with
  | Some (_, Normal found) =>
      (Z.of_nat (length found) <= Z.max 0 u)%Z
      /\ Forall (fun x => (depth x <= d)%Z) found
  | Some (_, Throw _) | None => True
  end.

(** What the limits say of the outcome of a crawl. *)
Definition within_limits (maxUrls maxDepth : Num.number)
           (r : option (State * Completion (list URLData))) : Prop :=
  match r with
  | Some (_, Normal found) =>
      limited maxUrls maxDepth found /\ limited_int maxUrls maxDepth found
  | Some (_, Throw _) | None => True
  end.

Section Route.

Variable parse : jsstring -> option URL.

(** [new URL(link, baseUrl)] *)
Variable parse_relative : jsstring -> jsstring -> option URL.

(** What the [k]-th request of a run, for a given URL, meets. *)
Variable network : nat -> jsstring -> Network.

Definition fetchPage (k : nat) (u : jsstring) : Completion (option ResponseData) :=
  try_catch
    (bind (axios_get status_2xx (network k u)) (fun data => Normal (Some data)))
    (fun _ => Normal None).

(** The [try] block of [extractLinks], up to [const linkUrl = new URL(link)];
    [None] stands for the exception the [catch] clause swallows. *)
Definition resolve_link (baseUrlObj : URL) (baseUrl link : jsstring) : option URL :=
  absolute ←
    (if startsWith link (lit "/")
     then Some (protocol baseUrlObj ++ lit "//" ++ hostname baseUrlObj ++ link)
     else if negb (startsWith link (lit "http"))
          then href <$> parse_relative link baseUrl
          else Some link);
  parse absolute.

Definition link_body (baseUrlObj : URL) (baseUrl : jsstring)
           (links : list jsstring) (link : jsstring) : list jsstring :=
  let baseDomain := hostname baseUrlObj in
  if startsWith link (lit "javascript:") || startsWith link (lit "mailto:")
     || startsWith link (lit "tel:") || startsWith link (lit "#")
  then links
  else
    match resolve_link baseUrlObj baseUrl link with
    | None => links
    | Some linkUrl =>
        if bool_decide (hostname linkUrl = baseDomain)
           || endsWith (hostname linkUrl) (lit "." ++ baseDomain)
        then
          let normalizedUrl := strip_slash (href (clear_hash linkUrl)) in
          if negb (includes links normalizedUrl)
          then links ++ [normalizedUrl] else links
        else links
    end.

(** [extractLinks(html, baseUrl, currentDepth, maxDepth)]; the depth
    arguments are not used by the function.  [new URL(baseUrl)] is outside
    the [try] block. *)
Definition extractLinks (html baseUrl : jsstring) : Completion (list jsstring) :=
  match parse baseUrl with
  | None => Throw (ErrorObject (lit "Invalid URL"))
  | Some baseUrlObj =>
      Normal (foldl (link_body baseUrlObj baseUrl) []
                    (map (href_group html) (exec_all hrefRegex html)))
  end.

(** The text the link pattern runs over. *)
Definition as_text (d : ResponseData) : jsstring :=
  match d with
  | TextData s => s
  | JsonData _ _ to_string => to_string
  end.

(** The part of the loop body after [urls.push]: fetch and enqueue. *)
Definition expand (maxUrls maxDepth : Num.number) (st : State)
           (normalizedUrl : jsstring) (d : Z) : Turn :=
  if Num.lt (Num.of_Z d) maxDepth && under (length (urls st)) maxUrls then
    let st' := mkState (visited st) (urls st) (queue st)
                       (requests st ++ [normalizedUrl]) in
    match fetchPage (length (requests st)) normalizedUrl with
    | Throw e => Raise st' e
    | Normal None => Continue st'
    | Normal (Some data) =>
        if data_truthy data then
          match extractLinks (as_text data) normalizedUrl with
          | Throw e => Raise st' e
          | Normal links =>
              let fresh :=
                List.filter
                  (fun link => negb (bool_decide (link ∈ visited st))
                               && under (length (urls st)) maxUrls)
                  links in
              Continue (mkState (visited st') (urls st')
                          (queue st' ++ map (fun link => mkURLData link (d + 1)%Z) fresh)
                          (requests st'))
          end
        else Continue st'
    end
  else Continue st.

Definition step (maxUrls maxDepth : Num.number) (st : State) : Turn :=
  match queue st with
  | [] => Return_ st
  | item :: rest =>
      if negb (under (length (urls st)) maxUrls) then Return_ st
      else
        let st1 := mkState (visited st) (urls st) rest (requests st) in
        match normalizeUrl parse (url item) with
        | None => Continue st1
        | Some normalizedUrl =>
            if bool_decide (normalizedUrl ∈ visited st)
               || Num.gt (Num.of_Z (depth item)) maxDepth
            then Continue st1
            else
              expand maxUrls maxDepth
                (mkState ({[normalizedUrl]} ∪ visited st)
                         (urls st ++ [mkURLData normalizedUrl (depth item)])
                         rest (requests st))
                normalizedUrl (depth item)
        end
  end.

(** The loop, cut off after [fuel] turns. *)
Fixpoint run (maxUrls maxDepth : Num.number) (fuel : nat) (st : State)
  : option (State * Completion (list URLData)) :=
  match fuel with
  | 0 => None
  | S fuel' =>
      match step maxUrls maxDepth st with
      | Continue st' => run maxUrls maxDepth fuel' st'
      | Return_ st' => Some (st', Normal (urls st'))
      | Raise st' e => Some (st', Throw e)
      end
  end.

Definition start (startUrl : jsstring) : State :=
  mkState ∅ [] [mkURLData startUrl 0] [].

(** [crawlWebsite(startUrl, maxUrls, maxDepth)] *)
Definition crawlWebsite (fuel : nat) (startUrl : jsstring)
           (maxUrls maxDepth : Num.number)
  : option (State * Completion (list URLData)) :=
  run maxUrls maxDepth fuel (start startUrl).

End Route.

(** The request body, with the defaults 200 and 5 of the destructuring
    in place of a missing limit, and the answer of the handler. *)
Record Body := mkBody {
  body_url : option jsstring;
  maxUrls : Num.number;
  maxDepth : Num.number
}.

Inductive Response :=
| Success (found : list URLData) (count : nat)
| Failure (status : Z) (error : jsstring).

(** [catch (error)] of a handler: the message of an [Error], or a fixed
    text. *)
Definition failure_text (e : Thrown) (otherwise : jsstring) : jsstring :=
  match e with
  | ErrorObject message => message
  | OtherThrown => otherwise
  end.

(** The handler, which does not read [excludeUrls]; [None] when the crawl
    is cut off by [fuel]. *)
Definition POST (parse : jsstring -> option URL)
           (parse_relative : jsstring -> jsstring -> option URL)
           (network : nat -> jsstring -> Network)
           (fuel : nat) (body : Body) : option Response :=
  match body_url body with
  | None => Some (Failure 400 (lit "URL is required"))
  | Some u =>
      if negb (nonempty u) then Some (Failure 400 (lit "URL is required"))
      else
        let validatedUrl := with_scheme u in
        match parse validatedUrl with
        | None => Some (Failure 400 (lit "Invalid URL format"))
        | Some _ =>
            if Num.gt (maxUrls body) (Num.of_Z 300)
            then Some (Failure 400 (lit "Maximum 300 URLs allowed"))
            else if Num.gt (maxDepth body) (Num.of_Z 5)
            then Some (Failure 400 (lit "Maximum depth is 5 layers"))
            else
              match crawlWebsite parse parse_relative network fuel validatedUrl
                                 (maxUrls body) (maxDepth body) with
              | None => None
              | Some (_, Normal found) => Some (Success found (length found))
              | Some (_, Throw e) =>
                  Some (Failure 500 (failure_text e (lit "Failed to scan website")))
              end
        end
  end.

End Scan.

(** ** The scan route that takes [excludeUrls] *)

(** The second copy of the route in the repository (the TypeScript text
    stored behind FIX_REDIRECT_URI_MISMATCH_PRODUCTION.md): [fetchPage] and
    [extractLinks] are those of [Scan]; the crawler consults an exclude
    set and normalises the start URL and every extracted link once more. *)

Module ScanExclude.

Export Scan (URLData, mkURLData, url, depth, State, mkState, visited, urls,
             queue, requests, Turn, Continue, Return_, Raise, target, limited,
             bounded, Response, Success, Failure).

Record Body := mkBody {
  body_url : option jsstring;
  maxUrls : Num.number;
  maxDepth : Num.number;
  excludeUrls : list jsstring
}.

(** What the exclude set says of the outcome of a crawl. *)
Definition avoids (excludeSet : gset jsstring)
           (r : option (State * Completion (list URLData))) : Prop :=
  match r with
  | Some (final, Normal found) =>
      Forall (fun u => u ∉ excludeSet) (requests final)
      /\ Forall (fun d => url d ∉ excludeSet) found
  | Some (final, Throw _) => Forall (fun u => u ∉ excludeSet) (requests final)
  | None => True
  end.

(** Nothing of the exclude set is requested or recorded. *)
Definition clean (excludeSet : gset jsstring) (st : State) : Prop :=
  Forall (fun u => u ∉ excludeSet) (requests st)
  /\ Forall (fun d => url d ∉ excludeSet) (urls st).

Section Route.

Variable parse : jsstring -> option URL.
Variable parse_relative : jsstring -> jsstring -> option URL.
Variable network : nat -> jsstring -> Network.

(** The loop that fills [excludeSet]. *)
Definition exclude_body (excludeSet : gset jsstring) (u : jsstring) : gset jsstring :=
  match normalizeUrl parse (with_scheme u) with
  | Some n => if nonempty n then {[n]} ∪ excludeSet else excludeSet
  | None => excludeSet
  end.

Definition make_excludeSet (excludeUrls : list jsstring) : gset jsstring :=
  foldl exclude_body ∅ excludeUrls.

(** The test of the inner loop:
    [norm && !visited.has(norm) && !excludeSet.has(norm) && urls.length < maxUrls] *)
Definition wanted (maxUrls : Num.number) (excludeSet : gset jsstring) (st : State)
           (norm : jsstring) : bool :=
  nonempty norm && negb (bool_decide (norm ∈ visited st))
  && negb (bool_decide (norm ∈ excludeSet))
  && Scan.under (length (urls st)) maxUrls.

Definition enqueue (maxUrls : Num.number) (excludeSet : gset jsstring) (st : State) (d : Z)
           (q : list URLData) (link : jsstring) : list URLData :=
  match normalizeUrl parse link with
  | Some norm =>
      if wanted maxUrls excludeSet st norm
      then q ++ [mkURLData norm (d + 1)%Z] else q
  | None => q
  end.

Definition expand (maxUrls maxDepth : Num.number) (excludeSet : gset jsstring)
           (st : State) (normalizedUrl : jsstring) (d : Z) : Turn :=
  if Num.lt (Num.of_Z d) maxDepth && Scan.under (length (urls st)) maxUrls then
    let st' := mkState (visited st) (urls st) (queue st)
                       (requests st ++ [normalizedUrl]) in
    match Scan.fetchPage network (length (requests st)) normalizedUrl with
    | Throw e => Raise st' e
    | Normal None => Continue st'
    | Normal (Some data) =>
        if data_truthy data then
          match Scan.extractLinks parse parse_relative (Scan.as_text data)
                                  normalizedUrl with
          | Throw e => Raise st' e
          | Normal links =>
              Continue (mkState (visited st') (urls st')
                          (foldl (enqueue maxUrls excludeSet st' d) (queue st') links)
                          (requests st'))
          end
        else Continue st'
    end
  else Continue st.

Definition step (maxUrls maxDepth : Num.number) (excludeSet : gset jsstring)
           (st : State) : Turn :=
  match queue st with
  | [] => Return_ st
  | item :: rest =>
      if negb (Scan.under (length (urls st)) maxUrls) then Return_ st
      else
        let st1 := mkState (visited st) (urls st) rest (requests st) in
        match normalizeUrl parse (url item) with
        | None => Continue st1
        | Some normalizedUrl =>
            if negb (nonempty normalizedUrl) then Continue st1
            else if bool_decide (normalizedUrl ∈ visited st)
                    || Num.gt (Num.of_Z (depth item)) maxDepth
                    || bool_decide (normalizedUrl ∈ excludeSet)
            then Continue st1
            else
              expand maxUrls maxDepth excludeSet
                (mkState ({[normalizedUrl]} ∪ visited st)
                         (urls st ++ [mkURLData normalizedUrl (depth item)])
                         rest (requests st))
                normalizedUrl (depth item)
        end
  end.

Fixpoint run (maxUrls maxDepth : Num.number) (excludeSet : gset jsstring)
         (fuel : nat) (st : State) : option (State * Completion (list URLData)) :=
  match fuel with
  | 0 => None
  | S fuel' =>
      match step maxUrls maxDepth excludeSet st with
      | Continue st' => run maxUrls maxDepth excludeSet fuel' st'
      | Return_ st' => Some (st', Normal (urls st'))
      | Raise st' e => Some (st', Throw e)
      end
  end.

Definition idle : State := mkState ∅ [] [] [].

(** [crawlWebsite(startUrl, maxUrls, maxDepth, excludeUrls)] *)
Definition crawlWebsite (fuel : nat) (startUrl : jsstring)
           (maxUrls maxDepth : Num.number) (excludeUrls : list jsstring)
  : option (State * Completion (list URLData)) :=
  let excludeSet := make_excludeSet excludeUrls in
  match normalizeUrl parse (with_scheme startUrl) with
  | Some startNormalized =>
      if nonempty startNormalized
      then run maxUrls maxDepth excludeSet fuel
               (mkState ∅ [] [mkURLData startNormalized 0] [])
      else Some (idle, Normal [])
  | None => Some (idle, Normal [])
  end.

(** The handler; [None] when the crawl is cut off by [fuel]. *)
Definition POST (fuel : nat) (body : Body) : option Response :=
  match body_url body with
  | None => Some (Failure 400 (lit "URL is required"))
  | Some u =>
      if negb (nonempty u) then Some (Failure 400 (lit "URL is required"))
      else
        let validatedUrl := with_scheme u in
        match parse validatedUrl with
        | None => Some (Failure 400 (lit "Invalid URL format"))
        | Some _ =>
            if Num.gt (maxUrls body) (Num.of_Z 300)
            then Some (Failure 400 (lit "Maximum 300 URLs allowed"))
            else if Num.gt (maxDepth body) (Num.of_Z 5)
            then Some (Failure 400 (lit "Maximum depth is 5 layers"))
            else
              match crawlWebsite fuel validatedUrl (maxUrls body) (maxDepth body)
                                 (excludeUrls body) with
              | None => None
              | Some (_, Normal found) => Some (Success found (length found))
              | Some (_, Throw e) =>
                  Some (Failure 500 (Scan.failure_text e (lit "Failed to scan website")))
              end
        end
  end.

End Route.

End ScanExclude.

(** ** A parser for plain web addresses, and a small site *)

(** The URL constructor belongs to the platform; the routes are stated
    over any parser.  [Sample.parse] reads the addresses of the shape
    [http(s)://host/path?query#fragment] whose parts need no rewriting by
    the WHATWG parser (lower-case host labels, no dots, escapes or blanks
    in the path) and refuses every other string; on what it accepts it
    returns what [new URL] returns. *)

Module Sample.

Definition is_lower (c : ascii) : bool :=
  let n := code c in (97 <=? n) && (n <=? 122).

Definition is_plain (c : ascii) : bool :=
  let n := code c in
  ((48 <=? n) && (n <=? 57)) || ((65 <=? n) && (n <=? 90))
  || ((97 <=? n) && (n <=? 122)) || (n =? 45) || (n =? 95).

Definition host_char (c : ascii) : bool := is_lower c || bool_decide (c = "."%char).
Definition path_char (c : ascii) : bool := is_plain c || bool_decide (c = "/"%char).
Definition query_char (c : ascii) : bool :=
  path_char c || bool_decide (c = "="%char) || bool_decide (c = "&"%char).

(** Labels of lower-case letters separated by single dots. *)
Fixpoint labels (after_dot : bool) (h : jsstring) : bool :=
  match h with
  | [] => negb after_dot
  | c :: h' =>
      if is_lower c then labels false h'
      else bool_decide (c = "."%char) && negb after_dot && labels true h'
  end.

Definition valid_host (h : jsstring) : bool := labels true h.

(** Split at the first occurrence of [c]. *)
Fixpoint split_at (c : ascii) (s : jsstring) : jsstring * option jsstring :=
  match s with
  | [] => ([], None)
  | a :: s' =>
      if bool_decide (a = c) then ([], Some s')
      else let '(p, r) := split_at c s' in (a :: p, r)
  end.

Definition strip_scheme (s : jsstring) : option (jsstring * jsstring) :=
  if startsWith s (lit "https://") then Some (lit "https:", drop 8 s)
  else if startsWith s (lit "http://") then Some (lit "http:", drop 7 s)
  else None.

Definition web_scheme (scheme : jsstring) : Prop :=
  scheme = lit "https:" \/ scheme = lit "http:".

Definition all_of (p : ascii -> bool) (o : option jsstring) : bool :=
  match o with Some s => forallb p s | None => true end.

Definition suffix_part (c : ascii) (o : option jsstring) : jsstring :=
  match o with Some s => c :: s | None => [] end.

Definition parse (s : jsstring) : option URL :=
  '(scheme, rest) ← strip_scheme s;
  let '(body, frag) := split_at "#"%char rest in
  let '(authority_path, query) := split_at "?"%char body in
  let '(host, path) := split_at "/"%char authority_path in
  if valid_host host && all_of path_char path && all_of query_char query
     && all_of query_char frag
  then Some {| protocol := scheme;
               hostname := host;
               serialized := scheme ++ lit "//" ++ host ++ "/"%char :: default [] path
                             ++ suffix_part "?"%char query;
               fragment := frag |}
  else None.

(** An absolute address is read as it stands, whatever the base; relative
    references are not part of the sample. *)
Definition parse_relative (link base : jsstring) : option URL := parse link.

(** A site whose every page answers with the same markup. *)
Definition uniform_site (markup : jsstring) : nat -> jsstring -> Network :=
  fun _ _ => Responded 200 (TextData markup).

(** A site that cannot be reached. *)
Definition unreachable : nat -> jsstring -> Network :=
  fun _ _ => NetworkError (lit "getaddrinfo ENOTFOUND").

(** A home page with two pages of its own domain and one elsewhere. *)
Definition campus (k : nat) (u : jsstring) : Network :=
  if bool_decide (u = lit "https://example.edu")
  then Responded 200 (TextData (lit
         "<a href='/admissions'>A</a> <a href='https://example.edu/records/'>R</a> <a href='https://other.org/x'>O</a>"))
  else Responded 404 (TextData (lit "gone")).

(** A prompt without hints. *)
Definition sample_prompt : Analyze.Prompt :=
  {| Analyze.workStreamHint := []; Analyze.keywordHint := [];
     Analyze.prompt_snippet := lit "Log in to CougarWeb to register." |}.

End Sample.

(** ** Shapes of text *)

Module Shape.

Import Analyze.

(** The word [p] occurs in [s], up to the case of its letters. *)
Definition ci_infix (p s : jsstring) : Prop :=
  exists i, ci_prefix_at p s i = true.

(** Every white-space character of [s] is a blank that no white space
    follows. *)
Definition single_spaced (s : jsstring) : Prop :=
  forall i c, s !! i = Some c -> is_space c = true ->
    c = " "%char /\ (forall d, s !! S i = Some d -> is_space d = false).

Definition no_leading_space (s : jsstring) : Prop :=
  forall c, head s = Some c -> is_space c = false.

Definition no_trailing_space (s : jsstring) : Prop :=
  forall c, last s = Some c -> is_space c = false.

End Shape.

(** ** The markup patterns of [fetchPageContent] *)

Module Markup.

Import Analyze.

(** Length of the maximal run of characters other than [c]. *)
Fixpoint run_except (c : ascii) (s : jsstring) : nat :=
  match s with
  | x :: s' => if bool_decide (x = c) then 0 else S (run_except c s')
  | [] => 0
  end.

(** [<name[^>]*>[\s\S]*?<\/name>] with flag [i].  The class [[^>]] cannot
    run over the [>] that has to follow it, so the opening tag ends at the
    first [>]; the lazy star then stops at the first closing tag. *)
Definition block (name : jsstring) : matcher := fun s i =>
  let opening := "<"%char :: name in
  let closing := lit "</" ++ name ++ lit ">" in
  if ci_prefix_at opening s i then
    let j := i + length opening + run_except ">"%char (drop (i + length opening) s) in
    match s !! j with
    | Some _ =>
        (fun k => k + length closing)
          <$> List.find (fun k => ci_prefix_at closing s k)
                        (seq (S j) (S (length s) - S j))
    | None => None
    end
  else None.

(** [/<script[^>]*>[\s\S]*?<\/script>/gi] *)
Definition scriptRegex : matcher := block (lit "script").

(** [/<style[^>]*>[\s\S]*?<\/style>/gi] *)
Definition styleRegex : matcher := block (lit "style").

(** [/<[^>]+>/g] *)
Definition tagRegex : matcher := fun s i =>
  match s !! i with
  | Some c =>
      if bool_decide (c = "<"%char) then
        let n := run_except ">"%char (drop (S i) s) in
        match s !! (S i + n) with
        | Some _ => if 0 <? n then Some (S i + n + 1) else None
        | None => None
        end
      else None
  | None => None
  end.

(** The three replacements that open the chain of [fetchPageContent]. *)
Definition stripMarkup (html : jsstring) : jsstring :=
  replace_all tagRegex (lit " ")
    (replace_all styleRegex [] (replace_all scriptRegex [] html)).

(** [/<title[^>]*>([^<]+)<\/title>/i] at index [i]: where group 1 lies. *)
Definition title_at (s : jsstring) (i : nat) : option (nat * nat) :=
  if ci_prefix_at (lit "<title") s i then
    let j := i + 6 + run_except ">"%char (drop (i + 6) s) in
    match s !! j with
    | Some _ =>
        let m := run_except "<"%char (drop (S j) s) in
        if (0 <? m) && ci_prefix_at (lit "</title>") s (S j + m)
        then Some (S j, S j + m) else None
    | None => None
    end
  else None.

(** [html.match(...)]: group 1 of the leftmost match. *)
Definition titleMatch (html : jsstring) : option jsstring :=
  (fun g => slice html g.1 g.2)
    <$> head (omap (title_at html) (seq 0 (S (length html)))).

(** The pattern [/<[^>]+>/] matches nowhere in [s]. *)
Definition tag_free (s : jsstring) : Prop := forall i, tagRegex s i = None.

End Markup.

(** ** Replacement with a global pattern *)

Module Replace.

Import Analyze.

(** Matches are not empty and end inside the string. *)
Definition advances (re : matcher) (s : jsstring) : Prop :=
  forall i e, re s i = Some e -> i < e <= length s.

(** The output of [s.replace(re, rep)] for the part of [s] from [pos]
    on. *)
Definition rest (re : matcher) (rep s : jsstring) (pos : nat) : jsstring :=
  splice s rep (exec_from re s (S (length s) - pos) pos 0) pos.

End Replace.

Module Guard.

Import Analyze.

(** Every [<] of [s] is directly followed by [>], or no [>] comes after it. *)
Definition guarded (s : jsstring) : Prop :=
  forall a b, s = a ++ "<"%char :: b -> head b = Some ">"%char \/ ">"%char ∉ b.
End Guard.

Module TitleDef.

Import Analyze.

Import Markup.
(** [html] holds a title element: an opening tag, its text [t], and the
    closing tag right behind the text. *)
Definition title_element (html pre opening attrs t closing post : jsstring) : Prop :=
  html = pre ++ opening ++ attrs ++ ">"%char :: t ++ closing ++ post
  /\ ci_equal opening (lit "<title") = true
  /\ (">"%char ∉ attrs)
  /\ t <> [] /\ ("<"%char ∉ t)
  /\ ci_equal closing (lit "</title>") = true.
End TitleDef.

(** ** Findings and results *)

Module FindingDef.

Import Analyze.

(** A finding made for the snippet [snip] with every field in place. *)
Definition filled (snip : jsstring) (f : Finding) : Prop :=
  html_context f = snip
  /\ truthy (primary_audience f) = true
  /\ truthy (task_category f) = true
  /\ truthy (reference_type f) = true
  /\ truthy (workday_feature f) = true
  /\ (snip <> [] -> truthy (proposed_replacement f) = true)
  /\ isArray (suggested_keywords f) = true.

(** The result the handler makes for [u] from what the fetch returned. *)
Definition result_of (outcome : option PageContent) (u : jsstring)
           (r : AnalysisResult) : Prop :=
  url r = u
  /\ match outcome with
     | None => pageTitle r = [] /\ hasLegacyReferences r = false /\ findings r = []
     | Some content =>
         let snippets := findLegacySnippets (html content) (text content) in
         pageTitle r = title content
         /\ hasLegacyReferences r = negb (length snippets =? 0)
         /\ Forall2 (fun s f => filled (snippet s) f) snippets (findings r)
     end.

(** A finding a reader can use: context, the five descriptive fields and
    the keyword list are all there. *)
Definition complete (f : Finding) : Prop :=
  20 < length (html_context f)
  /\ truthy (primary_audience f) = true
  /\ truthy (task_category f) = true
  /\ truthy (reference_type f) = true
  /\ truthy (workday_feature f) = true
  /\ truthy (proposed_replacement f) = true
  /\ isArray (suggested_keywords f) = true.

End FindingDef.

(** ** The completion client ([lib/openai.ts]) *)

Module OpenAI.

Import Analyze.

Abbreviation number := QArith_base.Q.

(** The variables of [process.env] the module reads. *)
Record Env := mkEnv {
  OPENAI_API_KEY : option jsstring;
  OPENAI_MODEL : option jsstring
}.

(** An [OpenAI] object, as far as the module configures it. *)
Record Client := mkClient { apiKey : jsstring }.

Inductive Role := system | user | assistant.

Record Message := mkMessage { role : Role; content : jsstring }.

Record Options := mkOptions {
  temperature : option number;
  preserveSystemMessage : option bool
}.

(** The argument of [client.chat.completions.create]. *)
Record Request := mkRequest {
  model : jsstring;
  messages : list Message;
  request_temperature : number;
  max_tokens : Z
}.

(** The service: for a client and a request, the [content] of the message
    of each choice ([None] where it is [null] or missing), or a
    rejection. *)
Definition Service := Client -> Request -> Completion (list (option jsstring)).

Definition key_error : jsstring :=
  lit "OpenAI API key must be set in .env.local (OPENAI_API_KEY=sk-proj-...)".

(** [getOpenAIClient()]; the module variable [openaiClient] is passed in
    and returned. *)
Definition getOpenAIClient (env : Env) (openaiClient : option Client)
  : option Client * Completion Client :=
  match openaiClient with
  | Some client => (openaiClient, Normal client)
  | None =>
      let apiKey := match OPENAI_API_KEY env with
                    | Some rawKey => trim rawKey
                    | None => []
                    end in
      if negb (nonempty apiKey) then (None, Throw (ErrorObject key_error))
      else (Some (mkClient apiKey), Normal (mkClient apiKey))
  end.

Definition nl : jsstring := [ascii_of_nat 10].

Definition closing_advice : jsstring :=
  lit "IMPORTANT: Write in a natural, conversational tone. Do not use markdown formatting like ### headers, **bold**, *italic*, code blocks, or bullet points. Write as if you're speaking directly to the user in plain, human-friendly text.".

Definition context_message (context : jsstring) : jsstring :=
  lit "You are an intelligent advisor for WorkDay. Use the following context from the knowledge base to answer questions accurately and helpfully:"
  ++ nl ++ nl ++ context ++ nl ++ nl
  ++ lit "If the context doesn't contain relevant information, use your general knowledge but indicate when you're doing so."
  ++ nl ++ nl ++ closing_advice.

Definition default_message : jsstring :=
  lit "You are an intelligent advisor for WorkDay. Provide helpful, accurate information about WorkDay, project management, and content updates."
  ++ nl ++ nl ++ closing_advice.

Definition is_system (msg : Message) : bool :=
  match role msg with system => true | _ => false end.

(** [systemMessage]; [None] stands for [undefined]. *)
Definition systemMessage (msgs : list Message) (context : option jsstring)
           (options : option Options) : option jsstring :=
  let hasSystemMessage := existsb is_system msgs in
  if hasSystemMessage
     && match options with
        | Some o => default false (preserveSystemMessage o)
        | None => false
        end
  then None
  else match context with
       | Some c => if nonempty c then Some (context_message c) else Some default_message
       | None => Some default_message
       end.

Definition allMessages (msgs : list Message) (context : option jsstring)
           (options : option Options) : list Message :=
  match systemMessage msgs context options with
  | Some text => if nonempty text then mkMessage system text :: msgs else msgs
  | None => msgs
  end.

Definition default_temperature : number := QArith_base.Qmake 7 10.

(** The request [chatCompletion] sends. *)
Definition request (env : Env) (msgs : list Message) (context : option jsstring)
           (options : option Options) : Request :=
  {| model := match OPENAI_MODEL env with
              | Some m => if nonempty m then m else lit "gpt-4.1-mini"
              | None => lit "gpt-4.1-mini"
              end;
     messages := allMessages msgs context options;
     request_temperature :=
       match options with
       | Some o => default default_temperature (temperature o)
       | None => default_temperature
       end;
     max_tokens := 4000 |}.

(** [response.choices[0]?.message?.content || ''] *)
Definition first_content (choices : list (option jsstring)) : jsstring :=
  match choices with
  | Some text :: _ => text
  | None :: _ | [] => []
  end.

(** [chatCompletion(messages, context, options)] *)
Definition chatCompletion (env : Env) (create : Service) (openaiClient : option Client)
           (msgs : list Message) (context : option jsstring) (options : option Options)
  : option Client * Completion jsstring :=
  let '(cache, got) := getOpenAIClient env openaiClient in
  (cache,
   bind got (fun client =>
     bind (create client (request env msgs context options)) (fun choices =>
       Normal (first_content choices)))).

(** The environment holds no key the module accepts. *)
Definition keyless (env : Env) : Prop :=
  match OPENAI_API_KEY env with
  | Some rawKey => trim rawKey = []
  | None => True
  end.

(** The module variable [openaiClient] before the [k]-th call in a
    process that starts with [openaiClient]; [env j] is the environment at
    the [j]-th call. *)
Fixpoint client_before (env : nat -> Env) (openaiClient : option Client) (k : nat)
  : option Client :=
  match k with
  | 0 => openaiClient
  | S k' => (getOpenAIClient (env k') (client_before env openaiClient k')).1
  end.

(** The [k]-th call of the analyze route:
    [chatCompletion([{ role: 'user', content: prompt }], undefined, { temperature: 0.2 })];
    [render] is the template of the prompt. *)
Definition classify (env : nat -> Env) (openaiClient : option Client)
           (service : nat -> Service) (render : Prompt -> jsstring)
  : nat -> Prompt -> Completion jsstring :=
  fun k prompt =>
    (chatCompletion (env k) (service k) (client_before env openaiClient k)
       [mkMessage user (render prompt)] None
       (Some (mkOptions (Some (QArith_base.Qmake 2 10)) None))).2.

End OpenAI.

(** ** Links *)

Module LinkShape.

(** [h] is the value of an [href] attribute of [html]: it stands between
    two quotes behind [href=], is not empty and holds no quote. *)
Definition href_attribute (html h : jsstring) : Prop :=
  exists pre name q q' post,
    html = pre ++ name ++ q :: h ++ q' :: post
    /\ ci_equal name (lit "href=") = true
    /\ Scan.is_quote q = true /\ Scan.is_quote q' = true
    /\ h <> [] /\ forallb (fun c => negb (Scan.is_quote c)) h = true.

(** [host] is the base domain or one of its subdomains. *)
Definition same_site (baseDomain host : jsstring) : Prop :=
  host = baseDomain \/ exists sub, host = sub ++ "."%char :: baseDomain.

(** The prefixes of an attribute value that [extractLinks] passes
    over. *)
Definition skipped (h : jsstring) : bool :=
  startsWith h (lit "javascript:") || startsWith h (lit "mailto:")
  || startsWith h (lit "tel:") || startsWith h (lit "#").

(** What [extractLinks] says of one of its links [l], for the page [html]
    at the address [baseUrl], parsed as [baseUrlObj]. *)
Definition site_link (parse : jsstring -> option URL)
           (parse_relative : jsstring -> jsstring -> option URL)
           (html baseUrl : jsstring) (baseUrlObj : URL) (l : jsstring) : Prop :=
  exists h linkUrl,
    href_attribute html h /\ skipped h = false
    /\ Scan.resolve_link parse parse_relative baseUrlObj baseUrl h = Some linkUrl
    /\ same_site (hostname baseUrlObj) (hostname linkUrl)
    /\ l = strip_slash (serialized linkUrl).

End LinkShape.

(** ** Shapes of a crawl record *)

Module CrawlShape.

Import Scan.

(** No address is recorded twice, the set of visited addresses is the
    set of recorded ones, and the requests are recorded addresses, in the
    order of the record. *)
Definition coherent (st : State) : Prop :=
  NoDup (map url (urls st))
  /\ (forall u, u ∈ visited st <-> u ∈ map url (urls st))
  /\ sublist (requests st) (map url (urls st)).

(** Depths never decrease along the record and the queue; the queue
    spans at most two levels. *)
Definition breadth_first (st : State) : Prop :=
  StronglySorted Z.le (map depth (urls st ++ queue st))
  /\ Forall (fun d => (0 <= depth d)%Z) (urls st ++ queue st)
  /\ (forall h, head (queue st) = Some h ->
                Forall (fun q => (depth q <= depth h + 1)%Z) (queue st)).

(** The record opens with the canonical form of the queued start
    address, at depth 0. *)
Definition rooted (parse : jsstring -> option URL) (startUrl : jsstring)
           (st : State) : Prop :=
  (urls st = [] /\ (queue st = [] \/ queue st = [mkURLData startUrl 0]))
  \/ (exists n rest, normalizeUrl parse startUrl = Some n
                     /\ urls st = mkURLData n 0 :: rest).

(** The three kinds of turn of either crawler: stop; drop the head of
    the queue; record the head of the queue, queue entries of the next
    depth and issue at most one request. *)
Definition turn_shape (parse : jsstring -> option URL) (maxDepth : Num.number)
           (step : State -> Turn) : Prop :=
  forall st,
    step st = Return_ st
    \/ exists item rest,
        queue st = item :: rest
        /\ (target (step st) = mkState (visited st) (urls st) rest (requests st)
            \/ exists n more,
                normalizeUrl parse (url item) = Some n
                /\ (n ∉ visited st)
                /\ Num.gt (Num.of_Z (depth item)) maxDepth = false
                /\ visited (target (step st)) = {[n]} ∪ visited st
                /\ urls (target (step st)) = urls st ++ [mkURLData n (depth item)]
                /\ queue (target (step st)) = rest ++ more
                /\ Forall (fun q => depth q = (depth item + 1)%Z) more
                /\ (requests (target (step st)) = requests st
                    \/ requests (target (step st)) = requests st ++ [n])).

(** What the three shapes say of the list a crawl returns. *)
Definition orderly (parse : jsstring -> option URL) (startUrl : jsstring)
           (r : option (State * Completion (list URLData))) : Prop :=
  match r with
  | Some (final, Normal found) =>
      NoDup (map url found)
      /\ sublist (requests final) (map url found)
      /\ StronglySorted Z.le (map depth found)
      /\ Forall (fun d => (0 <= depth d)%Z) found
      /\ match found with
         | first :: _ => depth first = 0%Z /\ normalizeUrl parse startUrl = Some (url first)
         | [] => True
         end
  | Some (_, Throw _) | None => True
  end.

End CrawlShape.

(** ** Answers of the scan handler *)

Module HandlerShape.

Import Scan.

(** The platform parser accepts the canonical form of what it parses. *)
Definition canon_parses (parse : jsstring -> option URL) : Prop :=
  forall x u, parse x = Some u -> is_Some (parse (strip_slash (serialized u))).

(** What the scan handler may answer to a request with the address [u]
    and the limits [maxUrls] and [maxDepth]. *)
Definition scan_answer (parse : jsstring -> option URL) (u : option jsstring)
           (maxUrls maxDepth : Num.number) (resp : Response) : Prop :=
  match resp with
  | Success found count =>
      count = length found
      /\ Num.gt maxUrls (Num.of_Z 300) = false
      /\ Num.gt maxDepth (Num.of_Z 5) = false
      /\ limited maxUrls maxDepth found /\ limited_int maxUrls maxDepth found
      /\ (Z.of_nat count <= 300)%Z
      /\ Forall (fun d => (0 <= depth d <= 5)%Z) found
  | Failure status error =>
      status = 400%Z
      /\ ((error = lit "URL is required" /\ (u = None \/ u = Some []))
          \/ (error = lit "Invalid URL format"
              /\ exists x, u = Some x /\ parse (with_scheme x) = None)
          \/ (error = lit "Maximum 300 URLs allowed"
              /\ Num.gt maxUrls (Num.of_Z 300) = true)
          \/ (error = lit "Maximum depth is 5 layers"
              /\ Num.gt maxDepth (Num.of_Z 5) = true))
  end.

End HandlerShape.

(** ** The scanner component *)

Module Client.

Definition MAX_DEPTH : Z := 5.
Definition MAX_URLS : Z := 200.

Inductive Status := pending | analyzed | error.

(** [AnalyzedUrl] has the fields of a result of the analyze route. *)
Abbreviation AnalyzedUrl := Analyze.AnalysisResult.

Record ScannedUrl := mkScanned {
  url : jsstring;
  depth : Z;
  status : Status;
  analysis : option AnalyzedUrl
}.

(** [byUrl.set(key, value)] on a [Map] kept as the list of its entries in
    insertion order: an entry with the key keeps its place and takes the
    value, a new key goes to the end. *)
Fixpoint map_set {V} (m : list (jsstring * V)) (key : jsstring) (value : V)
  : list (jsstring * V) :=
  match m with
  | [] => [(key, value)]
  | (k, v) :: rest =>
      if bool_decide (k = key) then (k, value) :: rest
      else (k, v) :: map_set rest key value
  end.

(** [s.split(re)] for a pattern [re] that matches single characters. *)
Fixpoint split_on (sep : ascii -> bool) (s : jsstring) : list jsstring :=
  match s with
  | [] => [[]]
  | c :: s' =>
      if sep c then [] :: split_on sep s'
      else match split_on sep s' with
           | piece :: pieces => (c :: piece) :: pieces
           | [] => [[c]]
           end
  end.

(** [/[,;]/] *)
Definition is_separator (c : ascii) : bool :=
  bool_decide (c = ","%char) || bool_decide (c = ";"%char).

(** [text.split(/[,;]/).map((k) => k.trim()).filter(Boolean)] *)
Definition split_list (text : jsstring) : list jsstring :=
  List.filter nonempty (map trim (split_on is_separator text)).

(** A keyword as the component sends it. *)
Definition clean (k : jsstring) : Prop :=
  k <> [] /\ Shape.no_leading_space k /\ Shape.no_trailing_space k
  /\ forallb (fun c => negb (is_separator c)) k = true.

(** What [handleScan] and [handleAnalyze] leave behind once the handler
    has answered: the new list, or the message for [setError]. *)
Inductive Outcome :=
| Updated (list_ : list ScannedUrl)
| Rejected (message : jsstring).

Section Component.

Variable parse : jsstring -> option URL.

Definition key (s : ScannedUrl) : jsstring := normalizeUrlForCompare parse (url s).

Definition validateUrl (u : jsstring) : bool :=
  match parse (with_scheme u) with
  | Some parsed =>
      bool_decide (protocol parsed = lit "http:")
      || bool_decide (protocol parsed = lit "https:")
  | None => false
  end.

(** Entries of the map are filed under their own key, and no key is
    filed twice. *)
Definition filed (m : list (jsstring * ScannedUrl)) : Prop :=
  NoDup (map fst m) /\ Forall (fun e => e.1 = key e.2) m.

Definition mergeUrlLists (existing incoming : list ScannedUrl) : list ScannedUrl :=
  let byUrl := foldl (fun m s => map_set m (key s) s) [] existing in
  let byUrl := foldl (fun m s => map_set m (key s) s) byUrl incoming in
  map snd byUrl.

(** The request [handleScan] sends for the text of the address field,
    unless it stops at one of its two checks. *)
Definition scan_request (baseUrl : jsstring) (currentMaster : list ScannedUrl)
  : jsstring + ScanExclude.Body :=
  if negb (nonempty (trim baseUrl))
  then inl (lit "Please enter a starting website URL")
  else
    let urlToScan := with_scheme baseUrl in
    if negb (validateUrl urlToScan)
    then inl (lit "Please enter a valid URL (e.g., example.edu or https://example.edu)")
    else inr {| ScanExclude.body_url := Some urlToScan;
                ScanExclude.maxUrls := Num.of_Z MAX_URLS;
                ScanExclude.maxDepth := Num.of_Z MAX_DEPTH;
                ScanExclude.excludeUrls := map url currentMaster |}.

(** [data.error || fallback] *)
Definition error_or (e fallback : jsstring) : jsstring :=
  if nonempty e then e else fallback.

Definition handleScan (server : ScanExclude.Body -> option Scan.Response)
           (baseUrl : jsstring) (currentMaster : list ScannedUrl) : option Outcome :=
  match scan_request baseUrl currentMaster with
  | inl message => Some (Rejected message)
  | inr body =>
      match server body with
      | Some (Scan.Success found _) =>
          let newEntries :=
            map (fun u => mkScanned (Scan.url u) (Scan.depth u) pending None) found in
          Some (Updated (mergeUrlLists currentMaster newEntries))
      | Some (Scan.Failure _ e) =>
          Some (Rejected (error_or e (lit "Failed to scan website")))
      | None => None
      end
  end.

(** The update of [handleAnalyze]: an entry takes the first result that
    carries its address. *)
Definition apply_results (results : list Analyze.AnalysisResult)
           (prev : list ScannedUrl) : list ScannedUrl :=
  map (fun scanned =>
         match List.find (fun r => bool_decide (Analyze.url r = url scanned)) results with
         | Some result =>
             {| url := url scanned; depth := depth scanned; status := analyzed;
                analysis := Some {| Analyze.url := Analyze.url result;
                                    Analyze.pageTitle := Analyze.pageTitle result;
                                    Analyze.hasLegacyReferences :=
                                      Analyze.hasLegacyReferences result;
                                    Analyze.findings := Analyze.findings result |} |}
         | None => scanned
         end) prev.

Definition handleAnalyze (server : Analyze.Body -> Analyze.Response)
           (keywords workStreamAreas : jsstring) (scannedURLs : list ScannedUrl)
  : Outcome :=
  if length scannedURLs =? 0
  then Rejected (lit "Please run a scan or load URLs first.")
  else
    match server {| Analyze.urls := Some (map url scannedURLs);
                    Analyze.keywords := split_list keywords;
                    Analyze.workStreamAreas := split_list workStreamAreas |} with
    | Analyze.Success results => Updated (apply_results results scannedURLs)
    | Analyze.Failure _ e => Rejected (error_or e (lit "Analysis failed"))
    end.

End Component.

(** The test of [urlsWithFindings]:
    [s.analysis?.hasLegacyReferences && (s.analysis.findings?.length ?? 0) > 0] *)
Definition with_findings (s : ScannedUrl) : bool :=
  match analysis s with
  | Some a => Analyze.hasLegacyReferences a && (0 <? length (Analyze.findings a))
  | None => false
  end.

Definition urlsWithFindings (scannedURLs : list ScannedUrl) : list ScannedUrl :=
  List.filter with_findings scannedURLs.

End Client.

Module ClientShape.

Import Client.

(** What [handleScan] may leave behind for the master list [master]. *)
Definition scan_outcome (parse : jsstring -> option URL) (baseUrl : jsstring)
           (master : list ScannedUrl) (o : option Outcome) : Prop :=
  match o with
  | Some (Updated merged) =>
      NoDup (map (key parse) merged)
      /\ (forall s, s ∈ master -> key parse s ∈ map (key parse) merged)
      /\ Forall (fun s => s ∈ master
                          \/ (status s = pending /\ analysis s = None
                              /\ (0 <= depth s <= MAX_DEPTH)%Z)) merged
  | Some (Rejected message) =>
      (message = lit "Please enter a starting website URL" /\ trim baseUrl = [])
      \/ (message = lit "Please enter a valid URL (e.g., example.edu or https://example.edu)"
          /\ validateUrl parse (with_scheme baseUrl) = false)
  | None => False
  end.

(** An entry after [handleAnalyze], for the entry [s] before it. *)
Definition analyzed_from (s s' : ScannedUrl) : Prop :=
  url s' = url s /\ depth s' = depth s /\ status s' = analyzed
  /\ exists r, analysis s' = Some r /\ Analyze.url r = url s /\ Analyze.consistent r.

(** The same for the results [results] of the handler: the entry carries
    the first of them that has its address. *)
Definition analyzed_with (results : list Analyze.AnalysisResult)
           (s s' : ScannedUrl) : Prop :=
  analyzed_from s s'
  /\ exists i r,
      results !! i = Some r /\ analysis s' = Some r
      /\ forall j r', j < i -> results !! j = Some r' -> Analyze.url r' <> url s.

End ClientShape.

(** * Properties *)

(** ** White space *)

Module JSFacts.

Lemma collapse_from_app_char (run : bool) (a b : jsstring) (c : ascii) :
  is_space c = false ->
  collapse_from run (a ++ c :: b) = collapse_from run a ++ c :: collapse_from false b.
Proof.
  intros Hc. revert run. induction a as [|x a IH]; intros run; simpl.
  - by rewrite Hc.
  - destruct (is_space x); [destruct run|]; simpl; by rewrite IH.
Qed.

Lemma trimStart_app_char (a b : jsstring) (c : ascii) :
  is_space c = false -> exists a', trimStart (a ++ c :: b) = a' ++ c :: b.
Proof.
  intros Hc. induction a as [|x a [a' IH]]; simpl.
  - exists []. by rewrite Hc.
  - destruct (is_space x); [by exists a' | by exists (x :: a)].
Qed.

(** Trimming keeps everything between two characters that are not white
    space. *)
Lemma trim_keeps_core (x w z : jsstring) (c m : ascii) :
  is_space c = false -> is_space m = false ->
  2 + length w <= length (trim (x ++ c :: w ++ m :: z)).
Proof.
  intros Hc Hm. unfold trim.
  destruct (trimStart_app_char x (w ++ m :: z) c Hc) as [x' ->].
  rewrite reverse_app, reverse_cons, reverse_app, reverse_cons.
  rewrite <- !(assoc_L (++)). simpl.
  destruct (trimStart_app_char (reverse z) (reverse w ++ c :: reverse x') m Hm)
    as [z' ->].
  rewrite length_reverse, !length_app. simpl. rewrite length_app. simpl.
  rewrite !length_reverse. lia.
Qed.

End JSFacts.

(** ** The reference detector *)

Module DetectorFacts.

Import Analyze.

Lemma exec_from_match (re : matcher) (s : jsstring) (fuel pos skip i e : nat) :
  (i, e) ∈ exec_from re s fuel pos skip -> re s i = Some e.
Proof.
  revert pos skip. induction fuel as [|fuel IH]; intros pos skip; simpl.
  - by intros ?%elem_of_nil.
  - destruct skip as [|k]; [|by apply IH].
    destruct (re s pos) as [e'|] eqn:Hre; [|by apply IH].
    intros [Heq|Hin]%elem_of_cons; [congruence | by eapply IH].
Qed.

Lemma exec_all_match (re : matcher) (s : jsstring) (i e : nat) :
  (i, e) ∈ exec_all re s -> re s i = Some e.
Proof. apply exec_from_match. Qed.

Lemma push_snippet_keeps results snip index r :
  r ∈ results -> r ∈ push_snippet results snip index.
Proof.
  intros Hr. unfold push_snippet.
  destruct (_ && _); [apply elem_of_app; by left | done].
Qed.

Lemma push_snippet_origin results snip index r :
  r ∈ push_snippet results snip index -> r ∈ results \/ r = mkSnippet snip index.
Proof.
  unfold push_snippet. destruct (_ && _); [|by left].
  intros [?|Hr%list_elem_of_singleton]%elem_of_app; [by left | by right].
Qed.

Lemma push_snippet_holds results snip index :
  20 < length snip ->
  exists r, (r ∈ push_snippet results snip index) /\ snippet r = snip.
Proof.
  intros Hlen. unfold push_snippet.
  assert ((20 <? length snip) = true) as -> by by apply Nat.ltb_lt.
  simpl. destruct (existsb _ results) eqn:Hdup; simpl.
  - apply existsb_exists in Hdup as (r & Hr & Heq).
    exists r. split; [by apply list_elem_of_In | by apply bool_decide_eq_true in Heq].
  - exists (mkSnippet snip index). split; [|done].
    apply elem_of_app. right. by apply list_elem_of_singleton.
Qed.

Lemma cougar_loop_keeps text ms results r :
  r ∈ results -> r ∈ foldl (cougar_body text) results ms.
Proof.
  revert results. induction ms as [|m ms IH]; intros results Hr; simpl; [done|].
  apply IH. by apply push_snippet_keeps.
Qed.

Lemma colleague_loop_keeps text ms results r :
  r ∈ results -> r ∈ foldl (colleague_body text) results ms.
Proof.
  revert results. induction ms as [|m ms IH]; intros results Hr; simpl; [done|].
  apply IH. unfold colleague_body. destruct (test _ _); [|done].
  by apply push_snippet_keeps.
Qed.

Lemma cougar_loop_holds text ms results m :
  m ∈ ms -> 20 < length (cougar_snippet text m.1) ->
  exists r, (r ∈ foldl (cougar_body text) results ms)
            /\ snippet r = cougar_snippet text m.1.
Proof.
  intros Hm Hlen. revert results.
  induction ms as [|m' ms IH]; intros results; [by apply elem_of_nil in Hm|].
  apply elem_of_cons in Hm as [<-|Hm]; simpl.
  - destruct (push_snippet_holds results _ m.1 Hlen) as (r & Hr & Hsnip).
    exists r. split; [|done]. by apply cougar_loop_keeps.
  - by apply IH.
Qed.

(** Every entry the direct rule pushes carries the index of a match of
    the product-name pattern. *)
Lemma cougar_loop_origin text ms results r :
  r ∈ foldl (cougar_body text) results ms ->
  r ∈ results \/ (exists m, m ∈ ms /\ offset r = m.1).
Proof.
  revert results. induction ms as [|m ms IH]; intros results; simpl; [by left|].
  intros [Hr|(m' & Hm' & Hoff)]%IH.
  - apply push_snippet_origin in Hr as [Hr| ->]; [by left|].
    right. exists m. split; [apply elem_of_cons; by left | done].
  - right. exists m'. split; [apply elem_of_cons; by right | done].
Qed.

Lemma colleague_loop_origin text ms results r :
  r ∈ foldl (colleague_body text) results ms ->
  r ∈ results
  \/ (exists m, m ∈ ms /\ offset r = m.1
                 /\ test COLLEGUE_SYSTEM_WORDS (colleague_window text m.1) = true).
Proof.
  revert results. induction ms as [|m ms IH]; intros results; simpl; [by left|].
  intros [Hr|(m' & Hm' & Hoff)]%IH.
  - unfold colleague_body in Hr.
    destruct (test _ _) eqn:Htest; [|by left].
    apply push_snippet_origin in Hr as [Hr| ->]; [by left|].
    right. exists m. split; [apply elem_of_cons; by left | done].
  - right. exists m'. split; [apply elem_of_cons; by right | done].
Qed.

(** The two patterns never match at the same index: the third letter
    differs. *)
Lemma ci_prefix_cons_inv (a : ascii) (p s : jsstring) :
  ci_prefix (a :: p) s = true ->
  exists c s', s = c :: s' /\ ci_eqb a c = true /\ ci_prefix p s' = true.
Proof.
  destruct s as [|c s']; simpl; [done|].
  intros [? ?]%andb_prop. by exists c, s'.
Qed.

Lemma cougar_not_colleague (s : jsstring) :
  ci_prefix (lit "cou") s = true -> ci_prefix (lit "col") s = true -> False.
Proof.
  intros H1 H2.
  apply ci_prefix_cons_inv in H1 as (c1 & s1 & -> & _ & H1).
  apply ci_prefix_cons_inv in H1 as (c2 & s2 & -> & _ & H1).
  apply ci_prefix_cons_inv in H1 as (c3 & s3 & -> & Hu & _).
  simpl in H2. rewrite !andb_true_iff in H2. destruct H2 as (_ & _ & Hl & _).
  unfold ci_eqb in Hu, Hl.
  apply bool_decide_eq_true in Hu. apply bool_decide_eq_true in Hl.
  rewrite <- Hu in Hl. by vm_compute in Hl.
Qed.

Lemma ci_prefix_app (p q s : jsstring) :
  ci_prefix (p ++ q) s = true -> ci_prefix p s = true.
Proof.
  revert s. induction p as [|a p IH]; intros s; simpl; [done|].
  destruct s as [|c s]; [done|].
  intros [-> ?]%andb_prop. simpl. by apply IH.
Qed.

Lemma first_match_some alts e :
  first_match alts = Some e -> Some e ∈ alts.
Proof.
  induction alts as [|[e'|] alts IH]; simpl; [done| |].
  - intros [= ->]. apply elem_of_cons. by left.
  - intros H. apply elem_of_cons. right. by apply IH.
Qed.

Lemma cougarRegex_prefix s i e :
  cougarRegex s i = Some e -> ci_prefix (lit "cou") (drop i s) = true.
Proof.
  unfold cougarRegex. destruct (word_boundary s i); [|done].
  unfold cougar_space_web.
  destruct (ci_prefix_at (lit "cougar") s i) eqn:Hc.
  - intros _. by apply (ci_prefix_app (lit "cou") (lit "gar")).
  - unfold word_alt.
    destruct (ci_prefix_at (lit "cougarweb") s i) eqn:Hw; simpl; [|done].
    intros _. by apply (ci_prefix_app (lit "cou") (lit "garweb")).
Qed.

Lemma colleagueRegex_prefix s i e :
  colleagueRegex s i = Some e -> ci_prefix (lit "col") (drop i s) = true.
Proof.
  unfold colleagueRegex, word_alt. destruct (word_boundary s i); [|done].
  destruct (ci_prefix_at (lit "colleague") s i) eqn:Hc; [|done].
  intros _. by apply (ci_prefix_app (lit "col") (lit "league")).
Qed.

(** *** Positions behind a prefix *)

Lemma ci_prefix_at_app (p pre rest : jsstring) (k : nat) :
  ci_prefix_at p (pre ++ rest) (length pre + k) = ci_prefix_at p rest k.
Proof. unfold ci_prefix_at. by rewrite drop_app_add'. Qed.

Lemma word_at_app (pre rest : jsstring) (k : nat) :
  word_at (pre ++ rest) (length pre + k) = word_at rest k.
Proof. unfold word_at. by rewrite lookup_app_r, Nat.add_comm, Nat.add_sub by lia. Qed.

Lemma word_before_app_S (pre rest : jsstring) (k : nat) :
  word_before (pre ++ rest) (length pre + S k) = word_before rest (S k).
Proof.
  rewrite Nat.add_succ_r. simpl.
  by rewrite lookup_app_r, Nat.add_comm, Nat.add_sub by lia.
Qed.

Lemma word_before_app_0 (pre rest : jsstring) :
  word_before (pre ++ rest) (length pre) = ends_in_word pre.
Proof.
  unfold ends_in_word. destruct pre as [|c pre] using rev_ind; [done|].
  rewrite length_app, last_snoc. simpl. rewrite Nat.add_1_r. simpl.
  rewrite <- (assoc_L (++)). by rewrite lookup_app_r, Nat.sub_diag by lia.
Qed.

Lemma test_intro (re : matcher) (s : jsstring) (i e : nat) :
  i <= length s -> re s i = Some e -> test re s = true.
Proof.
  intros Hi Hre. unfold test. apply existsb_exists. exists i. split.
  - apply in_seq. lia.
  - apply bool_decide_eq_true. by exists e.
Qed.

(** The phrase "student records system", standing free on at least one
    side, satisfies the vocabulary test. *)
Lemma vocabulary_hit (pre post : jsstring) :
  ends_in_word pre = false \/ starts_with_word post = false ->
  test COLLEGUE_SYSTEM_WORDS (pre ++ lit "student records system" ++ post) = true.
Proof.
  set (w := pre ++ lit "student records system" ++ post).
  assert (length w = length pre + (22 + length post)) as Hlen.
  { unfold w. by rewrite !length_app. }
  intros [Hpre|Hpost].
  - apply (test_intro _ w (length pre) (length pre + 7)); [lia|].
    unfold COLLEGUE_SYSTEM_WORDS, word_boundary.
    rewrite <- (Nat.add_0_r (length pre)) at 2.
    unfold w at 1 2. rewrite word_before_app_0, word_at_app, Hpre. simpl.
    unfold word_alt.
    rewrite <- (Nat.add_0_r (length pre)) at 1.
    unfold word_boundary, w.
    rewrite ci_prefix_at_app. simpl length.
    by rewrite word_before_app_S, word_at_app.
  - apply (test_intro _ w (length pre + 16) (length pre + 22)); [lia|].
    unfold COLLEGUE_SYSTEM_WORDS, word_boundary, w.
    rewrite word_before_app_S, word_at_app. simpl.
    unfold word_alt, word_boundary. rewrite !ci_prefix_at_app. simpl.
    rewrite <- !Nat.add_assoc. simpl.
    rewrite word_before_app_S, word_at_app. simpl.
    unfold word_at, starts_with_word in *. simpl.
    destruct post as [|c post]; simpl in *; [done|]. by rewrite Hpost.
Qed.

Lemma phrase_snippet_length (pre post : jsstring) :
  20 < length (trim (collapse_spaces
                       (pre ++ lit "student records system" ++ post))).
Proof.
  unfold collapse_spaces.
  change (lit "student records system" ++ post)
    with ("s"%char :: (lit "tudent records syste" ++ "m"%char :: post)).
  rewrite JSFacts.collapse_from_app_char by done.
  rewrite (JSFacts.collapse_from_app_char false (lit "tudent records syste")) by done.
  pose proof (JSFacts.trim_keeps_core (collapse_from false pre)
                (collapse_from false (lit "tudent records syste"))
                (collapse_from false post) "s"%char "m"%char eq_refl eq_refl) as H.
  simpl in H. simpl. lia.
Qed.

(** *** Occurrences of the product name *)

Ltac each_char c := destruct c as [[] [] [] [] [] [] [] []]; vm_compute.

Lemma ci_c_inv (x : ascii) : ci_eqb "c"%char x = true -> x = "c"%char \/ x = "C"%char.
Proof. each_char x; (done || by auto). Qed.

Lemma ci_w_inv (x : ascii) : ci_eqb "w"%char x = true -> x = "w"%char \/ x = "W"%char.
Proof. each_char x; (done || by auto). Qed.

Lemma ci_b_inv (x : ascii) : ci_eqb "b"%char x = true -> x = "b"%char \/ x = "B"%char.
Proof. each_char x; (done || by auto). Qed.

Lemma ci_prefix_lookup (p t : jsstring) (d : nat) (a : ascii) :
  ci_prefix p t = true -> p !! d = Some a ->
  exists x, t !! d = Some x /\ ci_eqb a x = true.
Proof.
  revert t d. induction p as [|b p IH]; intros t d; simpl; [done|].
  destruct t as [|y t]; [done|]. intros [Hb Hp]%andb_prop.
  destruct d as [|d]; simpl.
  - intros [= <-]. by exists y.
  - by apply IH.
Qed.

Lemma ci_prefix_app_r (p q t : jsstring) :
  ci_prefix (p ++ q) t = true -> ci_prefix q (drop (length p) t) = true.
Proof.
  revert t. induction p as [|a p IH]; intros t; simpl; [done|].
  destruct t as [|y t]; [done|]. intros [_ Hp]%andb_prop. by apply IH.
Qed.

Lemma ci_prefix_extend (p c rest : jsstring) :
  ci_prefix p c = true -> ci_prefix p (c ++ rest) = true.
Proof.
  revert c. induction p as [|a p IH]; intros c; simpl; [done|].
  destruct c as [|y c]; [done|]. simpl. intros [-> Hp]%andb_prop. by apply IH.
Qed.

Lemma space_run_lookup (t : jsstring) (p : nat) :
  p < space_run t -> exists x, t !! p = Some x /\ is_space x = true.
Proof.
  revert p. induction t as [|y t IH]; intros p; simpl; [lia|].
  destruct (is_space y) eqn:Hy; [|lia].
  destruct p as [|p]; simpl; [by exists y|]. intros Hp. apply IH. lia.
Qed.


Lemma space_run_app (ws rest : jsstring) :
  forallb is_space ws = true -> space_run rest = 0 ->
  space_run (ws ++ rest) = length ws.
Proof.
  intros Hws Hrest. induction ws as [|y ws IH]; simpl in *; [done|].
  apply andb_prop in Hws as [-> Hws]. by rewrite IH.
Qed.

Lemma first_match_map_inv {A} (f : A -> option nat) (l : list A) (e : nat) :
  first_match (map f l) = Some e -> exists k, k ∈ l /\ f k = Some e.
Proof.
  induction l as [|k l IH]; simpl; [done|].
  destruct (f k) as [e'|] eqn:Hk.
  - intros [= ->]. exists k. split; [apply list_elem_of_here | done].
  - intros (k' & Hk' & He)%IH. exists k'. split; [by apply list_elem_of_further | done].
Qed.

Lemma word_alt_inv (w s : jsstring) (i e : nat) :
  word_alt w s i = Some e -> ci_prefix w (drop i s) = true /\ e = i + length w.
Proof.
  unfold word_alt, ci_prefix_at.
  destruct (ci_prefix w (drop i s)); simpl; [|done].
  destruct (word_boundary s (i + length w)); [|done]. by intros [= <-].
Qed.

(** What a match of the product-name pattern consists of. *)
Lemma cougarRegex_inv (s : jsstring) (j ej : nat) :
  cougarRegex s j = Some ej ->
  exists k, ej = j + 6 + k + 3
            /\ ci_prefix (lit "cougar") (drop j s) = true
            /\ k <= space_run (drop (j + 6) s)
            /\ ci_prefix (lit "web") (drop (j + 6 + k) s) = true.
Proof.
  unfold cougarRegex. destruct (word_boundary s j); [|done].
  destruct (cougar_space_web s j) as [e'|] eqn:Halt; cbn [first_match].
  - intros [= ->]. unfold cougar_space_web in Halt.
    destruct (ci_prefix_at (lit "cougar") s j) eqn:Hc; [|done].
    apply first_match_map_inv in Halt as (k & Hk & Hw).
    apply elem_of_reverse, elem_of_seq in Hk.
    apply word_alt_inv in Hw as [Hw ->].
    exists k. split; [done|]. split; [done|]. split; [lia | done].
  - destruct (word_alt (lit "cougarweb") s j) as [e'|] eqn:Hw; [|done].
    intros [= ->]. apply word_alt_inv in Hw as [Hw ->].
    exists 0. split; [simpl; lia|]. split; [|split; [lia|]].
    + by apply (ci_prefix_app (lit "cougar") (lit "web")).
    + apply (ci_prefix_app_r (lit "cougar") (lit "web")) in Hw.
      rewrite drop_drop in Hw. by rewrite Nat.add_0_r.
Qed.

(** Matches of the product-name pattern do not overlap: the letter that
    opens a match occurs nowhere else in it. *)
Lemma cougar_no_overlap (s : jsstring) (j ej i e : nat) :
  cougarRegex s j = Some ej -> cougarRegex s i = Some e -> j < i -> ej <= i.
Proof.
  intros Hj Hi Hlt.
  destruct (cougarRegex_inv s j ej Hj) as (k & -> & Hc & Hk & Hw).
  destruct (cougarRegex_inv s i e Hi) as (_ & _ & Hci & _).
  destruct (ci_prefix_lookup _ _ 0 "c"%char Hci eq_refl) as (x & Hx & Hcx).
  rewrite lookup_drop, Nat.add_0_r in Hx.
  destruct (decide (j + 6 + k + 3 <= i)) as [|Hin]; [done|]. exfalso.
  assert (x = "c"%char \/ x = "C"%char) as Hxc by by apply ci_c_inv.
  assert (forall p d a, ci_prefix p (drop (i - d) s) = true -> d <= i ->
                         p !! d = Some a -> ci_eqb a x = true) as Hat.
  { intros p d a Hp Hd Ha.
    destruct (ci_prefix_lookup _ _ d a Hp Ha) as (y & Hy & Hay).
    rewrite lookup_drop in Hy. replace (i - d + d) with i in Hy by lia. congruence. }
  destruct (decide (i < j + 6)) as [H6|H6].
  - replace j with (i - (i - j)) in Hc by lia.
    assert (exists a, lit "cougar" !! (i - j) = Some a /\ a <> "c"%char
                      /\ ci_eqb a "c"%char = false /\ ci_eqb a "C"%char = false)
      as (a & Ha & _ & Hn1 & Hn2).
    { destruct (i - j) as [|[|[|[|[|[|d]]]]]] eqn:Hd; try lia; by eexists. }
    specialize (Hat _ _ a Hc ltac:(lia) Ha). destruct Hxc as [-> | ->]; congruence.
  - destruct (decide (i < j + 6 + k)) as [Hk6|Hk6].
    + destruct (space_run_lookup (drop (j + 6) s) (i - (j + 6)) ltac:(lia))
        as (y & Hy & Hsp).
      rewrite lookup_drop in Hy. replace (j + 6 + (i - (j + 6))) with i in Hy by lia.
      assert (y = x) as -> by congruence.
      destruct Hxc as [-> | ->]; by vm_compute in Hsp.
    + replace (j + 6 + k) with (i - (i - (j + 6 + k))) in Hw by lia.
      assert (exists a, lit "web" !! (i - (j + 6 + k)) = Some a
                        /\ ci_eqb a "c"%char = false /\ ci_eqb a "C"%char = false)
        as (a & Ha & Hn1 & Hn2).
      { destruct (i - (j + 6 + k)) as [|[|[|d]]] eqn:Hd; try lia; by eexists. }
      specialize (Hat _ _ a Hw ltac:(lia) Ha). destruct Hxc as [-> | ->]; congruence.
Qed.

(** The loop of a global pattern reports every match that no earlier
    match runs into. *)
Lemma exec_from_finds (re : matcher) (s : jsstring) (i e : nat) :
  re s i = Some e ->
  (forall j ej, j < i -> re s j = Some ej -> ej <= i) ->
  forall fuel pos skip,
    pos + skip <= i -> i < pos + fuel -> (i, e) ∈ exec_from re s fuel pos skip.
Proof.
  intros Hre Hfree fuel. induction fuel as [|fuel IH]; intros pos skip Hle Hlt; [lia|].
  simpl. destruct skip as [|k]; [|apply IH; lia].
  destruct (decide (pos = i)) as [->|Hne].
  - rewrite Hre. apply list_elem_of_here.
  - destruct (re s pos) as [e'|] eqn:Hpos.
    + apply list_elem_of_further. specialize (Hfree pos e' ltac:(lia) Hpos).
      apply IH; lia.
    + apply IH; lia.
Qed.

Lemma cougar_match_reported (s : jsstring) (i e : nat) :
  cougarRegex s i = Some e -> (i, e) ∈ exec_all cougarRegex s.
Proof.
  intros Hi. apply exec_from_finds; [done| |lia|].
  - intros j ej Hlt Hj. by apply (cougar_no_overlap s j ej i e).
  - destruct (cougarRegex_inv s i e Hi) as (_ & _ & Hc & _).
    destruct (ci_prefix_lookup _ _ 0 "c"%char Hc eq_refl) as (x & Hx & _).
    rewrite lookup_drop, Nat.add_0_r in Hx. apply lookup_lt_Some in Hx. lia.
Qed.

Lemma ci_equal_inv (v p : jsstring) :
  ci_equal v p = true -> length v = length p /\ ci_prefix p v = true.
Proof.
  unfold ci_equal. intros [Hp Hl]%andb_prop. by apply Nat.eqb_eq in Hl.
Qed.

(** A free-standing spelling of the product name, in any case and with any
    white space between its two parts, is a match of the pattern. *)
Lemma cougar_variant_matches (pre c ws w post : jsstring) :
  ci_equal c (lit "cougar") = true -> forallb is_space ws = true ->
  ci_equal w (lit "web") = true ->
  ends_in_word pre = false -> starts_with_word post = false ->
  cougarRegex (pre ++ (c ++ ws ++ w) ++ post) (length pre)
  = Some (length pre + length (c ++ ws ++ w)).
Proof.
  intros [Hlc Hc]%ci_equal_inv Hws [Hlw Hw]%ci_equal_inv Hpre Hpost.
  destruct c as [|c1 [|c2 [|c3 [|c4 [|c5 [|c6 [|]]]]]]]; try done. clear Hlc.
  destruct w as [|w1 [|w2 [|w3 [|]]]]; try done. clear Hlw.
  set (c := [c1; c2; c3; c4; c5; c6]) in *. set (w := [w1; w2; w3]) in *.
  set (rest := (c ++ ws ++ w) ++ post). set (text := pre ++ rest).
  assert (ci_eqb "c"%char c1 = true) as Hc1 by by apply andb_prop in Hc as [? _].
  assert (ci_eqb "w"%char w1 = true) as Hw1 by by apply andb_prop in Hw as [? _].
  assert (ci_eqb "b"%char w3 = true) as Hw3.
  { simpl in Hw. by repeat (apply andb_prop in Hw as [? Hw]). }
  assert (rest = (c ++ ws) ++ w ++ post) as Hrest
      by (unfold rest; by rewrite <- !(assoc_L (++))).
  assert (length (c ++ ws) = 6 + length ws) as Hlen by by rewrite length_app.
  assert (word_boundary text (length pre) = true) as Hb0.
  { unfold word_boundary, text. rewrite word_before_app_0, Hpre.
    rewrite <- (Nat.add_0_r (length pre)), word_at_app. unfold word_at. simpl.
    by destruct (ci_c_inv _ Hc1) as [-> | ->]. }
  assert (ci_prefix_at (lit "cougar") text (length pre) = true) as Hcp.
  { unfold text. rewrite <- (Nat.add_0_r (length pre)), ci_prefix_at_app.
    unfold ci_prefix_at, rest. rewrite <- (assoc_L (++)).
    exact (ci_prefix_extend (lit "cougar") c (ws ++ w ++ post) Hc). }
  assert (space_run (drop (length pre + 6) text) = length ws) as Hrun.
  { unfold text. rewrite drop_app_add'; [|done]. rewrite Hrest.
    rewrite <- (assoc_L (++)). simpl drop. apply space_run_app; [done|].
    simpl. by destruct (ci_w_inv _ Hw1) as [-> | ->]. }
  assert (word_alt (lit "web") text (length pre + 6 + length ws)
          = Some (length pre + 6 + length ws + 3)) as Hweb.
  { unfold word_alt, word_boundary, text. rewrite Hrest.
    remember (c ++ ws) as A eqn:HA.
    replace (length pre + 6 + length ws) with (length pre + (length A + 0)) by lia.
    rewrite !ci_prefix_at_app.
    assert (ci_prefix_at (lit "web") (w ++ post) 0 = true) as ->
        by exact (ci_prefix_extend (lit "web") w post Hw).
    change (length (lit "web")) with 3.
    replace (length pre + (length A + 0) + 3)
      with (length pre + S (length A + 2)) by lia.
    rewrite word_before_app_S, word_at_app.
    replace (S (length A + 2)) with (length A + S 2) by lia.
    rewrite word_before_app_S, word_at_app.
    unfold word_at. simpl.
    assert (is_word w3 = true) as -> by by destruct (ci_b_inv _ Hw3) as [-> | ->].
    unfold starts_with_word in Hpost. destruct post as [|p0 post]; simpl; [done|].
    by rewrite Hpost. }
  unfold cougarRegex, cougar_space_web. rewrite Hb0, Hcp, Hrun.
  rewrite seq_S, reverse_app. cbn [reverse map app first_match rev_append].
  rewrite Nat.add_0_l, Hweb. f_equal. rewrite !length_app. simpl. lia.
Qed.

(** C5 (as amended).  Every direct match of the product-name pattern whose
    context window, with white space collapsed and trimmed, is longer than
    20 characters is represented in the result: the detector returns an
    entry that carries exactly that snippet (the entry of an earlier match
    when the snippet text is the same).  This holds in particular of every
    free-standing occurrence of "cougar", any white space, "web", in any
    mix of upper and lower case. *)
Theorem direct_match_yields_snippet :
  (forall (html text : jsstring) (i e : nat),
      (i, e) ∈ exec_all cougarRegex text ->
      20 < length (cougar_snippet text i) ->
      exists r, (r ∈ findLegacySnippets html text)
                /\ snippet r = cougar_snippet text i)
  /\ (forall (html pre c ws w post : jsstring),
         ci_equal c (lit "cougar") = true -> forallb is_space ws = true ->
         ci_equal w (lit "web") = true ->
         ends_in_word pre = false -> starts_with_word post = false ->
         let text := pre ++ (c ++ ws ++ w) ++ post in
         20 < length (cougar_snippet text (length pre)) ->
         exists r, (r ∈ findLegacySnippets html text)
                   /\ snippet r = cougar_snippet text (length pre)).
Proof.
  assert (forall (html text : jsstring) (i e : nat),
             (i, e) ∈ exec_all cougarRegex text ->
             20 < length (cougar_snippet text i) ->
             exists r, (r ∈ findLegacySnippets html text)
                       /\ snippet r = cougar_snippet text i) as Hloop.
  { intros html text i e Hm Hlen. unfold findLegacySnippets.
    destruct (cougar_loop_holds text _ [] (i, e) Hm Hlen) as (r & Hr & Hsnip).
    exists r. split; [|done]. by apply colleague_loop_keeps. }
  split; [exact Hloop|].
  intros html pre c ws w post Hc Hws Hw Hpre Hpost text Hlen.
  apply (Hloop html text (length pre) (length pre + length (c ++ ws ++ w)));
    [|done].
  apply cougar_match_reported. by apply cougar_variant_matches.
Qed.

Lemma direct_match_yields_snippet_witness :
  let pre := lit "Please visit the " in
  let post := lit " portal to see your grades." in
  let text := pre ++ (lit "Cougar" ++ lit " " ++ lit "Web") ++ post in
  (ci_equal (lit "Cougar") (lit "cougar") = true
   /\ forallb is_space (lit " ") = true
   /\ ci_equal (lit "Web") (lit "web") = true
   /\ ends_in_word pre = false /\ starts_with_word post = false
   /\ 20 < length (cougar_snippet text (length pre)))
  /\ exists r, (r ∈ findLegacySnippets [] text)
               /\ snippet r = cougar_snippet text (length pre).
Proof.
  intros pre post text.
  assert (20 < length (cougar_snippet text (length pre))) as Hlen.
  { vm_compute. lia. }
  split; [by repeat split|].
  exact (proj2 direct_match_yields_snippet [] pre (lit "Cougar") (lit " ")
           (lit "Web") post eq_refl eq_refl eq_refl eq_refl eq_refl Hlen).
Defined.

(** C5 as stated fails: a page whose whole text is "Visit CougarWeb"
    contains a direct match, and the detector returns no snippet, since the
    context is not longer than 20 characters. *)
Lemma short_page_has_no_snippet :
  exec_all cougarRegex (lit "Visit CougarWeb") = [(6, 15)]
  /\ findLegacySnippets [] (lit "Visit CougarWeb") = [].
Proof. split; by vm_compute. Qed.

(** C3.  (1) An occurrence of "colleague" whose window fails the vocabulary
    test yields no entry: no result carries its index.  (2) On a page with
    no direct match and a single occurrence of "colleague" whose window
    contains "student records system", the phrase standing free on at least
    one side, the detector returns exactly one entry, the one of that
    occurrence. *)
Theorem colleague_disambiguation :
  (forall (html text : jsstring) (i e : nat),
      (i, e) ∈ exec_all colleagueRegex text ->
      test COLLEGUE_SYSTEM_WORDS (colleague_window text i) = false ->
      forall r, r ∈ findLegacySnippets html text -> offset r <> i)
  /\ (forall (html text pre post : jsstring) (i e : nat),
         exec_all cougarRegex text = [] ->
         exec_all colleagueRegex text = [(i, e)] ->
         colleague_window text i = pre ++ lit "student records system" ++ post ->
         ends_in_word pre = false \/ starts_with_word post = false ->
         exists r, findLegacySnippets html text = [r] /\ offset r = i).
Proof.
  split.
  - intros html text i e Hm Htest r Hr Hoff. unfold findLegacySnippets in Hr.
    apply colleague_loop_origin in Hr as [Hr|(m & Hm' & Hoff' & Htest')].
    + apply cougar_loop_origin in Hr as [Hr|([j e'] & Hj & Hoff')];
        [by apply elem_of_nil in Hr|].
      simpl in Hoff'. rewrite Hoff in Hoff'. subst j.
      apply exec_all_match in Hm, Hj.
      exact (cougar_not_colleague _ (cougarRegex_prefix _ _ _ Hj)
                                  (colleagueRegex_prefix _ _ _ Hm)).
    + rewrite <- Hoff', Hoff in Htest'. congruence.
  - intros html text pre post i e Hcougar Hcolleague Hwin Hfree.
    unfold findLegacySnippets. rewrite Hcougar, Hcolleague. simpl.
    unfold colleague_body. simpl. rewrite Hwin.
    rewrite (vocabulary_hit pre post Hfree).
    unfold push_snippet.
    pose proof (phrase_snippet_length pre post) as Hlen.
    apply Nat.ltb_lt in Hlen. rewrite Hlen. simpl. eauto.
Qed.

Lemma colleague_disambiguation_witness :
  let plain := lit "Please consult your colleague about the holiday party plans." in
  let system := lit "Log in to Colleague, the student records system, to register." in
  (forall r, r ∈ findLegacySnippets [] plain -> offset r <> 20)
  /\ (exists r, findLegacySnippets [] system = [r] /\ offset r = 10).
Proof.
  intros plain system. split.
  - apply (proj1 colleague_disambiguation [] plain 20 29).
    + vm_compute. apply list_elem_of_here.
    + by vm_compute.
  - apply (proj2 colleague_disambiguation [] system
             (lit "Log in to Colleague, the ") (lit ", to register.") 10 19).
    + by vm_compute.
    + by vm_compute.
    + by vm_compute.
    + left. by vm_compute.
Defined.

End DetectorFacts.

(** ** The classifier and the analyze handler *)

Module AnalyzeFacts.

Import Analyze.

Section Route.

Variable stripMarkup : jsstring -> jsstring.
Variable titleMatch : jsstring -> option jsstring.
Variable JSON_parse : jsstring -> Completion (list (jsstring * JSValue)).
Variable network : nat -> jsstring -> Network.
Variable chatCompletion : nat -> Prompt -> Completion jsstring.

Local Abbreviation fetchPageContent := (fetchPageContent stripMarkup titleMatch network).
Local Abbreviation analyzeSnippet := (analyzeSnippet JSON_parse chatCompletion).
Local Abbreviation analyzeSnippets := (analyzeSnippets JSON_parse chatCompletion).
Local Abbreviation analyzeUrls :=
  (analyzeUrls stripMarkup titleMatch JSON_parse network chatCompletion).
Local Abbreviation POST := (POST stripMarkup titleMatch JSON_parse network chatCompletion).

Lemma fetchPageContent_total k u : exists r, fetchPageContent k u = Normal r.
Proof.
  unfold Analyze.fetchPageContent.
  destruct (axios_get _ (network k u)) as [data|e]; simpl; [|by eexists].
  destruct (negb (data_truthy data)); by eexists.
Qed.

Lemma analyzeSnippet_total k prompt snip :
  exists f, analyzeSnippet k prompt snip = Normal f.
Proof.
  unfold Analyze.analyzeSnippet.
  destruct (chatCompletion k prompt) as [response|e]; simpl; [|by eexists].
  destruct (match_braces response) as [jsonMatch|]; simpl; [|by eexists].
  destruct (JSON_parse jsonMatch); simpl; by eexists.
Qed.

(** The inner loop pushes one finding for each snippet. *)
Lemma analyzeSnippets_spec body snippets calls found :
  exists fs calls',
    analyzeSnippets body calls snippets found = Normal (found ++ fs, calls')
    /\ length fs = length snippets.
Proof.
  revert calls found. induction snippets as [|s rest IH]; intros calls found; simpl.
  - exists [], calls. by rewrite (right_id_L [] (++)).
  - destruct (analyzeSnippet_total calls (make_prompt body (snippet s)) (snippet s))
      as [f ->]. simpl.
    destruct (IH (S calls) (found ++ [f])) as (fs & calls' & -> & Hlen).
    exists (f :: fs), calls'. rewrite <- (assoc_L (++)). simpl. by rewrite Hlen.
Qed.

(** The outer loop: one result for each URL, in order; results are
    consistent; a failed fetch gives the empty result. *)
Lemma analyzeUrls_spec body todo page calls results :
  exists rs,
    analyzeUrls body page calls todo results = Normal (results ++ rs)
    /\ map url rs = todo
    /\ Forall consistent rs
    /\ (forall j u, todo !! j = Some u ->
                    fetchPageContent (page + j) u = Normal None ->
                    rs !! j = Some (mkResult u [] false [])).
Proof.
  revert page calls results.
  induction todo as [|u rest IH]; intros page calls results; simpl.
  - exists []. rewrite (right_id_L [] (++)). repeat split; [constructor | done].
  - assert (forall r calls',
               consistent r -> url r = u ->
               (fetchPageContent page u = Normal None -> r = mkResult u [] false []) ->
               exists rs,
                 analyzeUrls body (S page) calls' rest (results ++ [r])
                 = Normal (results ++ rs)
                 /\ map url rs = u :: rest /\ Forall consistent rs
                 /\ (forall j u', (u :: rest) !! j = Some u' ->
                                  fetchPageContent (page + j) u' = Normal None ->
                                  rs !! j = Some (mkResult u' [] false []))) as Hnext.
    { intros r calls' Hr Hu Hfail.
      destruct (IH (S page) calls' (results ++ [r])) as (rs & -> & Hmap & Hall & Hrs).
      exists (r :: rs). rewrite <- (assoc_L (++)). simpl.
      repeat split; [by rewrite Hu, Hmap | by constructor |].
      intros [|j] u'; simpl.
      - intros [= <-]. rewrite Nat.add_0_r. intros Hf. by rewrite (Hfail Hf).
      - intros Hj Hf. apply Hrs; [done|]. by rewrite Nat.add_succ_comm. }
    destruct (fetchPageContent_total page u) as [[content|] Hfetch];
      rewrite Hfetch; simpl.
    + destruct (findLegacySnippets (html content) (text content)) as [|s ss] eqn:Hs.
      * simpl. apply Hnext; [done | done | congruence].
      * simpl length. simpl Nat.eqb. cbv iota.
        destruct (analyzeSnippets_spec body (s :: ss) calls [])
          as (fs & calls' & -> & Hlen). simpl.
        apply Hnext; [|done|congruence].
        split; simpl; [|done]. intros ->. done.
    + apply Hnext; done.
Qed.

(** C6.  In every result the analyze handler returns, the list of findings
    is empty exactly when [hasLegacyReferences] is false. *)
Theorem findings_iff_flag (body : Body) :
  match POST body with
  | Success results =>
      Forall (fun r => findings r = [] <-> hasLegacyReferences r = false) results
  | Failure _ _ => True
  end.
Proof.
  unfold Analyze.POST. destruct (urls body) as [[|u us]|]; [done| |done].
  destruct (500 <? length (u :: us)); [done|].
  destruct (analyzeUrls_spec body (u :: us) 0 0 []) as (rs & -> & _ & Hall & _).
  exact Hall.
Qed.

(** C10.  For a list of [n] URLs, [1 <= n <= 500], the handler succeeds
    with [n] results, the [k]-th one for the [k]-th URL; where the fetch
    of a page fails, the result has an empty title, no legacy reference and
    no finding. *)
Theorem one_result_per_url (body : Body) (us : list jsstring) :
  urls body = Some us -> us <> [] -> length us <= 500 ->
  exists results,
    POST body = Success results
    /\ length results = length us
    /\ map url results = us
    /\ (forall k u, us !! k = Some u ->
                    fetchPageContent k u = Normal None ->
                    results !! k = Some (mkResult u [] false [])).
Proof.
  intros Hurls Hne Hlen. unfold Analyze.POST. rewrite Hurls.
  destruct us as [|u us]; [done|].
  assert ((500 <? length (u :: us)) = false) as -> by (apply Nat.ltb_ge; lia).
  destruct (analyzeUrls_spec body (u :: us) 0 0 []) as (rs & -> & Hmap & _ & Hfail).
  exists rs. repeat split; [|done|exact Hfail].
  by rewrite <- Hmap, length_map.
Qed.

(** C4 (as amended).  When the completion call throws, or its response
    holds no brace-delimited object, or [JSON.parse] rejects that object,
    the snippet still gets a finding, with confidence [low] and a textual
    note; nothing is thrown.  The note is the text "AI response could not
    be parsed" when the response holds no object, the message of the
    thrown [Error] when one is thrown, and the text "Analysis failed" when
    something else is thrown; it is not empty whenever a thrown [Error]
    has a message that is not. *)
Theorem failed_completion_finding (k : nat) (prompt : Prompt) (snip : jsstring)
        (cause : Cause) :
  failure_cause JSON_parse (chatCompletion k prompt) = Some cause ->
  exists f note,
    analyzeSnippet k prompt snip = Normal f
    /\ confidence f = low
    /\ notes f = VString note
    /\ note = match cause with
              | NoObject => lit "AI response could not be parsed"
              | Raised (ErrorObject message) => message
              | Raised OtherThrown => lit "Analysis failed"
              end
    /\ (has_message cause -> note <> []).
Proof.
  unfold failure_cause, Analyze.analyzeSnippet.
  destruct (chatCompletion k prompt) as [response|e]; simpl.
  - destruct (match_braces response) as [jsonMatch|]; simpl.
    + destruct (JSON_parse jsonMatch) as [parsed|e]; simpl; [done|].
      intros [= <-]. eexists _, _. repeat split; by destruct e.
    + intros [= <-]. eexists _, _. by repeat split.
  - intros [= <-]. eexists _, _. repeat split; by destruct e.
Qed.

End Route.

Lemma failed_completion_finding_witness :
  let chat := fun (_ : nat) (_ : Prompt) => Normal (lit "I cannot help with that.") in
  let parse := fun _ : jsstring => Normal [] in
  failure_cause parse (chat 0 Sample.sample_prompt) = Some NoObject
  /\ exists f note,
      analyzeSnippet parse chat 0 Sample.sample_prompt (prompt_snippet Sample.sample_prompt) = Normal f
      /\ confidence f = low /\ notes f = VString note
      /\ note = lit "AI response could not be parsed"
      /\ (has_message NoObject -> note <> []).
Proof.
  intros chat parse. split; [reflexivity|].
  exact (failed_completion_finding parse chat 0 Sample.sample_prompt
           (prompt_snippet Sample.sample_prompt) NoObject eq_refl).
Defined.

(** C4 as stated fails: when the completion call rejects with an [Error]
    whose message is empty, the finding has confidence [low] and an empty
    note. *)
Lemma empty_message_gives_empty_note :
  let chat := fun (_ : nat) (_ : Prompt) => Throw (ErrorObject []) in
  let parse := fun _ : jsstring => Normal [] in
  exists f,
    analyzeSnippet parse chat 0 Sample.sample_prompt (prompt_snippet Sample.sample_prompt) = Normal f
    /\ confidence f = low /\ notes f = VString [].
Proof. eexists. by repeat split. Qed.

Lemma one_result_per_url_witness :
  let body := mkBody (Some [lit "https://example.edu"; lit "https://example.edu/a"])
                     [] [] in
  let us := [lit "https://example.edu"; lit "https://example.edu/a"] in
  urls body = Some us /\ us <> [] /\ length us <= 500
  /\ exists results,
      POST id (fun _ => None) (fun _ => Normal []) Sample.unreachable
           (fun _ _ => Normal []) body = Success results
      /\ length results = length us
      /\ map url results = us
      /\ (forall k u, us !! k = Some u ->
                      fetchPageContent id (fun _ => None) Sample.unreachable k u
                      = Normal None ->
                      results !! k = Some (mkResult u [] false [])).
Proof.
  intros body us.
  assert (us <> []) as Hne by done.
  assert (length us <= 500) as Hlen by (simpl; lia).
  split; [reflexivity|]. split; [exact Hne|]. split; [exact Hlen|].
  exact (one_result_per_url id (fun _ => None) (fun _ => Normal []) Sample.unreachable
           (fun _ _ => Normal []) body us eq_refl Hne Hlen).
Defined.

End AnalyzeFacts.

(** ** The two fetchers *)

Module FetchFacts.

(** C8 (as amended).  Neither fetcher throws.  [fetchPage] of the crawler
    returns the payload of a response with a 2xx status and nothing for a
    network error, a timeout or any other status.  [fetchPageContent] of
    the analyzer returns content exactly for a response with a status
    below 500 and a payload that is not empty; network errors, timeouts
    and statuses from 500 on give nothing. *)
Theorem fetchers_contain_failures :
  (forall (network : nat -> jsstring -> Network) (k : nat) (u : jsstring),
      Scan.fetchPage network k u
      = Normal (match network k u with
                | Responded status data =>
                    if status_2xx status then Some data else None
                | NetworkError _ | Timeout => None
                end))
  /\ (forall stripMarkup titleMatch (network : nat -> jsstring -> Network)
             (k : nat) (u : jsstring),
         exists r,
           Analyze.fetchPageContent stripMarkup titleMatch network k u = Normal r
           /\ (is_Some r <->
               exists status data,
                 network k u = Responded status data
                 /\ (status < 500)%Z /\ data_truthy data = true)).
Proof.
  split.
  - intros network k u. unfold Scan.fetchPage.
    destruct (network k u) as [msg| |status data]; simpl; [done|done|].
    by destruct (status_2xx status).
  - intros stripMarkup titleMatch network k u. unfold Analyze.fetchPageContent.
    destruct (network k u) as [msg| |status data]; simpl.
    + exists None. split; [done|]. split; [by intros [? ?] | by intros (? & ? & ? & _)].
    + exists None. split; [done|]. split; [by intros [? ?] | by intros (? & ? & ? & _)].
    + destruct (status <? 500)%Z eqn:Hst; simpl.
      * destruct (data_truthy data) eqn:Hd; simpl.
        -- eexists. split; [done|]. split; [|by eexists].
           intros _. exists status, data. by apply Z.ltb_lt in Hst.
        -- exists None. split; [done|]. split; [by intros [? ?]|].
           intros (? & ? & [= <- <-] & _ & ?). congruence.
      * exists None. split; [done|]. split; [by intros [? ?]|].
        intros (? & ? & [= <- <-] & ? & _). apply Z.ltb_ge in Hst. lia.
Qed.

(** C8 as stated fails for the analyzer: a 404 response that carries a
    body is not a success status, and its body is returned as content. *)
Lemma not_found_page_is_content :
  status_2xx 404 = false
  /\ exists page,
      Analyze.fetchPageContent id (fun _ => None)
        (fun _ _ => Responded 404 (TextData (lit "<h1>Not Found</h1>")))
        0 (lit "https://example.edu/missing")
      = Normal (Some page).
Proof. split; [done|]. by eexists. Qed.

End FetchFacts.

(** ** Canonical forms *)

Module UrlFacts.

Lemma strip_slash_snoc (h : jsstring) : strip_slash (h ++ ["/"%char]) = h.
Proof.
  unfold strip_slash. rewrite reverse_snoc.
  rewrite bool_decide_eq_true_2 by done. apply reverse_involutive.
Qed.

Lemma strip_slash_id (s : jsstring) : last s <> Some "/"%char -> strip_slash s = s.
Proof.
  intros Hlast. unfold strip_slash.
  destruct s as [|c s] using rev_ind; [done|].
  rewrite reverse_snoc. rewrite last_snoc in Hlast.
  rewrite bool_decide_eq_false_2; [done | congruence].
Qed.

Lemma strip_slash_cases (s : jsstring) :
  (exists h, s = h ++ ["/"%char] /\ strip_slash s = h)
  \/ (last s <> Some "/"%char /\ strip_slash s = s).
Proof.
  destruct (decide (last s = Some "/"%char)) as [Hlast|Hlast].
  - left. destruct s as [|c s _] using rev_ind; [done|].
    rewrite last_snoc in Hlast. injection Hlast as ->.
    exists s. by rewrite strip_slash_snoc.
  - right. by rewrite strip_slash_id.
Qed.

Lemma href_clear_hash (u : URL) : href (clear_hash u) = serialized u.
Proof. unfold href. simpl. apply (right_id_L [] (++)). Qed.

Lemma startsWith_with_scheme (u : jsstring) :
  startsWith (with_scheme u) (lit "http") = true.
Proof. unfold with_scheme. by destruct (startsWith u (lit "http")) eqn:H. Qed.

Lemma startsWith_http_strip_slash (s : jsstring) :
  startsWith s (lit "http") = true -> startsWith (strip_slash s) (lit "http") = true.
Proof.
  intros Hs. destruct (strip_slash_cases s) as [(h & -> & ->)|[_ ->]]; [|done].
  destruct h as [|c1 [|c2 [|c3 [|c4 h]]]]; simpl in *;
    repeat (case_bool_decide; simpl in *); try done; by destruct h.
Qed.

Section Canon.

Variable parse : jsstring -> option URL.

Lemma normalizeUrl_parsed (x : jsstring) (u : URL) :
  parse x = Some u -> normalizeUrl parse x = Some (strip_slash (serialized u)).
Proof. intros H. unfold normalizeUrl. rewrite H. simpl. by rewrite href_clear_hash. Qed.

Hypothesis Hre : reparses parse.
Hypothesis Hsl : slash_stable parse.

Lemma normalizeUrl_drop_slash (x : jsstring) (u : URL) (h : jsstring) :
  parse x = Some u -> serialized u = h ++ ["/"%char] -> last h <> Some "/"%char ->
  normalizeUrl parse h = Some h.
Proof.
  intros Hx Hser Hlast.
  destruct (Hsl x u h Hx Hser Hlast) as (v & Hv & [Hs|Hs]);
    rewrite (normalizeUrl_parsed h v Hv), Hs.
  - by rewrite strip_slash_id.
  - by rewrite strip_slash_snoc.
Qed.

Lemma normalizeUrl_serialized (x : jsstring) (u : URL) :
  parse x = Some u ->
  normalizeUrl parse (serialized u) = Some (strip_slash (serialized u)).
Proof.
  intros Hx. destruct (Hre x u Hx) as [_ Hser].
  by rewrite (normalizeUrl_parsed _ _ Hser).
Qed.

Lemma normalizeUrl_fixed (x : jsstring) (u : URL) :
  parse x = Some u ->
  last (strip_slash (serialized u)) <> Some "/"%char ->
  normalizeUrl parse (strip_slash (serialized u))
  = Some (strip_slash (serialized u)).
Proof.
  intros Hx Hlast.
  destruct (strip_slash_cases (serialized u)) as [(h & Hser & Hstrip)|[_ Hstrip]];
    rewrite Hstrip in *.
  - by apply (normalizeUrl_drop_slash x u).
  - rewrite (normalizeUrl_serialized x u Hx). by rewrite Hstrip.
Qed.

Hypothesis Hhttp : keeps_http parse.

Lemma normalizeUrlForCompare_fixed (x : jsstring) :
  last (normalizeUrlForCompare parse x) <> Some "/"%char ->
  normalizeUrlForCompare parse (normalizeUrlForCompare parse x)
  = normalizeUrlForCompare parse x.
Proof.
  intros Hlast. destruct (parse (with_scheme x)) as [obj|] eqn:Hobj.
  - assert (normalizeUrlForCompare parse x = strip_slash (serialized obj)) as Hc.
    { unfold normalizeUrlForCompare. by rewrite Hobj, href_clear_hash. }
    rewrite Hc in *.
    pose proof (normalizeUrl_fixed (with_scheme x) obj Hobj Hlast) as Hfix.
    unfold normalizeUrlForCompare, with_scheme.
    rewrite (startsWith_http_strip_slash _
               (Hhttp _ _ Hobj (startsWith_with_scheme x))).
    unfold normalizeUrl in Hfix.
    destruct (parse (strip_slash (serialized obj))) as [v|]; [|done].
    simpl in Hfix. by injection Hfix.
  - assert (normalizeUrlForCompare parse x = x) as Hc.
    { unfold normalizeUrlForCompare. by rewrite Hobj. }
    by rewrite !Hc.
Qed.


End Canon.

End UrlFacts.

(** ** The sample parser meets what is asked of the platform parser *)

Module SampleFacts.

Import Sample.

Lemma split_at_absent (c : ascii) (a : jsstring) (o : option jsstring) :
  c ∉ a -> split_at c (a ++ suffix_part c o) = (a, o).
Proof.
  induction a as [|x a IH]; simpl; intros Hc.
  - destruct o; simpl; [by rewrite bool_decide_eq_true_2 | done].
  - apply not_elem_of_cons in Hc as [Hx Ha].
    rewrite bool_decide_eq_false_2 by congruence. by rewrite IH.
Qed.

Lemma split_at_inv (c : ascii) (s p : jsstring) (o : option jsstring) :
  split_at c s = (p, o) -> (c ∉ p) /\ s = p ++ suffix_part c o.
Proof.
  revert p. induction s as [|x s IH]; simpl; intros p.
  - intros [= <- <-]. split; [apply not_elem_of_nil | done].
  - case_bool_decide as Hx.
    + intros [= <- <-]. subst. split; [apply not_elem_of_nil | done].
    + destruct (split_at c s) as [p' o'] eqn:E. intros [= <- <-].
      destruct (IH p' eq_refl) as [Hp ->].
      split; [|done]. apply not_elem_of_cons. split; [congruence | done].
Qed.

Lemma class_excludes (P : ascii -> bool) (c : ascii) (s : jsstring) :
  P c = false -> forallb P s = true -> c ∉ s.
Proof.
  intros Hc Hs Hin. apply list_elem_of_In in Hin. rewrite forallb_forall in Hs.
  specialize (Hs _ Hin). congruence.
Qed.

Lemma labels_host_char (flag : bool) (h : jsstring) :
  labels flag h = true -> forallb host_char h = true.
Proof.
  revert flag. induction h as [|c h IH]; simpl; intros flag; [done|].
  unfold host_char at 1. destruct (is_lower c); simpl; [by apply IH|].
  intros [[-> _]%andb_prop Hh]%andb_prop. simpl. by apply (IH true).
Qed.

Lemma query_of_path (s : jsstring) :
  forallb path_char s = true -> forallb query_char s = true.
Proof.
  rewrite !forallb_forall. intros H c Hc. unfold query_char.
  by rewrite (H c Hc).
Qed.

Lemma startsWith_split (s p : jsstring) :
  startsWith s p = true -> s = p ++ drop (length p) s.
Proof.
  revert s. induction p as [|a p IH]; intros s; simpl; [done|].
  destruct s as [|c s]; [done|].
  intros [->%bool_decide_eq_true Hs]%andb_prop. simpl. f_equal. by apply IH.
Qed.

Lemma strip_scheme_inv (s scheme rest : jsstring) :
  strip_scheme s = Some (scheme, rest) ->
  web_scheme scheme /\ s = scheme ++ lit "//" ++ rest.
Proof.
  unfold strip_scheme.
  destruct (startsWith s (lit "https://")) eqn:E1.
  - intros [= <- <-]. split; [by left|]. by apply startsWith_split in E1.
  - destruct (startsWith s (lit "http://")) eqn:E2; [|done].
    intros [= <- <-]. split; [by right|]. by apply startsWith_split in E2.
Qed.

Lemma strip_scheme_build (scheme rest : jsstring) :
  web_scheme scheme -> strip_scheme (scheme ++ lit "//" ++ rest) = Some (scheme, rest).
Proof. intros [-> | ->]; reflexivity. Qed.

(** The address assembled from valid parts parses into these parts. *)
Lemma parse_parts (x scheme host : jsstring) (path query frag : option jsstring) :
  web_scheme scheme -> valid_host host = true -> all_of path_char path = true ->
  all_of query_char query = true -> all_of query_char frag = true ->
  x = scheme ++ lit "//"
      ++ ((host ++ suffix_part "/"%char path) ++ suffix_part "?"%char query)
      ++ suffix_part "#"%char frag ->
  parse x
  = Some {| protocol := scheme; hostname := host;
            serialized := scheme ++ lit "//" ++ host ++ "/"%char :: default [] path
                          ++ suffix_part "?"%char query;
            fragment := frag |}.
Proof.
  intros Hscheme Hhost Hp Hq Hf ->. unfold parse.
  rewrite (strip_scheme_build _ _ Hscheme). simpl.
  pose proof (labels_host_char _ _ Hhost) as Hhc.
  assert ("/"%char ∉ host) as H1 by by apply (class_excludes host_char).
  assert ("?"%char ∉ host ++ suffix_part "/"%char path) as H2.
  { rewrite not_elem_of_app. split; [by apply (class_excludes host_char)|].
    destruct path as [p|]; simpl; [|apply not_elem_of_nil].
    apply not_elem_of_cons. split; [done|]. by apply (class_excludes path_char). }
  assert ("#"%char ∉ (host ++ suffix_part "/"%char path) ++ suffix_part "?"%char query)
    as H3.
  { rewrite !not_elem_of_app. split; [split|].
    - by apply (class_excludes host_char).
    - destruct path as [p|]; simpl; [|apply not_elem_of_nil].
      apply not_elem_of_cons. split; [done|]. by apply (class_excludes path_char).
    - destruct query as [q|]; simpl; [|apply not_elem_of_nil].
      apply not_elem_of_cons. split; [done|]. by apply (class_excludes query_char). }
  rewrite (split_at_absent _ _ _ H3), (split_at_absent _ _ _ H2),
    (split_at_absent _ _ _ H1).
  by rewrite Hhost, Hp, Hq, Hf.
Qed.

(** What [parse] accepts is assembled from valid parts. *)
Lemma parse_inv (x : jsstring) (u : URL) :
  parse x = Some u ->
  exists scheme host path query,
    web_scheme scheme /\ valid_host host = true /\ all_of path_char path = true
    /\ all_of query_char query = true /\ all_of query_char (fragment u) = true
    /\ u = {| protocol := scheme; hostname := host;
              serialized := scheme ++ lit "//" ++ host ++ "/"%char :: default [] path
                            ++ suffix_part "?"%char query;
              fragment := fragment u |}.
Proof.
  unfold parse. destruct (strip_scheme x) as [[scheme rest]|] eqn:Hs; [|done].
  simpl. apply strip_scheme_inv in Hs as [Hscheme _].
  destruct (split_at "#"%char rest) as [body frag].
  destruct (split_at "?"%char body) as [authority_path query].
  destruct (split_at "/"%char authority_path) as [host path].
  destruct (valid_host host) eqn:Hhost; [|done].
  destruct (all_of path_char path) eqn:Hp; [|done].
  destruct (all_of query_char query) eqn:Hq; [|done].
  destruct (all_of query_char frag) eqn:Hf; [|done].
  simpl. intros [= <-]. by exists scheme, host, path, query.
Qed.

(** Lists in right-nested form. *)
Ltac list_nf :=
  repeat (progress (simpl; rewrite <- ?(assoc_L (++)), ?(right_id_L [] (++)))).

Lemma all_of_default (P : ascii -> bool) (o : option jsstring) :
  all_of P o = true -> all_of P (Some (default [] o)) = true.
Proof. by destruct o. Qed.

Lemma sample_reparses : reparses parse.
Proof.
  intros x u Hx.
  destruct (parse_inv x u Hx)
    as (scheme & host & path & query & Hs & Hh & Hp & Hq & Hf & Hu).
  destruct u as [pr hn ser fr]. simpl in *. injection Hu as -> -> ->.
  apply all_of_default in Hp. split.
  - rewrite (parse_parts _ scheme host (Some (default [] path)) query fr
               Hs Hh Hp Hq Hf); [done|].
    unfold href. destruct fr; by list_nf.
  - rewrite (parse_parts _ scheme host (Some (default [] path)) query None
               Hs Hh Hp Hq eq_refl); [done|].
    by list_nf.
Qed.

Lemma sample_keeps_http : keeps_http parse.
Proof.
  intros x u Hx _.
  destruct (parse_inv x u Hx) as (scheme & ? & ? & ? & [-> | ->] & _ & _ & _ & _ & ->);
    reflexivity.
Qed.

Lemma forallb_snoc_inv (P : ascii -> bool) (s : jsstring) (c : ascii) :
  forallb P (s ++ [c]) = true -> forallb P s = true.
Proof. rewrite forallb_app. by intros [? _]%andb_prop. Qed.

Lemma sample_slash_stable : slash_stable parse.
Proof.
  intros x u h Hx Hser Hlast.
  destruct (parse_inv x u Hx)
    as (scheme & host & path & query & Hs & Hh & Hp & Hq & _ & Hu).
  rewrite Hu in Hser. simpl in Hser. apply all_of_default in Hp. simpl in Hp.
  set (p := default [] path) in *. clearbody p. clear Hu Hx.
  destruct query as [q|]; simpl in Hser.
  - destruct q as [|c q _] using rev_ind.
    + assert ((scheme ++ lit "//" ++ host ++ "/"%char :: p) ++ ["?"%char]
              = h ++ ["/"%char]) as Heq by (rewrite <- Hser; by list_nf).
      by apply app_inj_tail in Heq as [_ [=]].
    + assert ((scheme ++ lit "//" ++ host ++ "/"%char :: p ++ "?"%char :: q) ++ [c]
              = h ++ ["/"%char]) as Heq by (rewrite <- Hser; by list_nf).
      apply app_inj_tail in Heq as [<- ->].
      simpl in Hq. apply forallb_snoc_inv in Hq.
      eexists. split.
      * apply (parse_parts _ scheme host (Some p) (Some q) None); try done.
        by list_nf.
      * left. by list_nf.
  - destruct p as [|c p _] using rev_ind.
    + assert ((scheme ++ lit "//" ++ host) ++ ["/"%char] = h ++ ["/"%char]) as Heq
          by (rewrite <- Hser; by list_nf).
      apply app_inj_tail in Heq as [<- _].
      eexists. split.
      * apply (parse_parts _ scheme host None None None); try done. by list_nf.
      * right. by list_nf.
    + assert ((scheme ++ lit "//" ++ host ++ "/"%char :: p) ++ [c] = h ++ ["/"%char])
        as Heq by (rewrite <- Hser; by list_nf).
      apply app_inj_tail in Heq as [<- ->].
      apply forallb_snoc_inv in Hp.
      eexists. split.
      * apply (parse_parts _ scheme host (Some p) None None); try done. by list_nf.
      * left. by list_nf.
Qed.



End SampleFacts.

(** ** Numbers *)

Module NumFacts.

Import Num.

Lemma lt_finite (p q : QArith_base.Q) :
  lt (Finite p) (Finite q) = true <-> QArith_base.Qlt p q.
Proof.
  simpl. rewrite negb_true_iff. split.
  - intros H. apply QArith_base.Qnot_le_lt. intros Hle.
    apply QArith_base.Qle_bool_iff in Hle. congruence.
  - intros H. destruct (QArith_base.Qle_bool q p) eqn:Hb; [|done].
    apply QArith_base.Qle_bool_iff in Hb. by apply QArith_base.Qlt_not_le in H.
Qed.

Lemma lt_of_Z (a b : Z) : lt (of_Z a) (of_Z b) = (a <? b)%Z.
Proof.
  apply eq_true_iff_eq. unfold of_Z. rewrite lt_finite, Z.ltb_lt.
  by rewrite QArith_base.Zlt_Qlt.
Qed.

Lemma lt_irrefl_of (x y : number) : lt x y = true -> lt y x = false.
Proof.
  destruct x as [p| |], y as [q| |]; try done.
  intros H%lt_finite. apply not_true_is_false. intros H'%lt_finite.
  exact (QArith_base.Qlt_irrefl p (QArith_base.Qlt_trans _ _ _ H H')).
Qed.

(** [a <= b] and [b < x] give [a < x]. *)
Lemma lt_lower (a b : Z) (x : number) :
  (a <= b)%Z -> lt (of_Z b) x = true -> lt (of_Z a) x = true.
Proof.
  intros Hab. destruct x as [q| |]; [|done..]. unfold of_Z. rewrite !lt_finite.
  apply QArith_base.Qle_lt_trans. by rewrite <- QArith_base.Zle_Qle.
Qed.

(** [x < a] and [a <= b] give [x < b]. *)
Lemma lt_raise (a b : Z) (x : number) :
  (a <= b)%Z -> lt x (of_Z a) = true -> lt x (of_Z b) = true.
Proof.
  intros Hab. destruct x as [q| |]; [|done..]. unfold of_Z. rewrite !lt_finite.
  intros H. eapply QArith_base.Qlt_le_trans; [exact H|]. by rewrite <- QArith_base.Zle_Qle.
Qed.

(** [n < x] and not [c < x] give [n < c]. *)
Lemma lt_capped (n c : Z) (x : number) :
  lt (of_Z n) x = true -> lt (of_Z c) x = false -> (n < c)%Z.
Proof.
  destruct x as [q| |]; [|done..]. unfold of_Z. intros Hn%lt_finite Hc.
  rewrite QArith_base.Zlt_Qlt. eapply QArith_base.Qlt_le_trans; [exact Hn|].
  apply QArith_base.Qnot_lt_le. intros H%lt_finite. unfold of_Z in Hc. congruence.
Qed.

(** Not [q < d] and not [c < q] give [d <= c]. *)
Lemma not_lt_capped (d c : Z) (q : QArith_base.Q) :
  lt (Finite q) (of_Z d) = false -> lt (of_Z c) (Finite q) = false -> (d <= c)%Z.
Proof.
  unfold of_Z. intros Hd Hc.
  rewrite QArith_base.Zle_Qle. apply QArith_base.Qle_trans with q.
  - apply QArith_base.Qnot_lt_le. intros H%lt_finite. congruence.
  - apply QArith_base.Qnot_lt_le. intros H%lt_finite. congruence.
Qed.

Lemma lt_ceiling (n : Z) (q : QArith_base.Q) :
  lt (of_Z n) (Finite q) = true <-> (n < Qround.Qceiling q)%Z.
Proof.
  unfold of_Z. rewrite lt_finite. split.
  - intros H. rewrite QArith_base.Zlt_Qlt.
    eapply QArith_base.Qlt_le_trans; [exact H | apply Qround.Qle_ceiling].
  - intros H. eapply QArith_base.Qle_lt_trans; [|apply Qround.Qceiling_lt].
    rewrite <- QArith_base.Zle_Qle. lia.
Qed.

Lemma gt_floor (n : Z) (q : QArith_base.Q) :
  gt (of_Z n) (Finite q) = false <-> (n <= Qround.Qfloor q)%Z.
Proof.
  unfold gt, of_Z. split.
  - intros H. apply Z.lt_succ_r. rewrite QArith_base.Zlt_Qlt.
    eapply QArith_base.Qle_lt_trans; [|apply Qround.Qlt_floor].
    apply QArith_base.Qnot_lt_le. intros H'%lt_finite. congruence.
  - intros H. apply not_true_is_false. intros H'%lt_finite.
    assert (QArith_base.Qle (QArith_base.inject_Z n) q) as Hle.
    { eapply QArith_base.Qle_trans; [|apply Qround.Qfloor_le].
      by rewrite <- QArith_base.Zle_Qle. }
    by apply QArith_base.Qlt_not_le in H'.
Qed.

(** A limit that is not above an integer is not [+Infinity]. *)
Lemma not_gt_finite (x : number) (c : Z) : gt x (of_Z c) = false -> x <> PosInfinity.
Proof. by intros H ->. Qed.

(** A limit other than [+Infinity] bounds the integers below it. *)
Lemma lt_bound (x : number) :
  x <> PosInfinity -> exists cap : Z, forall n, lt (of_Z n) x = true -> (n < cap)%Z.
Proof.
  destruct x as [q| |]; [|done|]; intros _.
  - exists (Qround.Qceiling q). intros n. by apply lt_ceiling.
  - by exists 0%Z.
Qed.

End NumFacts.

(** ** The crawler *)

Module CrawlFacts.

Import Scan.

Section Route.

Variable parse : jsstring -> option URL.
Variable parse_relative : jsstring -> jsstring -> option URL.
Variable network : nat -> jsstring -> Network.
Variables maxUrls maxDepth : Num.number.

Local Abbreviation expand := (expand parse parse_relative network maxUrls maxDepth).
Local Abbreviation step := (step parse parse_relative network maxUrls maxDepth).
Local Abbreviation run := (run parse parse_relative network maxUrls maxDepth).

Lemma expand_effect (st : State) (n : jsstring) (d : Z) :
  (exists st', expand st n d = Continue st' \/ exists e, expand st n d = Raise st' e)
  /\ urls (target (expand st n d)) = urls st
  /\ visited (target (expand st n d)) = visited st
  /\ (requests (target (expand st n d)) = requests st
      \/ requests (target (expand st n d)) = requests st ++ [n]).
Proof.
  unfold Scan.expand.
  destruct (Num.lt (Num.of_Z d) maxDepth && under (length (urls st)) maxUrls);
    [|by eauto 10].
  destruct (fetchPage network (length (requests st)) n) as [[data|]|e]; simpl;
    [|by eauto 10..].
  destruct (data_truthy data); [|by eauto 10].
  destruct (extractLinks parse parse_relative (as_text data) n); simpl; by eauto 10.
Qed.

(** A failed fetch leaves the queue as it is. *)
Lemma expand_failed_fetch (st : State) (n : jsstring) (d : Z) :
  fetchPage network (length (requests st)) n = Normal None ->
  exists st', expand st n d = Continue st'
              /\ urls st' = urls st /\ queue st' = queue st.
Proof.
  intros Hfetch. unfold Scan.expand. rewrite Hfetch.
  destruct (Num.lt (Num.of_Z d) maxDepth && under (length (urls st)) maxUrls); by eauto.
Qed.

(** What one turn does to the result list and to the request log. *)
Lemma step_effect (st : State) :
  step st = Return_ st
  \/ ((exists st', step st = Continue st' \/ exists e, step st = Raise st' e)
      /\ ((urls (target (step st)) = urls st
           /\ requests (target (step st)) = requests st)
          \/ (exists item n,
                 head (queue st) = Some item
                 /\ under (length (urls st)) maxUrls = true
                 /\ normalizeUrl parse (url item) = Some n
                 /\ Num.gt (Num.of_Z (depth item)) maxDepth = false
                 /\ urls (target (step st)) = urls st ++ [mkURLData n (depth item)]
                 /\ (requests (target (step st)) = requests st
                     \/ requests (target (step st)) = requests st ++ [n])))).
Proof.
  unfold Scan.step. destruct (queue st) as [|item rest] eqn:Hq; [by left|].
  destruct (under (length (urls st)) maxUrls) eqn:Hu; simpl; [|by left].
  right. destruct (normalizeUrl parse (url item)) as [n|] eqn:Hn; [|by eauto 10].
  destruct (bool_decide (n ∈ visited st)); simpl; [by eauto 10|].
  destruct (Num.gt (Num.of_Z (depth item)) maxDepth) eqn:Hd; [by eauto 10|].
  match goal with |- context [Scan.expand _ _ _ _ _ ?s n _] => set (st1 := s) end.
  destruct (expand_effect st1 n (depth item)) as (Hk & Hurls & _ & Hreq).
  split; [exact Hk|]. right. exists item, n.
  repeat split; try done.
Qed.

Lemma run_unfold (fuel : nat) (st : State) :
  run (S fuel) st
  = match step st with
    | Continue st' => run fuel st'
    | Return_ st' => Some (st', Normal (urls st'))
    | Raise st' e => Some (st', Throw e)
    end.
Proof. done. Qed.

(** A property of states that every turn preserves holds when the loop
    stops; a list is returned only from the final state. *)
Lemma run_invariant (I : State -> Prop) :
  (forall st, I st -> I (target (step st))) ->
  forall fuel st final out,
    I st -> run fuel st = Some (final, out) ->
    I final /\ (forall found, out = Normal found -> found = urls final).
Proof.
  intros Hstep fuel. induction fuel as [|fuel IH]; intros st final out HI; [done|].
  rewrite run_unfold. specialize (Hstep st HI).
  destruct (step st) as [st'|st'|st' e]; simpl in Hstep.
  - by apply IH.
  - intros [= <- <-]. split; [done|]. by intros found [= <-].
  - intros [= <- <-]. split; [done | done].
Qed.

Lemma step_grows (st : State) :
  exists more, urls (target (step st)) = urls st ++ more.
Proof.
  destruct (step_effect st) as [->|[_ [[-> _]|(item & n & _ & _ & _ & _ & -> & _)]]].
  - exists []. by rewrite (right_id_L [] (++)).
  - exists []. by rewrite (right_id_L [] (++)).
  - by eexists.
Qed.

Lemma run_grows (fuel : nat) (st final : State) out :
  run fuel st = Some (final, out) -> exists more, urls final = urls st ++ more.
Proof.
  intros Hrun.
  apply (run_invariant (fun s => exists more, urls s = urls st ++ more)
           ltac:(intros s [m Hm]; destruct (step_grows s) as [m' ->];
                 exists (m ++ m'); by rewrite Hm, (assoc_L (++)))
           fuel st final out); [|done].
  exists []. by rewrite (right_id_L [] (++)).
Qed.

Local Abbreviation bounded := (bounded maxUrls maxDepth).

Lemma step_bounded (st : State) : bounded st -> bounded (target (step st)).
Proof.
  intros [Hdepth Hlen].
  destruct (step_effect st)
    as [->|[_ [[Hu _]|(item & n & _ & Hunder & _ & Hd & Hu & _)]]];
    [done| |]; unfold Scan.bounded, Scan.limited; rewrite Hu; [done|].
  split.
  - apply Forall_app. split; [done|]. by repeat constructor.
  - right. rewrite length_app. simpl.
    by replace (length (urls st) + 1 - 1) with (length (urls st)) by lia.
Qed.

(** The loop stops: a turn either consumes a queue entry and leaves the
    result list alone, or extends the result list, which [maxUrls] bounds. *)
Lemma run_terminates (cap : Z) (a : nat) :
  (forall n, under n maxUrls = true -> (Z.of_nat n < cap)%Z) ->
  forall v us q rq,
    Z.to_nat (cap - Z.of_nat (length us)) <= a ->
    exists fuel, is_Some (run fuel (mkState v us q rq)).
Proof.
  intros Hcap. induction a as [a IHa] using lt_wf_ind. intros v us q.
  induction q as [|item rest IHq]; intros rq Ha.
  - exists 1. by eexists.
  - set (st := mkState v us (item :: rest) rq).
    destruct (step st) as [st'|st'|st' e] eqn:Hstep;
      [|exists 1; rewrite run_unfold, Hstep; by eexists..].
    destruct (step_effect st)
      as [Hret|[_ [[Hu Hr]|(it & n & _ & Hunder & _ & _ & Hu & _)]]];
      [congruence| |]; rewrite Hstep in *; simpl in *.
    + assert (exists fuel, is_Some (run fuel st')) as [fuel Hfuel].
      { revert Hstep. unfold Scan.step. simpl.
        destruct (under (length us) maxUrls); simpl; [|done].
        destruct (normalizeUrl parse (url item)) as [n'|];
          [|intros [= <-]; by apply IHq].
        destruct (bool_decide (n' ∈ v) || Num.gt (Num.of_Z (depth item)) maxDepth);
          [intros [= <-]; by apply IHq|].
        intros Hexp.
        match type of Hexp with Scan.expand _ _ _ _ _ ?s _ _ = _ => set (st1 := s) in * end.
        destruct (expand_effect st1 n' (depth item)) as (_ & Hu1 & _).
        rewrite Hexp in Hu1. simpl in Hu1. rewrite Hu in Hu1.
        apply (f_equal length) in Hu1. rewrite length_app in Hu1. simpl in Hu1. lia. }
      exists (S fuel). by rewrite run_unfold, Hstep.
    + apply Hcap in Hunder.
      destruct st' as [v' us' q' rq']. simpl in Hu.
      destruct (IHa (Z.to_nat (cap - Z.of_nat (length us'))) ltac:(
                  rewrite Hu, length_app; simpl; lia) v' us' q' rq' ltac:(lia))
        as [fuel Hfuel].
      exists (S fuel). by rewrite run_unfold, Hstep.
Qed.

End Route.

End CrawlFacts.

(** ** The crawler with an exclude set *)

Module CrawlExcludeFacts.

Import ScanExclude.

Section Route.

Variable parse : jsstring -> option URL.
Variable parse_relative : jsstring -> jsstring -> option URL.
Variable network : nat -> jsstring -> Network.
Variables maxUrls maxDepth : Num.number.
Variable excludeSet : gset jsstring.

Local Abbreviation expand :=
  (expand parse parse_relative network maxUrls maxDepth excludeSet).
Local Abbreviation step :=
  (step parse parse_relative network maxUrls maxDepth excludeSet).
Local Abbreviation run :=
  (run parse parse_relative network maxUrls maxDepth excludeSet).
Local Abbreviation bounded := (bounded maxUrls maxDepth).

Lemma expand_excl_effect (st : State) (n : jsstring) (d : Z) :
  (exists st', expand st n d = Continue st' \/ exists e, expand st n d = Raise st' e)
  /\ urls (target (expand st n d)) = urls st
  /\ (requests (target (expand st n d)) = requests st
      \/ requests (target (expand st n d)) = requests st ++ [n]).
Proof.
  unfold ScanExclude.expand.
  destruct (Num.lt (Num.of_Z d) maxDepth && Scan.under (length (urls st)) maxUrls);
    [|by eauto 10].
  destruct (Scan.fetchPage network (length (requests st)) n) as [[data|]|e]; simpl;
    [|by eauto 10..].
  destruct (data_truthy data); [|by eauto 10].
  destruct (Scan.extractLinks parse parse_relative (Scan.as_text data) n); simpl;
    by eauto 10.
Qed.

Lemma expand_excl_failed_fetch (st : State) (n : jsstring) (d : Z) :
  Scan.fetchPage network (length (requests st)) n = Normal None ->
  exists st', expand st n d = Continue st'
              /\ urls st' = urls st /\ queue st' = queue st.
Proof.
  intros Hfetch. unfold ScanExclude.expand. rewrite Hfetch.
  destruct (Num.lt (Num.of_Z d) maxDepth && Scan.under (length (urls st)) maxUrls); by eauto.
Qed.

Lemma step_excl_effect (st : State) :
  step st = Return_ st
  \/ ((exists st', step st = Continue st' \/ exists e, step st = Raise st' e)
      /\ ((urls (target (step st)) = urls st
           /\ requests (target (step st)) = requests st)
          \/ (exists item n,
                 head (queue st) = Some item
                 /\ Scan.under (length (urls st)) maxUrls = true
                 /\ normalizeUrl parse (url item) = Some n
                 /\ Num.gt (Num.of_Z (depth item)) maxDepth = false
                 /\ (n ∉ excludeSet)
                 /\ urls (target (step st)) = urls st ++ [mkURLData n (depth item)]
                 /\ (requests (target (step st)) = requests st
                     \/ requests (target (step st)) = requests st ++ [n])))).
Proof.
  unfold ScanExclude.step. destruct (queue st) as [|item rest] eqn:Hq; [by left|].
  destruct (Scan.under (length (urls st)) maxUrls) eqn:Hu; simpl; [|by left].
  right. destruct (normalizeUrl parse (url item)) as [n|] eqn:Hn; [|by eauto 10].
  destruct (nonempty n); simpl; [|by eauto 10].
  destruct (bool_decide (n ∈ visited st)); simpl; [by eauto 10|].
  destruct (Num.gt (Num.of_Z (depth item)) maxDepth) eqn:Hd; simpl; [by eauto 10|].
  case_bool_decide as Hex; [by eauto 10|].
  match goal with |- context [ScanExclude.expand _ _ _ _ _ _ ?s n _] => set (st1 := s) end.
  destruct (expand_excl_effect st1 n (depth item)) as (Hk & Hurls & Hreq).
  split; [exact Hk|]. right. exists item, n.
  repeat split; try done.
Qed.

Lemma run_excl_unfold (fuel : nat) (st : State) :
  run (S fuel) st
  = match step st with
    | Continue st' => run fuel st'
    | Return_ st' => Some (st', Normal (urls st'))
    | Raise st' e => Some (st', Throw e)
    end.
Proof. done. Qed.

Lemma run_excl_invariant (I : State -> Prop) :
  (forall st, I st -> I (target (step st))) ->
  forall fuel st final out,
    I st -> run fuel st = Some (final, out) ->
    I final /\ (forall found, out = Normal found -> found = urls final).
Proof.
  intros Hstep fuel. induction fuel as [|fuel IH]; intros st final out HI; [done|].
  rewrite run_excl_unfold. specialize (Hstep st HI).
  destruct (step st) as [st'|st'|st' e]; simpl in Hstep.
  - by apply IH.
  - intros [= <- <-]. split; [done|]. by intros found [= <-].
  - intros [= <- <-]. split; [done | done].
Qed.

Lemma step_excl_grows (st : State) :
  exists more, urls (target (step st)) = urls st ++ more.
Proof.
  destruct (step_excl_effect st)
    as [->|[_ [[-> _]|(item & n & _ & _ & _ & _ & _ & -> & _)]]].
  - exists []. by rewrite (right_id_L [] (++)).
  - exists []. by rewrite (right_id_L [] (++)).
  - by eexists.
Qed.

Lemma run_excl_grows (fuel : nat) (st final : State) out :
  run fuel st = Some (final, out) -> exists more, urls final = urls st ++ more.
Proof.
  intros Hrun.
  apply (run_excl_invariant (fun s => exists more, urls s = urls st ++ more)
           ltac:(intros s [m Hm]; destruct (step_excl_grows s) as [m' ->];
                 exists (m ++ m'); by rewrite Hm, (assoc_L (++)))
           fuel st final out); [|done].
  exists []. by rewrite (right_id_L [] (++)).
Qed.

Lemma step_excl_bounded (st : State) : bounded st -> bounded (target (step st)).
Proof.
  intros [Hdepth Hlen].
  destruct (step_excl_effect st)
    as [->|[_ [[Hu _]|(item & n & _ & Hunder & _ & Hd & _ & Hu & _)]]];
    [done| |]; unfold Scan.bounded, Scan.limited; rewrite Hu; [done|].
  split.
  - apply Forall_app. split; [done|]. by repeat constructor.
  - right. rewrite length_app. simpl.
    by replace (length (urls st) + 1 - 1) with (length (urls st)) by lia.
Qed.

Local Abbreviation clean := (clean excludeSet).

Lemma step_excl_clean (st : State) : clean st -> clean (target (step st)).
Proof.
  intros [Hreq Hurls].
  destruct (step_excl_effect st)
    as [->|[_ [[Hu Hr]|(item & n & _ & _ & _ & _ & Hn & Hu & Hr)]]];
    [done| |]; unfold ScanExclude.clean; rewrite Hu.
  - by rewrite Hr.
  - split.
    + destruct Hr as [-> | ->]; [done|]. apply Forall_app. by repeat constructor.
    + apply Forall_app. by repeat constructor.
Qed.

Lemma run_excl_terminates (cap : Z) (a : nat) :
  (forall n, Scan.under n maxUrls = true -> (Z.of_nat n < cap)%Z) ->
  forall v us q rq,
    Z.to_nat (cap - Z.of_nat (length us)) <= a ->
    exists fuel, is_Some (run fuel (mkState v us q rq)).
Proof.
  intros Hcap. induction a as [a IHa] using lt_wf_ind. intros v us q.
  induction q as [|item rest IHq]; intros rq Ha.
  - exists 1. by eexists.
  - set (st := mkState v us (item :: rest) rq).
    destruct (step st) as [st'|st'|st' e] eqn:Hstep;
      [|exists 1; rewrite run_excl_unfold, Hstep; by eexists..].
    destruct (step_excl_effect st)
      as [Hret|[_ [[Hu Hr]|(it & n & _ & Hunder & _ & _ & _ & Hu & _)]]];
      [congruence| |]; rewrite Hstep in *; simpl in *.
    + assert (exists fuel, is_Some (run fuel st')) as [fuel Hfuel].
      { revert Hstep. unfold ScanExclude.step. simpl.
        destruct (Scan.under (length us) maxUrls); simpl; [|done].
        destruct (normalizeUrl parse (url item)) as [n'|];
          [|intros [= <-]; by apply IHq].
        destruct (nonempty n'); simpl; [|intros [= <-]; by apply IHq].
        destruct (bool_decide (n' ∈ v) || Num.gt (Num.of_Z (depth item)) maxDepth
                  || bool_decide (n' ∈ excludeSet));
          [intros [= <-]; by apply IHq|].
        intros Hexp.
        match type of Hexp with
        | ScanExclude.expand _ _ _ _ _ _ ?s _ _ = _ => set (st1 := s) in *
        end.
        destruct (expand_excl_effect st1 n' (depth item)) as (_ & Hu1 & _).
        rewrite Hexp in Hu1. simpl in Hu1. rewrite Hu in Hu1.
        apply (f_equal length) in Hu1. rewrite length_app in Hu1. simpl in Hu1. lia. }
      exists (S fuel). by rewrite run_excl_unfold, Hstep.
    + apply Hcap in Hunder.
      destruct st' as [v' us' q' rq']. simpl in Hu.
      destruct (IHa (Z.to_nat (cap - Z.of_nat (length us'))) ltac:(
                  rewrite Hu, length_app; simpl; lia) v' us' q' rq' ltac:(lia))
        as [fuel Hfuel].
      exists (S fuel). by rewrite run_excl_unfold, Hstep.
Qed.

End Route.

(** The exclude set holds exactly the canonical forms of the entries of
    [excludeUrls]. *)
Lemma exclude_loop_spec (parse : jsstring -> option URL) (l : list jsstring) (acc : gset jsstring) (n : jsstring) :
  n ∈ foldl (exclude_body parse) acc l
  <-> n ∈ acc
      \/ (exists x, x ∈ l /\ normalizeUrl parse (with_scheme x) = Some n /\ n <> []).
Proof.
  revert acc. induction l as [|x l IH]; intros acc; simpl.
  - split; [by left|]. intros [?|(x & Hx & _)]; [done|]. by apply elem_of_nil in Hx.
  - rewrite IH. unfold exclude_body.
    split.
    + intros [Hacc|(y & Hy & Hn & Hne)].
      * destruct (normalizeUrl parse (with_scheme x)) as [m|] eqn:Hm; [|by left].
        unfold nonempty in Hacc. case_bool_decide as Hm0; simpl in Hacc; [by left|].
        apply elem_of_union in Hacc as [Hacc|?]; [|by left].
        apply elem_of_singleton in Hacc as ->.
        right. exists x. split; [apply elem_of_cons; by left | done].
      * right. exists y. split; [apply elem_of_cons; by right | done].
    + intros [Hacc|(y & Hy & Hn & Hne)].
      * left. destruct (normalizeUrl parse (with_scheme x)) as [m|]; [|done].
        destruct (nonempty m); [|done]. apply elem_of_union. by right.
      * apply elem_of_cons in Hy as [->|Hy].
        -- left. rewrite Hn. unfold nonempty.
           rewrite bool_decide_eq_false_2 by done. simpl.
           apply elem_of_union. left. by apply elem_of_singleton.
        -- right. by exists y.
Qed.

End CrawlExcludeFacts.

(** ** The limits of a crawl *)

Module LimitFacts.

Import Scan.

Lemma under_bound (maxUrls : Num.number) :
  maxUrls <> Num.PosInfinity ->
  exists cap : Z, forall n, under n maxUrls = true -> (Z.of_nat n < cap)%Z.
Proof.
  intros H. destruct (NumFacts.lt_bound maxUrls H) as [cap Hcap].
  exists cap. intros n. apply Hcap.
Qed.

Lemma limited_nil (maxUrls maxDepth : Num.number) : limited maxUrls maxDepth [].
Proof. split; [constructor | by left]. Qed.

(** The limits in integers. *)
Lemma limited_in_integers (maxUrls maxDepth : Num.number) (found : list URLData) :
  limited maxUrls maxDepth found -> limited_int maxUrls maxDepth found.
Proof.
  intros [Hdepth Hlen]. split.
  - destruct maxUrls as [q| |]; [|done|].
    + destruct Hlen as [->|Hlen]; [simpl; lia|].
      apply NumFacts.lt_ceiling in Hlen. lia.
    + by destruct Hlen as [->|Hlen].
  - destruct maxDepth as [q| |]; [|done|].
    + eapply Forall_impl; [exact Hdepth|]. intros d Hd. by apply NumFacts.gt_floor.
    + destruct found as [|d found]; [done|]. by apply Forall_cons in Hdepth as [Hd _].
Qed.

Lemma limited_of_Z (u d : Z) (found : list URLData) :
  limited (Num.of_Z u) (Num.of_Z d) found ->
  (Z.of_nat (length found) <= Z.max 0 u)%Z
  /\ Forall (fun x => (depth x <= d)%Z) found.
Proof.
  intros H%limited_in_integers. unfold limited_int, Num.of_Z in H.
  destruct H as [Hint Hd].
  rewrite Qround.Qceiling_Z in Hint. rewrite Qround.Qfloor_Z in Hd. done.
Qed.

(** What the handler lets through: limits of at most 300 addresses and 5
    levels. *)
Lemma limited_by_handler (maxUrls maxDepth : Num.number) (found : list URLData) :
  Num.gt maxUrls (Num.of_Z 300) = false -> Num.gt maxDepth (Num.of_Z 5) = false ->
  limited maxUrls maxDepth found ->
  (Z.of_nat (length found) <= 300)%Z /\ Forall (fun x => (depth x <= 5)%Z) found.
Proof.
  intros Hu Hd [Hdepth Hlen]. split.
  - destruct Hlen as [->|Hlen]; [simpl; lia|].
    pose proof (NumFacts.lt_capped _ _ _ Hlen Hu). lia.
  - eapply Forall_impl; [exact Hdepth|]. intros x Hx.
    destruct maxDepth as [q| |]; [|done..].
    by apply (NumFacts.not_lt_capped _ _ q).
Qed.

End LimitFacts.

(** ** What the specification says of a crawl *)

Module CrawlClaims.

Import Scan.

(** C2 (as amended).  For the route without and with an exclude set:
    when a crawl returns a list, no record lies deeper than [maxDepth],
    and the list is empty or was shorter than [maxUrls] when its last
    record was added.  In integers: for a finite [maxUrls] the list has at
    most [max 0 (ceiling maxUrls)] records, which is [max 0 maxUrls] for
    an integer limit, and depths are at most [floor maxDepth].  The crawl
    stops whenever [maxUrls] is not [+Infinity]. *)
Theorem crawl_respects_limits
        (parse : jsstring -> option URL)
        (parse_relative : jsstring -> jsstring -> option URL)
        (network : nat -> jsstring -> Network)
        (startUrl : jsstring) (maxUrls maxDepth : Num.number)
        (excludeUrls : list jsstring) :
  (maxUrls <> Num.PosInfinity ->
   (exists fuel,
       is_Some (Scan.crawlWebsite parse parse_relative network fuel startUrl
                  maxUrls maxDepth))
   /\ (exists fuel,
          is_Some (ScanExclude.crawlWebsite parse parse_relative network fuel
                     startUrl maxUrls maxDepth excludeUrls)))
  /\ (forall fuel,
         within_limits maxUrls maxDepth
           (Scan.crawlWebsite parse parse_relative network fuel startUrl
              maxUrls maxDepth)
         /\ within_limits maxUrls maxDepth
              (ScanExclude.crawlWebsite parse parse_relative network fuel startUrl
                 maxUrls maxDepth excludeUrls))
  /\ (forall (u d : Z) fuel,
         within_int_limits u d
           (Scan.crawlWebsite parse parse_relative network fuel startUrl
              (Num.of_Z u) (Num.of_Z d))
         /\ within_int_limits u d
              (ScanExclude.crawlWebsite parse parse_relative network fuel startUrl
                 (Num.of_Z u) (Num.of_Z d) excludeUrls)).
Proof.
  assert (forall mu md fuel,
             match Scan.crawlWebsite parse parse_relative network fuel startUrl mu md
             with
             | Some (_, Normal found) => limited mu md found
             | _ => True
             end) as Hplain.
  { intros mu md fuel. unfold Scan.crawlWebsite.
    destruct (Scan.run _ _ _ _ _ fuel _) as [[final [found|e]]|] eqn:Hrun; [|done..].
    destruct (CrawlFacts.run_invariant _ _ _ _ _ _
                (CrawlFacts.step_bounded _ _ _ mu md) _ (start startUrl) _ _
                (LimitFacts.limited_nil mu md) Hrun) as [Hb Hfound].
    rewrite (Hfound found eq_refl). exact Hb. }
  assert (forall mu md fuel,
             match ScanExclude.crawlWebsite parse parse_relative network fuel startUrl
                     mu md excludeUrls with
             | Some (_, Normal found) => limited mu md found
             | _ => True
             end) as Hexcl.
  { intros mu md fuel. unfold ScanExclude.crawlWebsite.
    destruct (normalizeUrl parse (with_scheme startUrl)) as [s|];
      [|apply LimitFacts.limited_nil].
    destruct (nonempty s); [|apply LimitFacts.limited_nil].
    destruct (ScanExclude.run _ _ _ _ _ _ fuel _) as [[final [found|e]]|] eqn:Hrun;
      [|done..].
    destruct (CrawlExcludeFacts.run_excl_invariant _ _ _ _ _ _ _
                (CrawlExcludeFacts.step_excl_bounded _ _ _ mu md _) _
                (mkState ∅ [] [mkURLData s 0] []) _ _
                (LimitFacts.limited_nil mu md) Hrun) as [Hb Hfound].
    rewrite (Hfound found eq_refl). exact Hb. }
  split; [|split].
  - intros Hfinite. destruct (LimitFacts.under_bound maxUrls Hfinite) as [cap Hcap].
    split.
    + apply (CrawlFacts.run_terminates _ _ _ _ _ cap (Z.to_nat cap) Hcap). simpl. lia.
    + unfold ScanExclude.crawlWebsite.
      destruct (normalizeUrl parse (with_scheme startUrl)) as [s|]; [|by exists 0].
      destruct (nonempty s); [|by exists 0].
      apply (CrawlExcludeFacts.run_excl_terminates _ _ _ _ _ _ cap (Z.to_nat cap) Hcap).
      simpl. lia.
  - intros fuel. split.
    + specialize (Hplain maxUrls maxDepth fuel). unfold within_limits.
      destruct (Scan.crawlWebsite _ _ _ _ _ _ _) as [[final [found|e]]|]; [|done..].
      split; [done | by apply LimitFacts.limited_in_integers].
    + specialize (Hexcl maxUrls maxDepth fuel). unfold within_limits.
      destruct (ScanExclude.crawlWebsite _ _ _ _ _ _ _ _) as [[final [found|e]]|];
        [|done..].
      split; [done | by apply LimitFacts.limited_in_integers].
  - intros u d fuel. split.
    + specialize (Hplain (Num.of_Z u) (Num.of_Z d) fuel). unfold within_int_limits.
      destruct (Scan.crawlWebsite _ _ _ _ _ _ _) as [[final [found|e]]|]; [|done..].
      by apply LimitFacts.limited_of_Z.
    + specialize (Hexcl (Num.of_Z u) (Num.of_Z d) fuel). unfold within_int_limits.
      destruct (ScanExclude.crawlWebsite _ _ _ _ _ _ _ _) as [[final [found|e]]|];
        [|done..].
      by apply LimitFacts.limited_of_Z.
Qed.

Lemma crawl_respects_limits_witness :
  let maxUrls := Num.Finite (QArith_base.Qmake 5 2) in
  maxUrls <> Num.PosInfinity
  /\ (exists fuel,
         is_Some (Scan.crawlWebsite Sample.parse Sample.parse_relative Sample.campus
                    fuel (lit "https://example.edu") maxUrls (Num.of_Z 5)))
  /\ (exists fuel,
         is_Some (ScanExclude.crawlWebsite Sample.parse Sample.parse_relative
                    Sample.campus fuel (lit "https://example.edu") maxUrls
                    (Num.of_Z 5) [])).
Proof.
  intros maxUrls. assert (maxUrls <> Num.PosInfinity) as Hfinite by done.
  split; [exact Hfinite|].
  exact (proj1 (crawl_respects_limits Sample.parse Sample.parse_relative Sample.campus
                  (lit "https://example.edu") maxUrls (Num.of_Z 5) []) Hfinite).
Defined.

(** C2 as stated fails for a limit that is not a whole number: with
    [maxUrls = 2.5] the crawl of the sample site returns three records. *)
Lemma fractional_limit_exceeded :
  let maxUrls := Num.Finite (QArith_base.Qmake 5 2) in
  exists final found,
    Scan.crawlWebsite Sample.parse Sample.parse_relative Sample.campus 4
      (lit "https://example.edu") maxUrls (Num.of_Z 5)
    = Some (final, Normal found)
    /\ length found = 3
    /\ Num.gt (Num.of_nat (length found)) maxUrls = true.
Proof. intros maxUrls. eexists. eexists. split; [by vm_compute|]. by split. Qed.

(** It fails for a negative [maxUrls] as well: the crawl returns the
    empty list, whose length exceeds the limit. *)
Lemma negative_limit_exceeded :
  exists final,
    Scan.crawlWebsite Sample.parse Sample.parse_relative Sample.campus 1
      (lit "https://example.edu") (Num.of_Z (-1)) (Num.of_Z 5)
    = Some (final, Normal [])
    /\ Num.gt (Num.of_nat (length (@nil URLData))) (Num.of_Z (-1)) = true.
Proof. eexists. split; [reflexivity | done]. Qed.

(** C1 (as amended).  The exclude set holds exactly the canonical forms of
    the entries of [excludeUrls].  No member of the exclude set is ever
    requested or recorded in the result; a dequeued URL whose canonical
    form is a member is dropped by its turn, which requests nothing,
    records nothing and adds nothing to the queue. *)
Theorem excluded_never_crawled
        (parse : jsstring -> option URL)
        (parse_relative : jsstring -> jsstring -> option URL)
        (network : nat -> jsstring -> Network)
        (startUrl : jsstring) (maxUrls maxDepth : Num.number)
        (excludeUrls : list jsstring) :
  let excludeSet := ScanExclude.make_excludeSet parse excludeUrls in
  (forall n, n ∈ excludeSet
             <-> exists x, x ∈ excludeUrls
                           /\ normalizeUrl parse (with_scheme x) = Some n /\ n <> [])
  /\ (forall fuel,
         ScanExclude.avoids excludeSet
           (ScanExclude.crawlWebsite parse parse_relative network fuel startUrl
              maxUrls maxDepth excludeUrls))
  /\ (forall (st : State) (item : URLData) (rest : list URLData) (n : jsstring),
         queue st = item :: rest ->
         under (length (urls st)) maxUrls = true ->
         normalizeUrl parse (url item) = Some n ->
         n ∈ excludeSet ->
         ScanExclude.step parse parse_relative network maxUrls maxDepth excludeSet st
         = Continue (mkState (visited st) (urls st) rest (requests st))).
Proof.
  intros excludeSet. split; [|split].
  - intros n. unfold excludeSet, ScanExclude.make_excludeSet.
    rewrite CrawlExcludeFacts.exclude_loop_spec.
    split; [intros [Hn|Hn]; [by apply not_elem_of_empty in Hn | done] | by right].
  - intros fuel. unfold ScanExclude.crawlWebsite, ScanExclude.avoids.
    fold excludeSet.
    assert (Forall (fun u : jsstring => u ∉ excludeSet) []
            /\ Forall (fun d => url d ∉ excludeSet) []) as Hnil by by split.
    assert (forall q, ScanExclude.clean excludeSet (mkState ∅ [] q [])) as Hstart
        by (intros q; by split).
    destruct (normalizeUrl parse (with_scheme startUrl)) as [s|]; [|exact Hnil].
    destruct (nonempty s); [|exact Hnil].
    destruct (ScanExclude.run _ _ _ _ _ _ fuel _) as [[final out]|] eqn:Hrun; [|done].
    destruct (CrawlExcludeFacts.run_excl_invariant _ _ _ _ _ _ _
                (CrawlExcludeFacts.step_excl_clean _ _ _ _ _ excludeSet) _ _ _ _
                (Hstart _) Hrun) as [[Hreq Hurls] Hfound].
    destruct out as [found|e]; [|done].
    by rewrite (Hfound found eq_refl).
  - intros st item rest n Hq Hunder Hn Hex.
    unfold ScanExclude.step. rewrite Hq, Hunder, Hn. simpl.
    destruct (nonempty n); simpl; [|done].
    rewrite (bool_decide_eq_true_2 (n ∈ excludeSet)) by done.
    by rewrite !orb_true_r.
Qed.

Lemma excluded_never_crawled_witness :
  let excludeUrls := [lit "https://example.edu/records/"] in
  let excludeSet := ScanExclude.make_excludeSet Sample.parse excludeUrls in
  let st := mkState ∅ [] [mkURLData (lit "https://example.edu/records") 1] [] in
  (queue st = [mkURLData (lit "https://example.edu/records") 1]
   /\ under (length (urls st)) (Num.of_Z 10) = true
   /\ normalizeUrl Sample.parse (lit "https://example.edu/records")
      = Some (lit "https://example.edu/records")
   /\ lit "https://example.edu/records" ∈ excludeSet)
  /\ ScanExclude.step Sample.parse Sample.parse_relative Sample.campus
                      (Num.of_Z 10) (Num.of_Z 2) excludeSet st
     = Continue (mkState ∅ [] [] []).
Proof.
  intros excludeUrls excludeSet st.
  pose proof (excluded_never_crawled Sample.parse Sample.parse_relative Sample.campus
                (lit "https://example.edu") (Num.of_Z 10) (Num.of_Z 2) excludeUrls)
    as (Hset & _ & Hskip).
  assert (lit "https://example.edu/records" ∈ excludeSet) as Hin.
  { apply Hset. exists (lit "https://example.edu/records/").
    split; [apply list_elem_of_here|]. by split. }
  split; [by repeat split|].
  exact (Hskip st _ [] _ eq_refl eq_refl eq_refl Hin).
Defined.

(** C1 as stated fails: the entry "https://example.edu/a/" of
    [excludeUrls] puts "https://example.edu/a" into the exclude set, and a
    crawl started at "https://example.edu/a///" reaches, requests and
    returns "https://example.edu/a/" itself. *)
Lemma excluded_url_is_fetched :
  let excluded := lit "https://example.edu/a/" in
  exists final,
    ScanExclude.crawlWebsite Sample.parse Sample.parse_relative
      (Sample.uniform_site (lit "<p>Welcome</p>")) 5
      (lit "https://example.edu/a///") (Num.of_Z 10) (Num.of_Z 1) [excluded]
    = Some (final, Normal [mkURLData excluded 0])
    /\ requests final = [excluded].
Proof. eexists. split; by vm_compute. Qed.

(** Two runs on the sample site: with [maxDepth = 1] the seed and its two
    links of the same domain are returned, the link to another domain is
    not; with [maxUrls = 1] only the seed is returned, and nothing is
    requested. *)
Example campus_depth_one :
  exists final,
    Scan.crawlWebsite Sample.parse Sample.parse_relative Sample.campus 4
      (lit "https://example.edu") (Num.of_Z 200) (Num.of_Z 1)
    = Some (final,
            Normal [mkURLData (lit "https://example.edu") 0;
                    mkURLData (lit "https://example.edu/admissions") 1;
                    mkURLData (lit "https://example.edu/records") 1])
    /\ requests final = [lit "https://example.edu"].
Proof. eexists. split; by vm_compute. Qed.

Example campus_single_url :
  exists final,
    Scan.crawlWebsite Sample.parse Sample.parse_relative Sample.campus 2
      (lit "https://example.edu") (Num.of_Z 1) (Num.of_Z 1)
    = Some (final, Normal [mkURLData (lit "https://example.edu") 0])
    /\ requests final = [].
Proof. eexists. split; by vm_compute. Qed.

End CrawlClaims.

(** ** Text shapes *)

Module ShapeFacts.

Import Analyze.

Import Shape.

Lemma collapse_from_length (run : bool) (s : jsstring) :
  length (collapse_from run s) <= length s.
Proof.
  revert run. induction s as [|c s IH]; intros run; simpl; [done|].
  destruct (is_space c); [destruct run|]; simpl;
    [specialize (IH true) | specialize (IH true) | specialize (IH false)]; lia.
Qed.

Lemma trimStart_suffix (s : jsstring) : exists a, s = a ++ trimStart s.
Proof.
  induction s as [|c s [a IH]]; simpl; [by exists []|].
  destruct (is_space c); [|by exists []].
  exists (c :: a). simpl. by rewrite <- IH.
Qed.

Lemma trimStart_head (s : jsstring) : no_leading_space (trimStart s).
Proof.
  induction s as [|c s IH]; simpl; [by intros ?|].
  destruct (is_space c) eqn:Hc; [done|]. intros d [= <-]. done.
Qed.

(** Trimming cuts a piece out of the string. *)
Lemma trim_infix (s : jsstring) : exists a b, s = a ++ trim s ++ b.
Proof.
  unfold trim.
  destruct (trimStart_suffix s) as [a Ha].
  destruct (trimStart_suffix (reverse (trimStart s))) as [b Hb].
  exists a, (reverse b).
  rewrite <- reverse_app, <- Hb, reverse_involutive. done.
Qed.

Lemma trim_length (s : jsstring) : length (trim s) <= length s.
Proof.
  destruct (trim_infix s) as (a & b & H).
  rewrite H at 2. rewrite !length_app. lia.
Qed.

Lemma trim_no_trailing (s : jsstring) : no_trailing_space (trim s).
Proof.
  unfold trim. intros c. rewrite last_reverse. apply trimStart_head.
Qed.

Lemma trim_no_leading (s : jsstring) : no_leading_space (trim s).
Proof.
  intros c Hc.
  pose proof (trimStart_head s) as Hs.
  unfold trim in Hc.
  destruct (trimStart_suffix (reverse (trimStart s))) as [b Hb].
  apply (f_equal reverse) in Hb. rewrite reverse_involutive, reverse_app in Hb.
  apply Hs. rewrite Hb.
  destruct (reverse (trimStart (reverse (trimStart s)))); [done|].
  simpl in *. done.
Qed.

Lemma slice_length (s : jsstring) (a b : nat) :
  length (slice s a b) <= b - a /\ length (slice s a b) <= length s.
Proof. unfold slice. rewrite length_take, length_drop. lia. Qed.

Lemma single_spaced_infix (a m b : jsstring) :
  single_spaced (a ++ m ++ b) -> single_spaced m.
Proof.
  intros H i c Hi Hc.
  assert ((a ++ m ++ b) !! (length a + i) = Some c) as Hi'.
  { rewrite lookup_app_r by lia. replace (length a + i - length a) with i by lia.
    by apply lookup_app_l_Some. }
  destruct (H _ _ Hi' Hc) as [-> Hnext]. split; [done|].
  intros d Hd. apply Hnext.
  rewrite <- Nat.add_succ_r.
  rewrite lookup_app_r by lia. replace (length a + S i - length a) with (S i) by lia.
  by apply lookup_app_l_Some.
Qed.

Lemma collapse_from_head (s : jsstring) : no_leading_space (collapse_from true s).
Proof.
  induction s as [|c s IH]; simpl; [by intros ?|].
  destruct (is_space c) eqn:Hc; [done|]. by intros d [= <-].
Qed.

Lemma collapse_from_single_spaced (run : bool) (s : jsstring) :
  single_spaced (collapse_from run s).
Proof.
  revert run. induction s as [|c s IH]; intros run; simpl; [by intros ? ? ?|].
  destruct (is_space c) eqn:Hc.
  - destruct run; [apply IH|].
    intros [|i] x; simpl.
    + intros [= <-] _. split; [done|]. intros d Hd.
      apply (collapse_from_head s). by rewrite head_lookup.
    + apply IH.
  - intros [|i] x; simpl.
    + intros [= <-]. congruence.
    + apply IH.
Qed.

Lemma single_spaced_take (n : nat) (s : jsstring) :
  single_spaced s -> single_spaced (take n s).
Proof.
  intros H. apply (single_spaced_infix [] (take n s) (drop n s)).
  simpl. by rewrite take_drop.
Qed.

Lemma no_leading_take (n : nat) (s : jsstring) :
  no_leading_space s -> no_leading_space (take n s).
Proof.
  intros H c Hc. apply H. destruct s as [|x s]; destruct n; simpl in *; done.
Qed.

(** Letters stay letters under the [i] flag: white space matches only
    white space. *)
Lemma is_space_upcase (c : ascii) : is_space (upcase c) = is_space c.
Proof. destruct c as [[] [] [] [] [] [] [] []]; by vm_compute. Qed.

Lemma ci_eqb_space (a x : ascii) : ci_eqb a x = true -> is_space x = is_space a.
Proof.
  unfold ci_eqb. intros H%bool_decide_eq_true.
  by rewrite <- (is_space_upcase x), <- H, is_space_upcase.
Qed.

Lemma ci_prefix_take (p s : jsstring) :
  ci_prefix p s = true ->
  ci_prefix p (take (length p) s) = true
  /\ length (take (length p) s) = length p
  /\ (forallb (fun c => negb (is_space c)) p = true ->
      forallb (fun c => negb (is_space c)) (take (length p) s) = true).
Proof.
  revert s. induction p as [|a p IH]; intros s; simpl; [done|].
  destruct s as [|x s]; [done|]. intros [Ha Hp]%andb_prop.
  destruct (IH s Hp) as (H1 & H2 & H3). simpl. rewrite Ha, H1, H2.
  repeat split. intros [Hsa Hsp]%andb_prop.
  rewrite (ci_eqb_space a x Ha), Hsa. simpl. by apply H3.
Qed.

Lemma ci_prefix_fits (p s : jsstring) (i : nat) :
  ci_prefix p (drop i s) = true -> length p <= length s - i.
Proof.
  intros Hp. destruct (ci_prefix_take _ _ Hp) as (_ & Hlen & _).
  rewrite length_take, length_drop in Hlen.
  pose proof (Nat.le_min_r (length p) (length s - i)) as Hle.
  rewrite Hlen in Hle. lia.
Qed.

Lemma collapse_from_block (run : bool) (a c b : jsstring) :
  c <> [] -> forallb (fun x => negb (is_space x)) c = true ->
  exists a' b', collapse_from run (a ++ c ++ b) = a' ++ c ++ b'.
Proof.
  intros Hne Hc. destruct c as [|x c]; [done|]. clear Hne.
  simpl in Hc. apply andb_prop in Hc as [Hx Hc]. apply negb_true_iff in Hx.
  simpl. rewrite JSFacts.collapse_from_app_char by done.
  exists (collapse_from run a).
  assert (exists b', collapse_from false (c ++ b) = c ++ b') as [b' ->]; [|by exists b'].
  clear Hx. induction c as [|y c IH]; simpl; [by eexists|].
  simpl in Hc. apply andb_prop in Hc as [Hy Hc]. apply negb_true_iff in Hy.
  rewrite Hy. destruct (IH Hc) as [b' ->]. by exists b'.
Qed.

Lemma trim_block (a c b : jsstring) :
  c <> [] -> forallb (fun x => negb (is_space x)) c = true ->
  exists a' b', trim (a ++ c ++ b) = a' ++ c ++ b'.
Proof.
  intros Hne Hc.
  assert (exists x c', c = x :: c' /\ is_space x = false) as (x & c' & Hx & Hsx).
  { destruct c as [|x c']; [done|]. exists x, c'. split; [done|].
    simpl in Hc. apply andb_prop in Hc as [Hc _]. by apply negb_true_iff in Hc. }
  assert (exists c0 y, c = c0 ++ [y] /\ is_space y = false) as (c0 & y & Hy & Hsy).
  { clear Hx. destruct c as [|z c1 _] using rev_ind; [done|]. exists c1, z. split; [done|].
    rewrite forallb_app in Hc. apply andb_prop in Hc as [_ Hc]. simpl in Hc.
    rewrite andb_true_r in Hc. by apply negb_true_iff in Hc. }
  unfold trim.
  destruct (JSFacts.trimStart_app_char a (c' ++ b) x Hsx) as [a' Ha].
  rewrite Hx. simpl. rewrite Ha.
  change (a' ++ x :: c' ++ b) with (a' ++ (x :: c') ++ b). rewrite <- Hx, Hy.
  rewrite !reverse_app. simpl. rewrite <- !(assoc_L (++)). simpl.
  destruct (JSFacts.trimStart_app_char (reverse b) (reverse c0 ++ reverse a') y Hsy)
    as [b' Hb].
  rewrite Hb. exists a', (reverse b').
  rewrite reverse_app, reverse_cons, reverse_app, !reverse_involutive.
  rewrite <- !(assoc_L (++)). rewrite (assoc_L (++) c0), <- Hy, Hx. done.
Qed.

End ShapeFacts.

(** ** Invariants of the reference detector *)

Module DetectorInvariants.

Import Analyze.

Import Shape ShapeFacts.

Lemma push_snippet_forall (P : Snippet -> Prop) results snip index :
  Forall P results -> (20 < length snip -> P (mkSnippet snip index)) ->
  Forall P (push_snippet results snip index).
Proof.
  intros Hall Hnew. unfold push_snippet.
  destruct (20 <? length snip) eqn:Hlen; simpl; [|done].
  destruct (negb _); [|done].
  apply Forall_app. split; [done|]. constructor; [|done].
  apply Hnew. by apply Nat.ltb_lt.
Qed.

(** Whatever holds of every entry the two rules may push holds of the
    result. *)
Lemma detector_forall (P : Snippet -> Prop) (html text : jsstring) :
  (forall i e, (i, e) ∈ exec_all cougarRegex text ->
               20 < length (cougar_snippet text i) ->
               P (mkSnippet (cougar_snippet text i) i)) ->
  (forall i e, (i, e) ∈ exec_all colleagueRegex text ->
               test COLLEGUE_SYSTEM_WORDS (colleague_window text i) = true ->
               20 < length (trim (collapse_spaces (colleague_window text i))) ->
               P (mkSnippet (trim (collapse_spaces (colleague_window text i))) i)) ->
  Forall P (findLegacySnippets html text).
Proof.
  intros Hcougar Hcolleague. unfold findLegacySnippets.
  assert (forall ms results,
             (forall m, m ∈ ms -> m ∈ exec_all cougarRegex text) ->
             Forall P results -> Forall P (foldl (cougar_body text) results ms)) as H1.
  { induction ms as [|[i e] ms IH]; intros results Hms Hres; simpl; [done|].
    apply IH; [intros m Hm; apply Hms; by apply list_elem_of_further|].
    apply push_snippet_forall; [done|]. simpl.
    apply (Hcougar i e). apply Hms. apply list_elem_of_here. }
  assert (forall ms results,
             (forall m, m ∈ ms -> m ∈ exec_all colleagueRegex text) ->
             Forall P results -> Forall P (foldl (colleague_body text) results ms)) as H2.
  { induction ms as [|[i e] ms IH]; intros results Hms Hres; simpl; [done|].
    apply IH; [intros m Hm; apply Hms; by apply list_elem_of_further|].
    unfold colleague_body. simpl.
    destruct (test _ _) eqn:Htest; [|done].
    apply push_snippet_forall; [done|].
    apply (Hcolleague i e); [|done]. apply Hms. apply list_elem_of_here. }
  apply H2; [done|]. apply H1; [done|]. constructor.
Qed.

Lemma match_in_text (p q : jsstring) (s : jsstring) (i : nat) :
  ci_prefix (p ++ q) (drop i s) = true -> p <> [] -> i < length s.
Proof.
  intros Hp Hne. apply ci_prefix_fits in Hp. rewrite length_app in Hp.
  destruct p; [done|]. simpl in Hp. lia.
Qed.

Lemma cougar_match_in_text (s : jsstring) (i e : nat) :
  (i, e) ∈ exec_all cougarRegex s ->
  ci_prefix (lit "cougar") (drop i s) = true /\ i < length s.
Proof.
  intros Hm%DetectorFacts.exec_all_match.
  destruct (DetectorFacts.cougarRegex_inv s i e Hm) as (_ & _ & Hc & _).
  split; [done|]. by apply (match_in_text (lit "cougar") [] s i).
Qed.

Lemma colleague_match_in_text (s : jsstring) (i e : nat) :
  (i, e) ∈ exec_all colleagueRegex s ->
  ci_prefix (lit "colleague") (drop i s) = true /\ i < length s.
Proof.
  intros Hm%DetectorFacts.exec_all_match.
  unfold colleagueRegex in Hm. destruct (word_boundary s i); [|done].
  apply DetectorFacts.word_alt_inv in Hm as [Hc _].
  split; [done|]. by apply (match_in_text (lit "colleague") [] s i).
Qed.

Lemma cougar_snippet_length (text : jsstring) (i : nat) :
  length (cougar_snippet text i) <= 200
  /\ length (cougar_snippet text i) <= length text.
Proof.
  unfold cougar_snippet.
  pose proof (trim_length (collapse_spaces (slice text (Nat.max 0 (i - 80))
                 (Nat.min (length text) (i + 120))))) as H1.
  pose proof (collapse_from_length false (slice text (Nat.max 0 (i - 80))
                 (Nat.min (length text) (i + 120)))) as H2.
  pose proof (slice_length text (Nat.max 0 (i - 80))
                (Nat.min (length text) (i + 120))) as [H3 H4].
  unfold collapse_spaces in *. lia.
Qed.

Lemma colleague_snippet_length (text : jsstring) (i : nat) :
  length (trim (collapse_spaces (colleague_window text i))) <= 200
  /\ length (trim (collapse_spaces (colleague_window text i))) <= length text.
Proof.
  unfold colleague_window.
  pose proof (trim_length (collapse_spaces (slice text (Nat.max 0 (i - 100))
                 (Nat.min (length text) (i + 100))))) as H1.
  pose proof (collapse_from_length false (slice text (Nat.max 0 (i - 100))
                 (Nat.min (length text) (i + 100)))) as H2.
  pose proof (slice_length text (Nat.max 0 (i - 100))
                (Nat.min (length text) (i + 100))) as [H3 H4].
  unfold collapse_spaces in *. lia.
Qed.

(** A window around a match holds the matched letters. *)
Lemma window_keeps_term (p text : jsstring) (i before after : nat) :
  ci_prefix p (drop i text) = true -> p <> [] -> length p <= after ->
  exists a c b,
    slice text (Nat.max 0 (i - before)) (Nat.min (length text) (i + after))
    = a ++ c ++ b
    /\ ci_prefix p c = true /\ length c = length p
    /\ (forallb (fun x => negb (is_space x)) p = true ->
        forallb (fun x => negb (is_space x)) c = true).
Proof.
  intros Hp Hne Hafter.
  pose proof (ci_prefix_fits _ _ _ Hp) as Hfit.
  assert (0 < length p) as Hpos by (destruct p; [done | simpl; lia]).
  destruct (ci_prefix_take _ _ Hp) as (Hc & Hlen & Hsp).
  set (start := Nat.max 0 (i - before)).
  set (stop := Nat.min (length text) (i + after)).
  exists (take (i - start) (drop start text)),
         (take (length p) (drop i text)),
         (take (stop - i - length p) (drop (i + length p) text)).
  split; [|done].
  unfold slice.
  assert (drop (i + length p) text = drop (length p) (drop i text)) as ->
      by by rewrite drop_drop.
  rewrite take_take_drop.
  assert (drop i text = drop (i - start) (drop start text)) as ->
      by (rewrite drop_drop; f_equal; lia).
  rewrite take_take_drop. f_equal. lia.
Qed.

Lemma snippet_keeps_term (p w : jsstring) :
  p <> [] -> forallb (fun x => negb (is_space x)) p = true ->
  (exists a c b, w = a ++ c ++ b /\ ci_prefix p c = true /\ length c = length p
                 /\ (forallb (fun x => negb (is_space x)) p = true ->
                     forallb (fun x => negb (is_space x)) c = true)) ->
  ci_infix p (trim (collapse_spaces w)).
Proof.
  intros Hne Hp (a & c & b & -> & Hc & Hlen & Hsp).
  assert (c <> []) as Hcne by (intros ->; by destruct p).
  destruct (collapse_from_block false a c b Hcne (Hsp Hp)) as (a1 & b1 & H1).
  unfold collapse_spaces. rewrite H1.
  destruct (trim_block a1 c b1 Hcne (Hsp Hp)) as (a2 & b2 & ->).
  exists (length a2). unfold ci_prefix_at.
  rewrite drop_app_length. by apply DetectorFacts.ci_prefix_extend.
Qed.

(** X1.  Every reported snippet is longer than 20 characters and no longer
    than its window of 200 characters or than the page text, and its
    offset lies inside the text. *)
Theorem snippet_bounds (html text : jsstring) :
  Forall (fun r => 20 < length (snippet r) <= 200
                   /\ length (snippet r) <= length text
                   /\ offset r < length text)
         (findLegacySnippets html text).
Proof.
  apply detector_forall.
  - intros i e Hm Hlen. simpl.
    destruct (cougar_snippet_length text i).
    destruct (cougar_match_in_text text i e Hm). lia.
  - intros i e Hm _ Hlen. simpl.
    destruct (colleague_snippet_length text i).
    destruct (colleague_match_in_text text i e Hm). lia.
Qed.

(** X2.  Every reported snippet comes from a match at its offset: a match
    of the product-name pattern, whose window the snippet is, or a match
    of [colleague] whose window passes the vocabulary test and, once
    normalised, is the snippet. *)
Theorem snippet_has_origin (html text : jsstring) :
  Forall (fun r =>
            (exists e, (offset r, e) ∈ exec_all cougarRegex text
                       /\ snippet r = cougar_snippet text (offset r))
            \/ (exists e, (offset r, e) ∈ exec_all colleagueRegex text
                          /\ test COLLEGUE_SYSTEM_WORDS
                               (colleague_window text (offset r)) = true
                          /\ snippet r
                             = trim (collapse_spaces (colleague_window text (offset r)))))
         (findLegacySnippets html text).
Proof.
  apply detector_forall.
  - intros i e Hm _. left. by exists e.
  - intros i e Hm Htest _. right. by exists e.
Qed.

(** X3.  Every snippet contains the term that was matched, [cougar] or
    [colleague], in some letter case: cutting and normalising the window
    never loses it. *)
Theorem snippet_names_term (html text : jsstring) :
  Forall (fun r => ci_infix (lit "cougar") (snippet r)
                   \/ ci_infix (lit "colleague") (snippet r))
         (findLegacySnippets html text).
Proof.
  apply detector_forall.
  - intros i e Hm _. left. simpl.
    destruct (cougar_match_in_text text i e Hm) as [Hc _].
    apply snippet_keeps_term; [done|done|].
    apply (window_keeps_term (lit "cougar") text i 80 120 Hc); [done|]. simpl. lia.
  - intros i e Hm _ _. right. simpl.
    destruct (colleague_match_in_text text i e Hm) as [Hc _].
    apply snippet_keeps_term; [done|done|].
    apply (window_keeps_term (lit "colleague") text i 100 100 Hc); [done|]. simpl. lia.
Qed.

(** X4.  Every snippet is normalised text: its white space is single
    blanks, and there is none at either end. *)
Theorem snippet_is_normalised (html text : jsstring) :
  Forall (fun r => single_spaced (snippet r)
                   /\ no_leading_space (snippet r)
                   /\ no_trailing_space (snippet r))
         (findLegacySnippets html text).
Proof.
  assert (forall w, single_spaced (trim (collapse_spaces w))
                    /\ no_leading_space (trim (collapse_spaces w))
                    /\ no_trailing_space (trim (collapse_spaces w))) as H.
  { intros w. split; [|split; [apply trim_no_leading | apply trim_no_trailing]].
    destruct (trim_infix (collapse_spaces w)) as (a & b & Hab).
    apply (single_spaced_infix a _ b). rewrite <- Hab.
    apply collapse_from_single_spaced. }
  apply detector_forall; intros; apply H.
Qed.

Lemma push_snippet_nodup results snip index :
  NoDup (map snippet results) -> NoDup (map snippet (push_snippet results snip index)).
Proof.
  intros Hnd. unfold push_snippet.
  destruct (20 <? length snip); simpl; [|done].
  destruct (existsb _ results) eqn:Hex; simpl; [done|].
  rewrite map_app. simpl. apply NoDup_app. split; [done|].
  split; [|apply NoDup_singleton].
  intros x Hx [= ->]%list_elem_of_singleton.
  apply list_elem_of_fmap in Hx as (r & Hr & Hin).
  assert (existsb (fun r => bool_decide (snippet r = snip)) results = true) as Hyes.
  { apply existsb_exists. exists r. split; [by apply list_elem_of_In|].
    by apply bool_decide_eq_true. }
  congruence.
Qed.

(** X5.  No two reported entries carry the same snippet text. *)
Theorem snippets_are_distinct (html text : jsstring) :
  NoDup (map snippet (findLegacySnippets html text)).
Proof.
  unfold findLegacySnippets.
  assert (forall ms results, NoDup (map snippet results) ->
             NoDup (map snippet (foldl (cougar_body text) results ms))) as H1.
  { induction ms as [|m ms IH]; intros results Hnd; simpl; [done|].
    apply IH. by apply push_snippet_nodup. }
  assert (forall ms results, NoDup (map snippet results) ->
             NoDup (map snippet (foldl (colleague_body text) results ms))) as H2.
  { induction ms as [|m ms IH]; intros results Hnd; simpl; [done|].
    apply IH. unfold colleague_body. destruct (test _ _); [|done].
    by apply push_snippet_nodup. }
  apply H2, H1. constructor.
Qed.

End DetectorInvariants.

(** ** Global replacement *)

Module ReplaceFacts.

Import Analyze.

Import Replace.

Lemma exec_from_skip (re : matcher) (s : jsstring) (fuel pos k : nat) :
  exec_from re s (k + fuel) pos k = exec_from re s fuel (pos + k) 0.
Proof.
  revert pos. induction k as [|k IH]; intros pos; simpl.
  - by rewrite Nat.add_0_r.
  - rewrite IH. f_equal. lia.
Qed.

Lemma exec_from_lower (re : matcher) (s : jsstring) (fuel pos skip : nat) :
  Forall (fun m => pos + skip <= m.1) (exec_from re s fuel pos skip).
Proof.
  revert pos skip. induction fuel as [|fuel IH]; intros pos skip; simpl; [constructor|].
  destruct skip as [|k].
  - destruct (re s pos) as [e|].
    + constructor; [simpl; lia|].
      eapply Forall_impl; [apply IH|]. simpl. intros. lia.
    + eapply Forall_impl; [apply IH|]. simpl. intros. lia.
  - eapply Forall_impl; [apply IH|]. simpl. intros. lia.
Qed.

Lemma splice_shift (s rep : jsstring) (ms : list (nat * nat)) (pos : nat) (c : ascii) :
  s !! pos = Some c -> Forall (fun m => S pos <= m.1) ms ->
  splice s rep ms pos = c :: splice s rep ms (S pos).
Proof.
  intros Hc Hms. destruct ms as [|[i e] ms]; simpl.
  - by rewrite (drop_S s c pos).
  - apply Forall_cons in Hms as [Hi _]. simpl in Hi. unfold slice.
    rewrite (drop_S s c pos) by done.
    replace (i - pos) with (S (i - S pos)) by lia. done.
Qed.

Section Replacement.

Variable re : matcher.
Variable rep s : jsstring.
Hypothesis Hadv : advances re s.

Local Abbreviation rest := (Replace.rest re rep s).

Lemma rest_start : replace_all re rep s = rest 0.
Proof. unfold replace_all, exec_all, Replace.rest. by rewrite Nat.sub_0_r. Qed.

Lemma rest_end (pos : nat) : length s <= pos -> rest pos = [].
Proof.
  intros Hpos. unfold Replace.rest.
  assert (exec_from re s (S (length s) - pos) pos 0 = []) as ->.
  { destruct (S (length s) - pos) as [|[|f]] eqn:Hf; [done| |lia].
    simpl. destruct (re s pos) as [e|] eqn:He; [|done].
    apply Hadv in He. lia. }
  simpl. by apply drop_ge.
Qed.

Lemma rest_keep (pos : nat) (c : ascii) :
  s !! pos = Some c -> re s pos = None -> rest pos = c :: rest (S pos).
Proof.
  intros Hc Hre. pose proof (lookup_lt_Some _ _ _ Hc) as Hlt. unfold Replace.rest.
  replace (S (length s) - pos) with (S (S (length s) - S pos)) by lia.
  simpl. rewrite Hre. apply splice_shift; [done|].
  eapply Forall_impl; [apply exec_from_lower|]. simpl. intros. lia.
Qed.

Lemma rest_replace (pos e : nat) :
  re s pos = Some e -> rest pos = rep ++ rest e.
Proof.
  intros Hre. pose proof (Hadv _ _ Hre) as [Hlt Hle]. unfold Replace.rest.
  replace (S (length s) - pos) with (S ((e - pos - 1) + (S (length s) - e))) by lia.
  simpl. rewrite Hre. simpl. unfold slice. rewrite Nat.sub_diag. simpl.
  rewrite exec_from_skip. do 3 f_equal. lia.
Qed.

(** Reasoning from the end of the string backwards. *)
Lemma rest_ind (P : nat -> jsstring -> Prop) :
  (forall pos, length s <= pos -> P pos []) ->
  (forall pos c, s !! pos = Some c -> re s pos = None ->
                 P (S pos) (rest (S pos)) -> P pos (c :: rest (S pos))) ->
  (forall pos e, re s pos = Some e -> pos < e <= length s ->
                 P e (rest e) -> P pos (rep ++ rest e)) ->
  forall pos, P pos (rest pos).
Proof.
  intros Hend Hkeep Hrep pos.
  remember (length s - pos) as n eqn:Hn. revert pos Hn.
  induction n as [n IH] using lt_wf_ind. intros pos Hn.
  destruct (s !! pos) as [c|] eqn:Hc.
  - pose proof (lookup_lt_Some _ _ _ Hc) as Hlt.
    destruct (re s pos) as [e|] eqn:Hre.
    + rewrite (rest_replace pos e Hre). pose proof (Hadv _ _ Hre) as Hb.
      apply Hrep; [done|done|]. apply (IH (length s - e)); [lia|done].
    + rewrite (rest_keep pos c Hc Hre).
      apply Hkeep; [done|done|]. apply (IH (length s - S pos)); [lia|done].
  - apply lookup_ge_None in Hc. rewrite rest_end by done. by apply Hend.
Qed.

End Replacement.

End ReplaceFacts.

(** ** Markup removal *)

Module MarkupFacts.

Import Analyze.

Import Markup Replace ReplaceFacts Shape ShapeFacts Guard.

Lemma run_except_spec (c : ascii) (t : jsstring) :
  (c ∉ take (run_except c t) t)
  /\ (t !! run_except c t = None \/ t !! run_except c t = Some c)
  /\ run_except c t <= length t.
Proof.
  induction t as [|x t (IH1 & IH2 & IH3)]; simpl.
  - split; [apply not_elem_of_nil|]. split; [by left | done].
  - case_bool_decide as Hx; simpl.
    + split; [apply not_elem_of_nil|]. split; [right; by rewrite Hx | lia].
    + split; [|split; [done | lia]].
      intros [?|?]%elem_of_cons; [congruence | done].
Qed.

Lemma run_except_absent (c : ascii) (t : jsstring) :
  c ∉ t -> run_except c t = length t.
Proof.
  induction t as [|x t IH]; simpl; [done|].
  intros Hc. apply not_elem_of_cons in Hc as [Hx Ht].
  case_bool_decide; [congruence|]. by rewrite IH.
Qed.

Lemma run_except_head (c : ascii) (t : jsstring) :
  head t = Some c -> run_except c t = 0.
Proof. destruct t as [|x t]; simpl; [done|]. intros [= ->]. by rewrite bool_decide_eq_true_2. Qed.

(** What a match of the tag pattern consists of. *)
Lemma tagRegex_inv (s : jsstring) (i e : nat) :
  tagRegex s i = Some e ->
  s !! i = Some "<"%char
  /\ 0 < run_except ">"%char (drop (S i) s)
  /\ e = S i + run_except ">"%char (drop (S i) s) + 1
  /\ s !! (e - 1) = Some ">"%char.
Proof.
  unfold tagRegex. destruct (s !! i) as [c|] eqn:Hc; [|done].
  case_bool_decide as Hlt; [subst c|done].
  set (n := run_except ">"%char (drop (S i) s)).
  destruct (s !! (S i + n)) as [x|] eqn:Hx; [|done].
  destruct (0 <? n) eqn:Hn; [|done]. intros [= <-].
  apply Nat.ltb_lt in Hn. split; [done|]. split; [done|]. split; [done|].
  destruct (run_except_spec ">"%char (drop (S i) s)) as (_ & Hat & _).
  fold n in Hat. rewrite lookup_drop in Hat.
  assert (forall k, k = S i + n -> s !! k = Some ">"%char) as Hk
      by (intros k ->; destruct Hat; congruence).
  apply Hk. lia.
Qed.

Lemma tagRegex_advances (s : jsstring) : advances tagRegex s.
Proof.
  intros i e (Hi & Hn & -> & He)%tagRegex_inv.
  apply lookup_lt_Some in He. lia.
Qed.

Lemma guarded_nil : guarded [].
Proof. intros a b H. by destruct a. Qed.

Lemma guarded_cons (c : ascii) (t : jsstring) :
  guarded t -> (c = "<"%char -> head t = Some ">"%char \/ ">"%char ∉ t) ->
  guarded (c :: t).
Proof.
  intros Ht Hc [|x a] b; simpl; intros [= -> ->]; [by apply Hc | by eapply Ht].
Qed.

Lemma guarded_cons_inv (c : ascii) (t : jsstring) :
  guarded (c :: t) ->
  guarded t /\ (c = "<"%char -> head t = Some ">"%char \/ ">"%char ∉ t).
Proof.
  intros H. split.
  - intros a b ->. by apply (H (c :: a) b).
  - intros ->. by apply (H [] t).
Qed.

Lemma guarded_suffix (a m : jsstring) : guarded (a ++ m) -> guarded m.
Proof.
  intros H a' b ->. apply (H (a ++ a') b). by rewrite <- (assoc_L (++)).
Qed.

Lemma guarded_prefix (m b : jsstring) : guarded (m ++ b) -> guarded m.
Proof.
  intros H a' b' ->.
  destruct (H a' (b' ++ b)) as [Hhd|Hno]; [by rewrite <- (assoc_L (++))| |].
  - destruct b' as [|x b']; [right; apply not_elem_of_nil | by left].
  - right. intros Hin. apply Hno, elem_of_app. by left.
Qed.

Lemma collapse_from_keeps_out (c : ascii) (run : bool) (t : jsstring) :
  is_space c = false -> c ∉ t -> c ∉ collapse_from run t.
Proof.
  intros Hc. revert run. induction t as [|x t IH]; intros run; simpl; [done|].
  intros [Hx Ht]%not_elem_of_cons.
  destruct (is_space x) eqn:Hsx.
  - destruct run; [by apply IH|].
    apply not_elem_of_cons. split; [by intros -> | by apply IH].
  - apply not_elem_of_cons. split; [done | by apply IH].
Qed.

Lemma guarded_collapse (run : bool) (t : jsstring) :
  guarded t -> guarded (collapse_from run t).
Proof.
  revert run. induction t as [|x t IH]; intros run; simpl; [done|].
  intros [Ht Hx]%guarded_cons_inv.
  destruct (is_space x) eqn:Hsx.
  - destruct run; [by apply IH|].
    apply guarded_cons; [by apply IH | done].
  - apply guarded_cons; [by apply IH|].
    intros ->. destruct (Hx eq_refl) as [Hhd|Hno].
    + left. destruct t as [|y t]; [done|]. simpl in Hhd. injection Hhd as ->. done.
    + right. by apply collapse_from_keeps_out.
Qed.

Lemma guarded_trim (t : jsstring) : guarded t -> guarded (trim t).
Proof.
  intros H. destruct (trim_infix t) as (a & b & Hab). rewrite Hab in H.
  by apply guarded_suffix, guarded_prefix in H.
Qed.

Lemma guarded_take (n : nat) (t : jsstring) : guarded t -> guarded (take n t).
Proof. intros H. apply (guarded_prefix _ (drop n t)). by rewrite take_drop. Qed.

Lemma guarded_tag_free (t : jsstring) : guarded t -> tag_free t.
Proof.
  intros H i. destruct (tagRegex t i) as [e|] eqn:He; [|done]. exfalso.
  apply tagRegex_inv in He as (Hi & Hn & -> & He).
  replace (S i + run_except ">"%char (drop (S i) t) + 1 - 1)
    with (S i + run_except ">"%char (drop (S i) t)) in He by lia.
  destruct (H (take i t) (drop (S i) t)) as [Hhd|Hno].
  - symmetry. by apply take_drop_middle.
  - apply run_except_head in Hhd. lia.
  - apply run_except_absent in Hno. rewrite Hno in He.
    apply lookup_lt_Some in He. rewrite length_drop in He. lia.
Qed.

(** Replacing every tag by a blank leaves no tag behind. *)
Lemma strip_tags_guarded (s : jsstring) :
  guarded (replace_all tagRegex (lit " ") s).
Proof.
  rewrite (rest_start tagRegex (lit " ") s).
  pose proof (tagRegex_advances s) as Hadv.
  apply (rest_ind tagRegex (lit " ") s Hadv
           (fun pos out => guarded out
                           /\ (">"%char ∉ drop pos s -> ">"%char ∉ out)
                           /\ (s !! pos = Some ">"%char -> head out = Some ">"%char))).
  - intros pos Hpos. split; [apply guarded_nil|]. split; [intros _; apply not_elem_of_nil|].
    intros Hc%lookup_lt_Some. lia.
  - intros pos c Hc Hre (Hg & Hno & Hhd).
    rewrite (drop_S s c pos Hc). split; [|split].
    + apply guarded_cons; [done|]. intros ->.
      unfold tagRegex in Hre. rewrite Hc in Hre.
      rewrite bool_decide_eq_true_2 in Hre by done. cbv zeta in Hre.
      destruct (run_except_spec ">"%char (drop (S pos) s)) as (Hrun & Hat & Hle).
      set (n := run_except ">"%char (drop (S pos) s)) in *.
      destruct (s !! (S pos + n)) as [x|] eqn:Hx.
      * destruct (0 <? n) eqn:Hn; [done|]. apply Nat.ltb_ge in Hn.
        assert (n = 0) as Hn0 by lia. rewrite Hn0 in *.
        left. apply Hhd. rewrite lookup_drop in Hat. rewrite Nat.add_0_r in *.
        destruct Hat; congruence.
      * right. apply Hno. rewrite <- lookup_drop in Hx.
        apply lookup_ge_None in Hx.
        rewrite <- (take_ge (drop (S pos) s) n) by done. done.
    + intros [Hne Hrest]%not_elem_of_cons.
      apply not_elem_of_cons. split; [done | by apply Hno].
    + intros Hp. rewrite Hc in Hp. by injection Hp as ->.
  - intros pos e Hre Hb (Hg & Hno & Hhd).
    apply tagRegex_inv in Hre as (Hi & Hn & He & Hgt). split; [|split].
    + apply guarded_cons; [done | done].
    + intros Habs. exfalso. apply Habs.
      apply list_elem_of_lookup. exists (e - 1 - pos).
      rewrite lookup_drop. replace (pos + (e - 1 - pos)) with (e - 1) by lia. done.
    + congruence.
Qed.

End MarkupFacts.

(** ** The fetched page *)

Module PageFacts.

Import Analyze.

Import Markup Replace ReplaceFacts Shape ShapeFacts Guard MarkupFacts TitleDef.

(** X6.  The text of a fetched page is at most 30000 characters of
    single-spaced text that does not open with white space; its title is
    trimmed. *)
Theorem page_text_shape (stripMarkup : jsstring -> jsstring)
        (titleMatch : jsstring -> option jsstring)
        (network : nat -> jsstring -> Network) (k : nat) (u : jsstring) :
  match Analyze.fetchPageContent stripMarkup titleMatch network k u with
  | Normal (Some page) =>
      length (text page) <= 30000
      /\ single_spaced (text page) /\ no_leading_space (text page)
      /\ no_leading_space (title page) /\ no_trailing_space (title page)
  | Normal None => True
  | Throw _ => False
  end.
Proof.
  unfold Analyze.fetchPageContent.
  destruct (axios_get _ (network k u)) as [data|e]; simpl; [|done].
  destruct (negb (data_truthy data)); simpl; [done|].
  split; [rewrite length_take; lia|].
  split; [|split].
  - apply single_spaced_take.
    destruct (trim_infix (collapse_spaces
                (stripMarkup match data with
                             | TextData s => s
                             | JsonData _ stringified _ => stringified
                             end))) as (a & b & Hab).
    apply (single_spaced_infix a _ b). rewrite <- Hab.
    apply collapse_from_single_spaced.
  - apply no_leading_take, trim_no_leading.
  - destruct (titleMatch _) as [t|].
    + split; [apply trim_no_leading | apply trim_no_trailing].
    + split; by intros c.
Qed.

(** An occurrence of a literal cuts the string in three. *)
Lemma ci_prefix_at_split (p s : jsstring) (i : nat) :
  ci_prefix_at p s i = true ->
  exists c, drop i s = c ++ drop (i + length p) s /\ ci_equal c p = true.
Proof.
  unfold ci_prefix_at. intros Hp.
  destruct (ci_prefix_take _ _ Hp) as (Hc & Hlen & _).
  exists (take (length p) (drop i s)). split.
  - rewrite <- drop_drop. by rewrite take_drop.
  - unfold ci_equal. rewrite Hc, Hlen. simpl. by apply Nat.eqb_eq.
Qed.

Lemma run_except_app (c : ascii) (a b : jsstring) :
  c ∉ a -> run_except c (a ++ c :: b) = length a.
Proof.
  induction a as [|x a IH]; simpl.
  - intros _. by rewrite bool_decide_eq_true_2.
  - intros [Hx Ha]%not_elem_of_cons. rewrite bool_decide_eq_false_2 by done.
    by rewrite IH.
Qed.

Lemma ci_lt_inv (x : ascii) : ci_eqb "<"%char x = true -> x = "<"%char.
Proof. destruct x as [[] [] [] [] [] [] [] []]; vm_compute; (done || by auto). Qed.

Lemma title_at_inv (html : jsstring) (i a b : nat) :
  title_at html i = Some (a, b) ->
  exists opening attrs closing post,
    title_element html (take i html) opening attrs (slice html a b) closing post.
Proof.
  unfold title_at.
  destruct (ci_prefix_at (lit "<title") html i) eqn:Hopen; [|done].
  set (n := run_except ">"%char (drop (i + 6) html)).
  destruct (html !! (i + 6 + n)) as [x|] eqn:Hx; [|done].
  set (j := i + 6 + n) in *.
  set (m := run_except "<"%char (drop (S j) html)).
  destruct (0 <? m) eqn:Hm; [|done]. cbn [andb].
  destruct (ci_prefix_at (lit "</title>") html (S j + m)) eqn:Hclose; [|done].
  intros [= <- <-]. apply Nat.ltb_lt in Hm.
  destruct (ci_prefix_at_split _ _ _ Hopen) as (opening & Ho & Hoeq).
  destruct (ci_prefix_at_split _ _ _ Hclose) as (closing & Hc & Hceq).
  destruct (run_except_spec ">"%char (drop (i + 6) html)) as (Hattrs & Hgt & _).
  fold n in Hattrs, Hgt. rewrite lookup_drop in Hgt. fold j in Hgt.
  assert (x = ">"%char) as -> by (destruct Hgt; congruence).
  destruct (run_except_spec "<"%char (drop (S j) html)) as (Ht & _ & Hle).
  fold m in Ht, Hle.
  assert (slice html (S j) (S (j + m)) = take m (drop (S j) html)) as ->.
  { unfold slice. f_equal. lia. }
  exists opening, (take n (drop (i + 6) html)), closing,
         (drop (S j + m + length (lit "</title>")) html).
  split; [|split; [done|split; [done|split; [|split; [done|done]]]]].
  - rewrite <- (take_drop i html) at 1. f_equal.
    rewrite Ho. f_equal. simpl length.
    rewrite <- (take_drop n (drop (i + 6) html)) at 1. f_equal.
    rewrite drop_drop. fold j.
    rewrite (drop_S html ">"%char j Hx). f_equal.
    rewrite <- (take_drop m (drop (S j) html)) at 1. f_equal.
    rewrite drop_drop. exact Hc.
  - intros Hnil. apply (f_equal length) in Hnil.
    rewrite length_take in Hnil. simpl in Hnil. lia.
Qed.

Lemma title_at_intro (html pre opening attrs t closing post : jsstring) :
  title_element html pre opening attrs t closing post ->
  is_Some (title_at html (length pre)).
Proof.
  intros (-> & [Hol Ho]%DetectorFacts.ci_equal_inv & Hattrs & Hne & Ht
          & [Hcl Hc]%DetectorFacts.ci_equal_inv).
  unfold title_at, ci_prefix_at. rewrite drop_app_length.
  rewrite (DetectorFacts.ci_prefix_extend _ opening _ Ho).
  simpl in Hol.
  assert (drop (length pre + 6) (pre ++ opening ++ attrs ++ ">"%char :: t ++ closing ++ post)
          = attrs ++ ">"%char :: t ++ closing ++ post) as Hd1.
  { rewrite drop_app_add'; [|done]. by rewrite drop_app_length'. }
  rewrite Hd1, (run_except_app _ _ _ Hattrs).
  assert ((pre ++ opening ++ attrs ++ ">"%char :: t ++ closing ++ post)
            !! (length pre + 6 + length attrs) = Some ">"%char) as Hgt.
  { rewrite <- Nat.add_assoc, <- lookup_drop, drop_app_length.
    rewrite <- lookup_drop, drop_app_length'; [|done].
    rewrite <- (Nat.add_0_r (length attrs)), <- lookup_drop, drop_app_length. done. }
  rewrite Hgt.
  assert (drop (S (length pre + 6 + length attrs))
               (pre ++ opening ++ attrs ++ ">"%char :: t ++ closing ++ post)
          = t ++ closing ++ post) as Hd2.
  { replace (S (length pre + 6 + length attrs))
      with (length pre + (6 + (length attrs + 1))) by lia.
    rewrite drop_app_add'; [|done]. rewrite drop_app_add'; [|done].
    rewrite drop_app_add'; [|done]. done. }
  rewrite Hd2.
  destruct closing as [|c0 closing]; [done|].
  assert (c0 = "<"%char) as ->.
  { simpl in Hc. apply andb_prop in Hc as [Hc _]. by apply ci_lt_inv. }
  change (("<"%char :: closing) ++ post) with ("<"%char :: closing ++ post) in *.
  rewrite (run_except_app _ _ _ Ht).
  assert ((0 <? length t) = true) as ->.
  { apply Nat.ltb_lt. destruct t; [done | simpl; lia]. }
  cbn [andb].
  assert (drop (S (length pre + 6 + length attrs) + length t)
               (pre ++ opening ++ attrs ++ ">"%char :: t ++ "<"%char :: closing ++ post)
          = ("<"%char :: closing) ++ post) as ->.
  { rewrite <- drop_drop, Hd2. by rewrite drop_app_length. }
  by rewrite (DetectorFacts.ci_prefix_extend _ _ post Hc).
Qed.

Lemma titleMatch_inv (html t : jsstring) :
  titleMatch html = Some t ->
  exists pre opening attrs closing post,
    title_element html pre opening attrs t closing post.
Proof.
  unfold titleMatch.
  destruct (head (omap (title_at html) (seq 0 (S (length html))))) as [[a b]|] eqn:Hhd;
    simpl; [|done].
  intros [= <-].
  apply head_Some_elem_of in Hhd.
  apply list_elem_of_omap in Hhd as (i & _ & Hi).
  destruct (title_at_inv html i a b Hi) as (opening & attrs & closing & post & H).
  by exists (take i html), opening, attrs, closing, post.
Qed.

Lemma titleMatch_none (html : jsstring) :
  titleMatch html = None ->
  forall pre opening attrs t closing post,
    ~ title_element html pre opening attrs t closing post.
Proof.
  unfold titleMatch.
  destruct (head (omap (title_at html) (seq 0 (S (length html))))) as [g|] eqn:Hhd;
    simpl; [done|].
  intros _ pre opening attrs t closing post H.
  destruct (title_at_intro _ _ _ _ _ _ _ H) as [g Hg].
  apply head_None in Hhd.
  assert (g ∈ omap (title_at html) (seq 0 (S (length html)))) as Hin.
  { apply list_elem_of_omap. exists (length pre). split; [|done].
    apply elem_of_seq. destruct H as (-> & _). rewrite length_app. lia. }
  rewrite Hhd in Hin. by apply elem_of_nil in Hin.
Qed.

(** X7.  The title of a page is the text of a title element; without such
    an element there is no title. *)
Theorem title_is_element_text (html : jsstring) :
  match titleMatch html with
  | Some t =>
      exists pre opening attrs closing post,
        title_element html pre opening attrs t closing post
  | None =>
      forall pre opening attrs t closing post,
        ~ title_element html pre opening attrs t closing post
  end.
Proof.
  destruct (titleMatch html) as [t|] eqn:Ht.
  - by apply titleMatch_inv.
  - by apply titleMatch_none.
Qed.

(** X8.  No tag is left in the text of a page, and no [<] in its title. *)
Theorem page_text_has_no_tag (network : nat -> jsstring -> Network)
        (k : nat) (u : jsstring) :
  match Analyze.fetchPageContent stripMarkup titleMatch network k u with
  | Normal (Some page) => tag_free (text page) /\ ("<"%char ∉ title page)
  | Normal None | Throw _ => True
  end.
Proof.
  unfold Analyze.fetchPageContent.
  destruct (axios_get _ (network k u)) as [data|e]; simpl; [|done].
  destruct (negb (data_truthy data)); simpl; [done|].
  set (html := match data with
               | TextData s => s
               | JsonData _ stringified _ => stringified
               end).
  split.
  - apply guarded_tag_free, guarded_take, guarded_trim, guarded_collapse.
    apply strip_tags_guarded.
  - destruct (titleMatch html) as [t|] eqn:Ht; [|apply not_elem_of_nil].
    destruct (titleMatch_inv html t Ht) as (pre & opening & attrs & closing & post & _ & _ & _ & _ & Hlt & _).
    destruct (trim_infix t) as (a & b & Hab). rewrite Hab in Hlt.
    intros Hin. apply Hlt. apply elem_of_app. right. apply elem_of_app. by left.
Qed.

End PageFacts.

(** ** The classifier and the analyze handler *)

Module ClassifierFacts.

Import Analyze.

Import Replace ReplaceFacts FindingDef.

Lemma index_of_spec (c : ascii) (s : jsstring) :
  match index_of c s with
  | Some i => s !! i = Some c /\ (c ∉ take i s)
  | None => c ∉ s
  end.
Proof.
  induction s as [|a s IH]; simpl; [apply not_elem_of_nil|].
  case_bool_decide as Ha; simpl.
  - subst a. split; [done | apply not_elem_of_nil].
  - destruct (index_of c s) as [i|]; simpl.
    + destruct IH as [IH1 IH2]. split; [done|].
      apply not_elem_of_cons. split; [congruence | done].
    + apply not_elem_of_cons. split; [congruence | done].
Qed.

Lemma last_index_of_spec (c : ascii) (s : jsstring) :
  match last_index_of c s with
  | Some j => s !! j = Some c /\ (c ∉ drop (S j) s)
  | None => c ∉ s
  end.
Proof.
  induction s as [|a s IH]; simpl; [apply not_elem_of_nil|].
  destruct (last_index_of c s) as [j|]; simpl.
  - done.
  - case_bool_decide as Ha; simpl.
    + subst a. split; [done | by rewrite drop_0].
    + apply not_elem_of_cons. split; [congruence | done].
Qed.

Lemma lookup_middle (a b : jsstring) (c : ascii) : (a ++ c :: b) !! length a = Some c.
Proof. by rewrite list_lookup_middle. Qed.

(** X9.  The object taken from a response runs from its first opening
    brace to the last closing brace behind it; a response without such a
    pair holds no object. *)
Theorem braces_span (response : jsstring) :
  match match_braces response with
  | Some m =>
      exists pre body post,
        response = pre ++ m ++ post
        /\ m = "{"%char :: body ++ ["}"%char]
        /\ ("{"%char ∉ pre) /\ ("}"%char ∉ post)
  | None =>
      forall pre body post,
        response <> pre ++ "{"%char :: body ++ "}"%char :: post
  end.
Proof.
  unfold match_braces.
  pose proof (index_of_spec "{"%char response) as Hi.
  destruct (index_of "{"%char response) as [i|]; simpl.
  - destruct Hi as [Hopen Hpre].
    pose proof (last_index_of_spec "}"%char (drop (S i) response)) as Hj.
    destruct (last_index_of "}"%char (drop (S i) response)) as [j|]; simpl.
    + destruct Hj as [Hclose Hpost].
      set (D := drop (S i) response) in *.
      exists (take i response), (take j D), (drop (S j) D).
      assert (slice response i (S (i + j + 1)) = "{"%char :: take j D ++ ["}"%char]) as Hm.
      { unfold slice. replace (S (i + j + 1) - i) with (S (S j)) by lia.
        rewrite (drop_S response "{"%char i Hopen). fold D. simpl. f_equal.
        by apply take_S_r. }
      rewrite Hm. split; [|done].
      rewrite <- (take_drop_middle response i "{"%char Hopen) at 1.
      f_equal. simpl. f_equal. fold D.
      rewrite <- (assoc_L (++)). simpl. symmetry. by apply take_drop_middle.
    + intros pre body post Heq.
      assert (i <= length pre) as Hle.
      { destruct (decide (i <= length pre)) as [|Hgt]; [done|]. exfalso.
        apply Hpre. apply list_elem_of_lookup. exists (length pre).
        rewrite lookup_take_lt by lia. rewrite Heq. apply lookup_middle. }
      apply Hj. apply list_elem_of_lookup. exists (length pre + length body - i).
      rewrite lookup_drop.
      replace (S i + (length pre + length body - i))
        with (length (pre ++ "{"%char :: body)) by (rewrite length_app; simpl; lia).
      rewrite Heq.
      replace (pre ++ "{"%char :: body ++ "}"%char :: post)
        with ((pre ++ "{"%char :: body) ++ "}"%char :: post)
        by (by rewrite <- (assoc_L (++))).
      apply lookup_middle.
  - intros pre body post ->. apply Hi.
    apply elem_of_app. right. apply list_elem_of_here.
Qed.

(** *** The fallback rewrite *)

Lemma word_alt_advances (w s : jsstring) (i e : nat) :
  w <> [] -> word_alt w s i = Some e -> i < e <= length s.
Proof.
  intros Hne [Hp ->]%DetectorFacts.word_alt_inv.
  apply ShapeFacts.ci_prefix_fits in Hp. destruct w; [done|]. simpl in *. lia.
Qed.

Lemma legacyRegex_advances (s : jsstring) : advances legacyRegex s.
Proof.
  intros i e. unfold legacyRegex. destruct (word_boundary s i); [|done].
  destruct (cougar_space_web s i) as [e'|] eqn:Hcw; cbn [first_match].
  - intros [= ->]. unfold cougar_space_web in Hcw.
    destruct (ci_prefix_at (lit "cougar") s i); [|done].
    apply DetectorFacts.first_match_map_inv in Hcw as (k & _ & Hw).
    apply word_alt_advances in Hw; [lia | done].
  - destruct (word_alt (lit "cougarweb") s i) as [e'|] eqn:H1.
    + intros [= ->]. by apply word_alt_advances in H1.
    + destruct (word_alt (lit "colleague") s i) as [e'|] eqn:H2; [|done].
      intros [= ->]. by apply word_alt_advances in H2.
Qed.

(** Replacing matches by a text that is not empty never empties a
    string. *)
Lemma replace_all_nonempty (re : matcher) (rep s : jsstring) :
  advances re s -> rep <> [] -> s <> [] -> replace_all re rep s <> [].
Proof.
  intros Hadv Hrep Hs. rewrite (rest_start re rep s).
  destruct s as [|c s']; [done|].
  destruct (re (c :: s') 0) as [e|] eqn:Hre.
  - rewrite (rest_replace re rep (c :: s') Hadv 0 e Hre). by destruct rep.
  - by rewrite (rest_keep re rep (c :: s') 0 c eq_refl Hre).
Qed.

(** *** Findings *)

Lemma truthy_or_else (a b : JSValue) : truthy b = true -> truthy (or_else a b) = true.
Proof. intros Hb. unfold or_else. by destruct (truthy a) eqn:Ha. Qed.

Lemma local_finding_filled (snip note : jsstring) : filled snip (local_finding snip note).
Proof.
  repeat split. simpl. intros Hne. apply negb_true_iff, bool_decide_eq_false.
  apply replace_all_nonempty; [apply legacyRegex_advances | done | done].
Qed.

Lemma parsed_finding_filled (snip : jsstring) parsed : filled snip (parsed_finding snip parsed).
Proof.
  unfold filled, parsed_finding.
  cbn [html_context primary_audience task_category reference_type workday_feature
       proposed_replacement suggested_keywords].
  split; [done|].
  split; [by apply truthy_or_else|]. split; [by apply truthy_or_else|].
  split; [by apply truthy_or_else|]. split; [by apply truthy_or_else|]. split.
  - intros Hne. apply truthy_or_else. cbn [truthy].
    by apply negb_true_iff, bool_decide_eq_false.
  - by destruct (isArray (get parsed (lit "suggested_keywords"))) eqn:Ha.
Qed.

Section Route.

Variable stripMarkup : jsstring -> jsstring.
Variable titleMatch : jsstring -> option jsstring.
Variable JSON_parse : jsstring -> Completion (list (jsstring * JSValue)).
Variable network : nat -> jsstring -> Network.
Variable chatCompletion : nat -> Prompt -> Completion jsstring.

Local Abbreviation fetchPageContent := (fetchPageContent stripMarkup titleMatch network).
Local Abbreviation analyzeSnippet := (analyzeSnippet JSON_parse chatCompletion).
Local Abbreviation analyzeSnippets := (analyzeSnippets JSON_parse chatCompletion).
Local Abbreviation analyzeUrls :=
  (analyzeUrls stripMarkup titleMatch JSON_parse network chatCompletion).
Local Abbreviation POST := (POST stripMarkup titleMatch JSON_parse network chatCompletion).

Lemma analyzeSnippet_filled k prompt snip :
  exists f, analyzeSnippet k prompt snip = Normal f /\ filled snip f.
Proof.
  unfold Analyze.analyzeSnippet.
  destruct (chatCompletion k prompt) as [response|e]; simpl.
  - destruct (match_braces response) as [jsonMatch|]; simpl.
    + destruct (JSON_parse jsonMatch) as [parsed|e]; simpl.
      * eexists. split; [done | apply parsed_finding_filled].
      * eexists. split; [done | apply local_finding_filled].
    + eexists. split; [done | apply local_finding_filled].
  - eexists. split; [done | apply local_finding_filled].
Qed.

(** The inner loop: one finding for each snippet, in order, and as many
    completion calls. *)
Lemma analyzeSnippets_filled body snippets calls found :
  exists fs,
    analyzeSnippets body calls snippets found
    = Normal (found ++ fs, calls + length snippets)
    /\ Forall2 (fun s f => filled (snippet s) f) snippets fs.
Proof.
  revert calls found. induction snippets as [|s rest IH]; intros calls found; simpl.
  - exists []. rewrite (right_id_L [] (++)), Nat.add_0_r. by split.
  - destruct (analyzeSnippet_filled calls (make_prompt body (snippet s)) (snippet s))
      as (f & -> & Hf). simpl.
    destruct (IH (S calls) (found ++ [f])) as (fs & -> & Hfs).
    exists (f :: fs). rewrite <- (assoc_L (++)). simpl.
    split; [do 2 f_equal; lia | by constructor].
Qed.

(** The outer loop: the [j]-th result is made from the [j]-th fetch. *)
Lemma analyzeUrls_pages body todo page calls results :
  exists rs,
    analyzeUrls body page calls todo results = Normal (results ++ rs)
    /\ length rs = length todo
    /\ (forall j r, rs !! j = Some r ->
          exists u o, todo !! j = Some u
                      /\ fetchPageContent (page + j) u = Normal o
                      /\ result_of o u r).
Proof.
  revert page calls results.
  induction todo as [|u rest IH]; intros page calls results; simpl.
  - exists []. rewrite (right_id_L [] (++)). split; [done|]. split; [done|].
    by intros j r.
  - assert (forall r calls' o,
               fetchPageContent page u = Normal o -> result_of o u r ->
               exists rs,
                 analyzeUrls body (S page) calls' rest (results ++ [r])
                 = Normal (results ++ rs)
                 /\ length rs = S (length rest)
                 /\ (forall j r', rs !! j = Some r' ->
                       exists u' o', (u :: rest) !! j = Some u'
                                     /\ fetchPageContent (page + j) u' = Normal o'
                                     /\ result_of o' u' r')) as Hnext.
    { intros r calls' o Hfetch Hr.
      destruct (IH (S page) calls' (results ++ [r])) as (rs & -> & Hlen & Hrs).
      exists (r :: rs). rewrite <- (assoc_L (++)). simpl.
      split; [done|]. split; [by rewrite Hlen|].
      intros [|j] r'; simpl.
      - intros [= <-]. exists u, o. by rewrite Nat.add_0_r.
      - intros Hj. destruct (Hrs j r' Hj) as (u' & o' & Hu' & Hf' & Hr').
        exists u', o'. split; [done|]. split; [|done].
        by rewrite <- Nat.add_succ_comm. }
    destruct (AnalyzeFacts.fetchPageContent_total stripMarkup titleMatch network page u)
      as [[content|] Hfetch]; rewrite Hfetch; simpl.
    + destruct (findLegacySnippets (html content) (text content)) as [|s ss] eqn:Hs.
      * simpl. apply (Hnext _ _ (Some content) Hfetch).
        split; [done|]. simpl. rewrite Hs. by repeat split.
      * simpl length. simpl Nat.eqb. cbv iota.
        destruct (analyzeSnippets_filled body (s :: ss) calls []) as (fs & -> & Hfs).
        simpl. apply (Hnext _ _ (Some content) Hfetch).
        split; [done|]. simpl. rewrite Hs. by repeat split.
    + apply (Hnext _ _ None Hfetch). by repeat split.
Qed.

(** X10.  Every finding the handler returns is complete, whatever the
    classifier answered: its context is a snippet of more than 20
    characters, its five descriptive fields are truthy and its keywords
    form an array. *)
Theorem findings_are_complete (body : Body) :
  match POST body with
  | Success results => Forall (fun r => Forall complete (findings r)) results
  | Failure _ _ => True
  end.
Proof.
  unfold Analyze.POST. destruct (urls body) as [[|u us]|]; [done| |done].
  destruct (500 <? length (u :: us)); [done|].
  destruct (analyzeUrls_pages body (u :: us) 0 0 []) as (rs & -> & _ & Hrs).
  simpl. apply Forall_lookup. intros j r Hj.
  destruct (Hrs j r Hj) as (u' & o & _ & _ & _ & Hr).
  destruct o as [content|]; [|destruct Hr as (_ & _ & ->); constructor].
  destruct Hr as (_ & _ & Hfs). simpl in Hfs.
  pose proof (DetectorInvariants.detector_forall
                (fun s => 20 < length (snippet s)) (html content) (text content)
                ltac:(by intros) ltac:(by intros)) as Hlong.
  revert Hlong. induction Hfs as [|s f ss fs Hf _ IH]; intros Hlong; [constructor|].
  apply Forall_cons in Hlong as [Hs Hss]. constructor; [|by apply IH].
  destruct Hf as (Hctx & H1 & H2 & H3 & H4 & H5 & H6).
  unfold complete. rewrite Hctx. repeat split; try done.
  apply H5. intros Hnil. rewrite Hnil in Hs. simpl in Hs. lia.
Qed.

(** X11.  The [k]-th result is made from the [k]-th page: its title, and one
    finding for each snippet of the detector, in order. *)
Theorem findings_follow_snippets (body : Body) :
  match POST body with
  | Success results =>
      forall k r, results !! k = Some r ->
        match fetchPageContent k (url r) with
        | Normal (Some content) =>
            let snippets := findLegacySnippets (html content) (text content) in
            pageTitle r = title content
            /\ hasLegacyReferences r = negb (length snippets =? 0)
            /\ map html_context (findings r) = map snippet snippets
        | Normal None => r = mkResult (url r) [] false []
        | Throw _ => False
        end
  | Failure _ _ => True
  end.
Proof.
  unfold Analyze.POST. destruct (urls body) as [[|u us]|]; [done| |done].
  destruct (500 <? length (u :: us)); [done|].
  destruct (analyzeUrls_pages body (u :: us) 0 0 []) as (rs & -> & _ & Hrs).
  simpl. intros k r Hk.
  destruct (Hrs k r Hk) as (u' & o & _ & Hfetch & <- & Hr).
  simpl in Hfetch. rewrite Hfetch.
  destruct o as [content|].
  - destruct Hr as (Ht & Hflag & Hfs). split; [done|]. split; [done|].
    simpl in Hfs. clear -Hfs.
    induction Hfs as [|s f ss fs Hf _ IH]; [done|].
    simpl. rewrite IH. destruct Hf as [-> _]. done.
  - destruct Hr as (Ht & Hflag & Hfs). destruct r; simpl in *. by subst.
Qed.

(** X12.  For a body of the expected types (a list of addresses, lists of
    keywords and of work stream areas) the handler refuses a request
    without addresses or with more than 500 of them, with status 400, and
    answers every other request with one result for each address; it
    never answers with status 500, whatever the network and the
    classifier do. *)
Theorem analyze_answers (body : Body) :
  match POST body with
  | Success results =>
      exists us, urls body = Some us /\ 1 <= length us <= 500
                 /\ length results = length us
  | Failure status error =>
      status = 400%Z
      /\ ((error = lit "urls array is required"
           /\ (urls body = None \/ urls body = Some []))
          \/ (error = lit "Maximum 500 URLs per request"
              /\ exists us, urls body = Some us /\ 500 < length us))
  end.
Proof.
  unfold Analyze.POST. destruct (urls body) as [[|u us]|] eqn:Hurls.
  - split; [done|]. left. split; [done | by right].
  - destruct (500 <? length (u :: us)) eqn:Hlen.
    + split; [done|]. right. split; [done|]. exists (u :: us).
      split; [done | by apply Nat.ltb_lt].
    + destruct (analyzeUrls_pages body (u :: us) 0 0 []) as (rs & -> & Hl & _).
      simpl. exists (u :: us). apply Nat.ltb_ge in Hlen. simpl in *.
      split; [done|]. split; [lia | done].
  - split; [done|]. left. split; [done | by left].
Qed.

End Route.

End ClassifierFacts.

(** ** The completion client *)

Module OpenAIFacts.

Import Analyze.

Import OpenAI Shape ShapeFacts.

Lemma keyless_throws (env : Env) :
  keyless env <-> getOpenAIClient env None = (None, Throw (ErrorObject key_error)).
Proof.
  unfold keyless, getOpenAIClient, nonempty.
  destruct (OPENAI_API_KEY env) as [rawKey|]; [|done].
  case_bool_decide as Hblank; simpl; [done|]. split; [done | by intros [=]].
Qed.

Lemma client_kept (env : nat -> Env) (start : option Client) (client : Client)
      (k n : nat) :
  client_before env start k = Some client -> k <= n ->
  client_before env start n = Some client.
Proof.
  intros Hk Hle. induction Hle as [|n Hle IH]; [done|]. simpl. by rewrite IH.
Qed.

Lemma client_before_cases (env : nat -> Env) (k : nat) :
  match client_before env None k with
  | Some client =>
      exists j rawKey,
        j < k /\ (forall i, i < j -> keyless (env i))
        /\ OPENAI_API_KEY (env j) = Some rawKey
        /\ apiKey client = trim rawKey /\ trim rawKey <> []
  | None => forall i, i < k -> keyless (env i)
  end.
Proof.
  induction k as [|k IH]; simpl; [intros i Hi; lia|].
  destruct (client_before env None k) as [client|] eqn:Hk; simpl.
  - destruct IH as (j & rawKey & Hj & Hrest). exists j, rawKey. split; [lia | done].
  - assert (keyless (env k) -> forall i, i < S k -> keyless (env i)) as Hall.
    { intros Hlast i Hi. destruct (decide (i = k)) as [->|Hne]; [done|].
      apply IH. lia. }
    unfold getOpenAIClient, nonempty.
    destruct (OPENAI_API_KEY (env k)) as [rawKey|] eqn:Hkey.
    + case_bool_decide as Hblank; simpl.
      * apply Hall. unfold keyless. by rewrite Hkey.
      * exists k, rawKey. repeat split; try done. lia.
    + simpl. apply Hall. unfold keyless. by rewrite Hkey.
Qed.

(** X13.  The client is made at the first call that finds a key which is not
    blank, with that key trimmed, and it serves every later call whatever
    the environment says then; until such a call, every call throws the
    key error and keeps nothing. *)
Theorem client_is_made_once (env : nat -> Env) (k : nat) :
  match client_before env None k with
  | Some client =>
      exists j rawKey,
        j < k /\ (forall i, i < j -> keyless (env i))
        /\ OPENAI_API_KEY (env j) = Some rawKey
        /\ apiKey client = trim rawKey /\ trim rawKey <> []
        /\ (forall n, k <= n ->
              getOpenAIClient (env n) (client_before env None n)
              = (Some client, Normal client))
  | None =>
      forall i, i < k ->
        getOpenAIClient (env i) (client_before env None i)
        = (None, Throw (ErrorObject key_error))
  end.
Proof.
  pose proof (client_before_cases env k) as Hcases.
  destruct (client_before env None k) as [client|] eqn:Hk.
  - destruct Hcases as (j & rawKey & Hj & Hfirst & Hkey & Hc & Hne).
    exists j, rawKey. repeat split; try done.
    intros n Hn. by rewrite (client_kept env None client k n Hk Hn).
  - intros i Hi.
    assert (client_before env None i = None) as ->.
    { destruct (client_before env None i) as [c|] eqn:Hc; [|done].
      rewrite (client_kept env None c i k Hc ltac:(lia)) in Hk. done. }
    apply keyless_throws. by apply Hcases.
Qed.

Lemma systemMessage_nonempty msgs context options text :
  systemMessage msgs context options = Some text -> nonempty text = true.
Proof.
  unfold systemMessage. destruct (_ && _); [done|].
  destruct context as [c|]; [destruct (nonempty c)|]; by intros [= <-].
Qed.

(** X14.  The request carries the caller's messages unchanged and in order,
    behind at most one system message of the module; that message is left
    out exactly when the caller brings a system message and asks to keep
    it. *)
Theorem request_keeps_messages (env : Env) (msgs : list Message)
        (context : option jsstring) (options : option Options) :
  let kept := existsb is_system msgs
              && match options with
                 | Some o => default false (preserveSystemMessage o)
                 | None => false
                 end in
  let r := request env msgs context options in
  (if kept then messages r = msgs
   else exists text, messages r = mkMessage system text :: msgs /\ text <> [])
  /\ model r <> [] /\ max_tokens r = 4000%Z.
Proof.
  intros kept r. split; [|split; [|done]].
  - unfold r, request, allMessages. simpl. unfold kept.
    destruct (systemMessage msgs context options) as [text|] eqn:Hsys.
    + pose proof (systemMessage_nonempty _ _ _ _ Hsys) as Hne. rewrite Hne.
      unfold systemMessage in Hsys. destruct (_ && _); [done|].
      exists text. split; [done|]. intros ->. done.
    + unfold systemMessage in Hsys. destruct (_ && _); [done|].
      destruct context as [c|]; [destruct (nonempty c)|]; done.
  - unfold r, request. simpl. destruct (OPENAI_MODEL env) as [m|]; [|done].
    unfold nonempty. case_bool_decide; simpl; done.
Qed.

Section Route.

Variable stripMarkup : jsstring -> jsstring.
Variable titleMatch : jsstring -> option jsstring.
Variable JSON_parse : jsstring -> Completion (list (jsstring * JSValue)).
Variable network : nat -> jsstring -> Network.
Variable service : nat -> Service.
Variable render : Prompt -> jsstring.

Lemma client_stays_unmade (env : nat -> Env) (k : nat) :
  (forall j, keyless (env j)) -> client_before env None k = None.
Proof.
  intros Hkey. induction k as [|k IH]; simpl; [done|]. rewrite IH.
  by rewrite (proj1 (keyless_throws (env k)) (Hkey k)).
Qed.

Lemma classify_without_key (env : nat -> Env) (k : nat) (prompt : Prompt) :
  (forall j, keyless (env j)) ->
  classify env None service render k prompt = Throw (ErrorObject key_error).
Proof.
  intros Hkey. unfold classify, chatCompletion.
  rewrite (client_stays_unmade env k Hkey).
  by rewrite (proj1 (keyless_throws (env k)) (Hkey k)).
Qed.

(** X15.  In a process that never has a key the analysis still succeeds,
    whatever the service would answer: every finding is the fallback one,
    with confidence [low] and the key error as its note. *)
Theorem analysis_without_key (env : nat -> Env) (body : Body) :
  (forall j, keyless (env j)) ->
  match POST stripMarkup titleMatch JSON_parse network
             (classify env None service render) body with
  | Success results =>
      Forall (fun r => Forall (fun f => f = local_finding (html_context f) key_error)
                              (findings r)) results
  | Failure status _ => status = 400%Z
  end.
Proof.
  intros Hkey.
  assert (forall k prompt snip,
             analyzeSnippet JSON_parse (classify env None service render) k prompt snip
             = Normal (local_finding snip key_error)) as Hone.
  { intros k prompt snip. unfold analyzeSnippet.
    by rewrite (classify_without_key env k prompt Hkey). }
  assert (forall snippets calls found,
             exists fs calls',
               analyzeSnippets JSON_parse (classify env None service render) body calls snippets found
               = Normal (found ++ fs, calls')
               /\ Forall (fun f => f = local_finding (html_context f) key_error) fs)
    as Hinner.
  { induction snippets as [|s rest IH]; intros calls found; simpl.
    - exists [], calls. by rewrite (right_id_L [] (++)).
    - rewrite Hone. simpl.
      destruct (IH (S calls) (found ++ [local_finding (snippet s) key_error]))
        as (fs & calls' & -> & Hfs).
      eexists (_ :: fs), calls'. rewrite <- (assoc_L (++)). simpl.
      split; [done|]. by constructor. }
  assert (forall todo page calls results,
             Forall (fun r => Forall (fun f => f = local_finding (html_context f) key_error)
                                     (findings r)) results ->
             exists rs,
               analyzeUrls stripMarkup titleMatch JSON_parse network
                 (classify env None service render) body page calls todo results = Normal rs
               /\ Forall (fun r => Forall (fun f => f = local_finding (html_context f) key_error)
                                          (findings r)) rs) as Houter.
  { induction todo as [|u rest IH]; intros page calls results Hres; simpl.
    - by exists results.
    - destruct (AnalyzeFacts.fetchPageContent_total stripMarkup titleMatch network page u)
        as [[content|] ->]; simpl.
      + destruct (length (findLegacySnippets (html content) (text content)) =? 0).
        * apply IH. apply Forall_app. split; [done|]. by repeat constructor.
        * destruct (Hinner (findLegacySnippets (html content) (text content)) calls [])
            as (fs & calls' & -> & Hfs). simpl.
          apply IH. apply Forall_app. split; [done|]. by repeat constructor.
      + apply IH. apply Forall_app. split; [done|]. by repeat constructor. }
  unfold POST. destruct (urls body) as [[|u us]|]; [done| |done].
  destruct (500 <? length (u :: us)); [done|].
  destruct (Houter (u :: us) 0 0 [] ltac:(constructor)) as (rs & -> & Hrs). done.
Qed.

End Route.

Lemma analysis_without_key_witness :
  let env := fun _ : nat => mkEnv (Some (lit "  ")) None in
  let body := mkBody (Some [lit "https://example.edu"]) [] [] in
  let site := Sample.uniform_site
                (lit "<p>Log in to CougarWeb to register for classes.</p>") in
  (forall j, keyless (env j))
  /\ match POST Markup.stripMarkup Markup.titleMatch (fun _ => Normal []) site
                (classify env None (fun _ _ _ => Normal []) (fun p => prompt_snippet p))
                body with
     | Success results =>
         Forall (fun r => Forall (fun f => f = local_finding (html_context f) key_error)
                                 (findings r)) results
     | Failure status _ => status = 400%Z
     end.
Proof.
  intros env body site.
  assert (forall j, keyless (env j)) as Hkey by (intros j; reflexivity).
  split; [exact Hkey|].
  exact (analysis_without_key Markup.stripMarkup Markup.titleMatch (fun _ => Normal [])
           site (fun _ _ _ => Normal []) (fun p => prompt_snippet p) env body Hkey).
Defined.

End OpenAIFacts.

(** ** Link extraction *)

Module LinkFacts.

Import Scan LinkShape.

Lemma unquoted_run_spec (t : jsstring) :
  forallb (fun c => negb (is_quote c)) (take (unquoted_run t) t) = true.
Proof.
  induction t as [|c t IH]; simpl; [done|].
  destruct (is_quote c) eqn:Hc; simpl; [done|]. by rewrite Hc.
Qed.

Lemma hrefRegex_inv (s : jsstring) (i e : nat) :
  hrefRegex s i = Some e -> href_attribute s (href_group s (i, e)).
Proof.
  unfold hrefRegex.
  destruct (ci_prefix_at (lit "href=") s i) eqn:Hname; [|done].
  destruct (s !! (i + 5)) as [q|] eqn:Hq; [|done].
  destruct (is_quote q) eqn:Hqq; [|done].
  set (n := unquoted_run (drop (i + 6) s)).
  destruct (s !! (i + 6 + n)) as [q'|] eqn:Hq'; [|done].
  destruct (0 <? n) eqn:Hn; [|done]. cbn [andb].
  destruct (is_quote q') eqn:Hqq'; [|done].
  intros [= <-]. apply Nat.ltb_lt in Hn.
  destruct (PageFacts.ci_prefix_at_split _ _ _ Hname) as (name & Hsplit & Hceq).
  assert (href_group s (i, i + 6 + n + 1) = take n (drop (i + 6) s)) as ->.
  { unfold href_group, slice. simpl. f_equal. lia. }
  exists (take i s), name, q, q', (drop (i + 6 + n + 1) s).
  split; [|split; [done|split; [done|split; [done|split]]]].
  - rewrite <- (take_drop i s) at 1. f_equal. rewrite Hsplit. f_equal.
    simpl length. rewrite (drop_S s q (i + 5) Hq). f_equal.
    replace (S (i + 5)) with (i + 6) by lia.
    rewrite <- (take_drop n (drop (i + 6) s)) at 1. f_equal.
    rewrite drop_drop. rewrite (drop_S s q' (i + 6 + n) Hq'). f_equal. f_equal. lia.
  - intros Hnil. apply (f_equal length) in Hnil. rewrite length_take in Hnil.
    apply lookup_lt_Some in Hq'. rewrite length_drop in Hnil. simpl in Hnil. lia.
  - apply unquoted_run_spec.
Qed.

Lemma endsWith_inv (s p : jsstring) :
  endsWith s p = true -> exists a, s = a ++ p.
Proof.
  unfold endsWith. intros H%SampleFacts.startsWith_split.
  exists (reverse (drop (length (reverse p)) (reverse s))).
  apply (f_equal reverse) in H. rewrite reverse_involutive in H.
  rewrite H at 1. by rewrite reverse_app, reverse_involutive.
Qed.

Section Route.

Variable parse : jsstring -> option URL.
Variable parse_relative : jsstring -> jsstring -> option URL.

Local Abbreviation site_link := (site_link parse parse_relative).

Lemma link_body_spec (html baseUrl : jsstring) (baseUrlObj : URL)
      (links : list jsstring) (h : jsstring) :
  href_attribute html h ->
  NoDup links /\ Forall (site_link html baseUrl baseUrlObj) links ->
  NoDup (link_body parse parse_relative baseUrlObj baseUrl links h)
  /\ Forall (site_link html baseUrl baseUrlObj)
            (link_body parse parse_relative baseUrlObj baseUrl links h).
Proof.
  intros Hh [Hnd Hall]. unfold link_body. fold (skipped h).
  destruct (skipped h) eqn:Hskip; [done|].
  destruct (resolve_link parse parse_relative baseUrlObj baseUrl h) as [linkUrl|] eqn:Hres;
    [|done].
  destruct (bool_decide (hostname linkUrl = hostname baseUrlObj)
            || endsWith (hostname linkUrl) (lit "." ++ hostname baseUrlObj)) eqn:Hsite;
    [|done].
  destruct (includes links (strip_slash (href (clear_hash linkUrl)))) eqn:Hinc; simpl;
    [done|].
  split.
  - apply NoDup_app. split; [done|]. split; [|apply NoDup_singleton].
    intros x Hx [= ->]%list_elem_of_singleton.
    assert (includes links (strip_slash (href (clear_hash linkUrl))) = true) as Hyes.
    { apply existsb_exists. exists (strip_slash (href (clear_hash linkUrl))).
      split; [by apply list_elem_of_In | by apply bool_decide_eq_true]. }
    congruence.
  - apply Forall_app. split; [done|]. constructor; [|done].
    exists h, linkUrl. split; [done|]. split; [done|]. split; [done|].
    split; [|by rewrite UrlFacts.href_clear_hash].
    apply orb_prop in Hsite as [Heq%bool_decide_eq_true|Hsub]; [by left|].
    right. apply endsWith_inv in Hsub as [sub ->]. by exists sub.
Qed.

(** X16.  The links of a page are pairwise distinct; each is the canonical
    form of an address on the site of the page, which an [href] attribute
    of the page resolves to, and none comes from a [javascript:],
    [mailto:], [tel:] or fragment-only attribute.  The function throws
    exactly for a base address that does not parse. *)
Theorem extracted_links_are_site_links (html baseUrl : jsstring) :
  match extractLinks parse parse_relative html baseUrl with
  | Normal links =>
      NoDup links
      /\ exists baseUrlObj,
          parse baseUrl = Some baseUrlObj
          /\ Forall (site_link html baseUrl baseUrlObj) links
  | Throw _ => parse baseUrl = None
  end.
Proof.
  unfold extractLinks. destruct (parse baseUrl) as [baseUrlObj|]; [|done].
  assert (forall ms links,
             Forall (fun m => hrefRegex html m.1 = Some m.2) ms ->
             NoDup links /\ Forall (site_link html baseUrl baseUrlObj) links ->
             NoDup (foldl (link_body parse parse_relative baseUrlObj baseUrl) links
                          (map (href_group html) ms))
             /\ Forall (site_link html baseUrl baseUrlObj)
                       (foldl (link_body parse parse_relative baseUrlObj baseUrl) links
                              (map (href_group html) ms))) as Hloop.
  { induction ms as [|[i e] ms IH]; intros links Hms Hlinks; simpl; [done|].
    apply Forall_cons in Hms as [Hm Hms]. simpl in Hm.
    apply IH; [done|]. apply link_body_spec; [|done]. by apply hrefRegex_inv. }
  destruct (Hloop (exec_all hrefRegex html) []) as [Hnd Hall].
  - apply Forall_forall. intros [i e] Hin. simpl.
    by apply DetectorFacts.exec_all_match.
  - split; constructor.
  - split; [done|]. by exists baseUrlObj.
Qed.

End Route.

End LinkFacts.

(** ** Order of a crawl *)

Module TurnFacts.

Import Scan CrawlShape.

Section Turn.

Variable parse : jsstring -> option URL.
Variable maxDepth : Num.number.
Variable step : State -> Turn.
Hypothesis Hshape : turn_shape parse maxDepth step.

Lemma turn_coherent (st : State) : coherent st -> coherent (target (step st)).
Proof.
  intros (Hnd & Hvis & Hreq).
  destruct (Hshape st) as [->|(item & rest & Hq & [->|(n & more & Hn & Hfresh & Hd
                                   & Hv' & Hu' & Hq' & Hmore & Hr')])]; [done|done|].
  unfold coherent. rewrite Hv', Hu', map_app. simpl. split; [|split].
  - apply NoDup_app. split; [done|]. split; [|apply NoDup_singleton].
    intros x Hx [= ->]%list_elem_of_singleton. by apply Hfresh, Hvis.
  - intros u. rewrite elem_of_union, elem_of_singleton, elem_of_app, list_elem_of_singleton.
    rewrite Hvis. tauto.
  - destruct Hr' as [-> | ->].
    + by apply sublist_inserts_r.
    + by apply sublist_app.
Qed.

Lemma turn_breadth_first (st : State) : breadth_first st -> breadth_first (target (step st)).
Proof.
  intros (Hsorted & Hpos & Hspan).
  destruct (Hshape st) as [->|(item & rest & Hq & [->|(n & more & Hn & Hfresh & Hd
                                   & Hv' & Hu' & Hq' & Hmore & Hr')])]; [done| |].
  - (* the head of the queue is dropped *)
    rewrite Hq in *. unfold breadth_first. simpl.
    rewrite map_app in Hsorted. simpl in Hsorted.
    apply StronglySorted_app in Hsorted as (Hcross & Hs1 & Hs2).
    apply StronglySorted_inv in Hs2 as [Hs2 Hitem].
    apply Forall_app in Hpos as [Hp1 Hp2]. apply Forall_cons in Hp2 as [Hp0 Hp2].
    specialize (Hspan item eq_refl). apply Forall_cons in Hspan as [_ Hspan].
    split; [|split].
    + rewrite map_app. apply StronglySorted_app. split; [|done].
      intros x1 x2 H1 H2. apply Hcross; [done|]. by apply list_elem_of_further.
    + by apply Forall_app.
    + intros h Hh. eapply Forall_impl; [exact Hspan|]. simpl. intros q Hle.
      assert (depth h ∈ map depth rest) as Hin.
      { destruct rest as [|h' rest']; [done|]. injection Hh as ->. apply list_elem_of_here. }
      rewrite Forall_forall in Hitem. specialize (Hitem _ Hin). lia.
  - (* the head is recorded, entries of the next depth are queued *)
    rewrite Hq in *. unfold breadth_first. rewrite Hu', Hq'.
    rewrite map_app in Hsorted. simpl in Hsorted.
    apply StronglySorted_app in Hsorted as (Hcross & Hs1 & Hs2).
    apply StronglySorted_inv in Hs2 as [Hs2 Hitem].
    apply Forall_app in Hpos as [Hp1 Hp2]. apply Forall_cons in Hp2 as [Hp0 Hp2].
    specialize (Hspan item eq_refl). apply Forall_cons in Hspan as [_ Hspan].
    assert (Forall (fun x => x = (depth item + 1)%Z) (map depth more)) as Hmore'.
    { apply Forall_fmap. exact Hmore. }
    split; [|split].
    + rewrite <- (assoc_L (++)), !map_app. simpl.
      apply StronglySorted_app. split; [|split; [done|]].
      * intros x1 x2 H1 H2.
        assert (x1 <= depth item)%Z as Hx1.
        { apply Hcross; [done|]. apply list_elem_of_here. }
        apply elem_of_cons in H2 as [->|H2]; [done|].
        apply elem_of_app in H2 as [H2|H2].
        -- apply Hcross; [done|]. by apply list_elem_of_further.
        -- rewrite Forall_forall in Hmore'. rewrite (Hmore' _ H2). lia.
      * apply SSorted_cons.
        -- apply StronglySorted_app. split; [|split; [done|]].
           ++ intros x1 x2 H1 H2.
              rewrite Forall_forall in Hmore'. rewrite (Hmore' _ H2).
              apply list_elem_of_fmap in H1 as (q & -> & Hqin).
              rewrite Forall_forall in Hspan. by apply Hspan.
           ++ clear -Hmore'. induction Hmore' as [|x l Hx Hl IH]; [constructor|].
              apply SSorted_cons; [done|].
              eapply Forall_impl; [exact Hl|]. simpl. intros y ->. lia.
        -- apply Forall_app. split; [done|].
           eapply Forall_impl; [exact Hmore'|]. simpl. intros y ->. lia.
    + rewrite <- (assoc_L (++)). apply Forall_app. split; [done|]. simpl.
      constructor; [done|]. apply Forall_app. split; [done|].
      eapply Forall_impl; [exact Hmore|]. simpl. intros q ->. lia.
    + intros h Hh. apply Forall_app.
      destruct rest as [|h' rest'].
      * simpl in Hh. split; [constructor|].
        eapply Forall_impl; [exact Hmore|]. simpl. intros q ->.
        destruct more as [|m more']; [done|]. injection Hh as <-.
        apply Forall_cons in Hmore as [-> _]. lia.
      * simpl in Hh. injection Hh as <-.
        apply Forall_cons in Hitem as [Hle _]. split.
        -- eapply Forall_impl; [exact Hspan|]. simpl. intros q Hq0. lia.
        -- eapply Forall_impl; [exact Hmore|]. simpl. intros q ->. lia.
Qed.

Lemma turn_rooted (startUrl : jsstring) (st : State) :
  rooted parse startUrl st -> rooted parse startUrl (target (step st)).
Proof.
  intros Hroot.
  destruct (Hshape st) as [->|(item & rest & Hq & [->|(n & more & Hn & Hfresh & Hd
                                   & Hv' & Hu' & Hq' & Hmore & Hr')])]; [done| |].
  - destruct Hroot as [[Hu Hqs]|(n & rest' & Hn & Hu)].
    + left. simpl. split; [done|]. left.
      destruct Hqs as [Hqs|Hqs]; rewrite Hqs in Hq; [done|]. by injection Hq as _ <-.
    + right. by exists n, rest'.
  - destruct Hroot as [[Hu Hqs]|(n0 & rest' & Hn0 & Hu)].
    + right. destruct Hqs as [Hqs|Hqs]; rewrite Hqs in Hq; [done|].
      injection Hq as <- <-. simpl in *. exists n, []. by rewrite Hu', Hu.
    + right. exists n0, (rest' ++ [mkURLData n (depth item)]). by rewrite Hu', Hu.
Qed.

End Turn.

End TurnFacts.

Module CrawlOrder.

Import Scan CrawlShape.

Section Route.

Variable parse : jsstring -> option URL.
Variable parse_relative : jsstring -> jsstring -> option URL.
Variable network : nat -> jsstring -> Network.
Variables maxUrls maxDepth : Num.number.

Local Abbreviation expand := (expand parse parse_relative network maxUrls maxDepth).
Local Abbreviation step := (step parse parse_relative network maxUrls maxDepth).
Local Abbreviation run := (run parse parse_relative network maxUrls maxDepth).

(** What the second half of a turn does: it adds entries of the next
    depth to the end of the queue, and at most one request. *)
Lemma expand_cases (st : State) (n : jsstring) (d : Z) :
  visited (target (expand st n d)) = visited st
  /\ urls (target (expand st n d)) = urls st
  /\ (exists more, queue (target (expand st n d)) = queue st ++ more
                   /\ Forall (fun q => depth q = (d + 1)%Z) more)
  /\ (requests (target (expand st n d)) = requests st
      \/ requests (target (expand st n d)) = requests st ++ [n]).
Proof.
  assert (forall s : State, exists more,
             queue s = queue s ++ more
             /\ Forall (fun q => depth q = (d + 1)%Z) more) as Hsame.
  { intros s. exists []. by rewrite (right_id_L [] (++)). }
  unfold Scan.expand.
  destruct (Num.lt (Num.of_Z d) maxDepth && under (length (urls st)) maxUrls);
    [|simpl; split; [done|]; split; [done|]; split; [apply Hsame | by left]].
  destruct (fetchPage network (length (requests st)) n) as [[data|]|e]; simpl;
    [|split; [done|]; split; [done|]; split; [apply Hsame | by right]..].
  destruct (data_truthy data);
    [|simpl; split; [done|]; split; [done|]; split; [apply Hsame | by right]].
  destruct (extractLinks parse parse_relative (as_text data) n); simpl;
    [|split; [done|]; split; [done|]; split; [apply Hsame | by right]].
  split; [done|]. split; [done|]. split; [|by right]. eexists. split; [done|].
  apply Forall_forall. intros q Hq. apply list_elem_of_fmap in Hq as (link & -> & _). done.
Qed.

(** The three kinds of turn: stop; drop the head of the queue; record the
    head of the queue and look for its links. *)
Lemma step_cases : turn_shape parse maxDepth step.
Proof.
  intros st. unfold Scan.step. destruct (queue st) as [|item rest] eqn:Hq; [by left|].
  destruct (under (length (urls st)) maxUrls) eqn:Hu; simpl; [|by left].
  right. exists item, rest. split; [done|].
  destruct (normalizeUrl parse (url item)) as [n|] eqn:Hn; [|by left].
  case_bool_decide as Hv; simpl; [by left|].
  destruct (Num.gt (Num.of_Z (depth item)) maxDepth) eqn:Hd; [by left|].
  right.
  match goal with |- context [Scan.expand _ _ _ _ _ ?s n _] => set (st1 := s) end.
  destruct (expand_cases st1 n (depth item)) as (Hvis & Hurls & (more & Hqueue & Hmore) & Hreq).
  exists n, more. by repeat split.
Qed.

Lemma run_orderly (startUrl : jsstring) (fuel : nat) (st : State) :
  coherent st -> breadth_first st -> rooted parse startUrl st ->
  orderly parse startUrl (run fuel st).
Proof.
  intros Hc Hb Hr.
  destruct (run fuel st) as [[final out]|] eqn:Hrun; [|done].
  destruct (CrawlFacts.run_invariant parse parse_relative network maxUrls maxDepth
              (fun s => coherent s /\ breadth_first s /\ rooted parse startUrl s)
              ltac:(intros s (? & ? & ?); split; [by apply (TurnFacts.turn_coherent parse maxDepth step step_cases)|
                      split; [by apply (TurnFacts.turn_breadth_first parse maxDepth step step_cases) | by apply (TurnFacts.turn_rooted parse maxDepth step step_cases)]])
              fuel st final out ltac:(done) Hrun) as [(Hc' & Hb' & Hr') Hout].
  destruct out as [found|e]; [|done]. rewrite (Hout found eq_refl). simpl.
  destruct Hc' as (Hnd & _ & Hreq). destruct Hb' as (Hsorted & Hpos & _).
  split; [done|]. split; [done|].
  rewrite map_app in Hsorted. apply StronglySorted_app_1_l in Hsorted.
  apply Forall_app in Hpos as [Hpos _].
  split; [done|]. split; [done|].
  destruct Hr' as [[-> _]|(n & rest & Hn & ->)]; [done | done].
Qed.

End Route.

End CrawlOrder.

Module CrawlExcludeOrder.

Import ScanExclude CrawlShape.

Section Route.

Variable parse : jsstring -> option URL.
Variable parse_relative : jsstring -> jsstring -> option URL.
Variable network : nat -> jsstring -> Network.
Variables maxUrls maxDepth : Num.number.
Variable excludeSet : gset jsstring.

Local Abbreviation expand :=
  (expand parse parse_relative network maxUrls maxDepth excludeSet).
Local Abbreviation step :=
  (step parse parse_relative network maxUrls maxDepth excludeSet).
Local Abbreviation run :=
  (run parse parse_relative network maxUrls maxDepth excludeSet).

Lemma enqueue_loop (st : State) (d : Z) (links : list jsstring) (q : list URLData) :
  exists more,
    foldl (enqueue parse maxUrls excludeSet st d) q links = q ++ more
    /\ Forall (fun x => depth x = (d + 1)%Z) more.
Proof.
  revert q. induction links as [|link links IH]; intros q; simpl.
  - exists []. by rewrite (right_id_L [] (++)).
  - unfold enqueue at 2.
    destruct (normalizeUrl parse link) as [norm|]; [|apply IH].
    destruct (wanted maxUrls excludeSet st norm); [|apply IH].
    destruct (IH (q ++ [mkURLData norm (d + 1)])) as (more & -> & Hmore).
    exists (mkURLData norm (d + 1) :: more). rewrite <- (assoc_L (++)).
    split; [done|]. by constructor.
Qed.

Lemma expand_excl_cases (st : State) (n : jsstring) (d : Z) :
  visited (target (expand st n d)) = visited st
  /\ urls (target (expand st n d)) = urls st
  /\ (exists more, queue (target (expand st n d)) = queue st ++ more
                   /\ Forall (fun q => depth q = (d + 1)%Z) more)
  /\ (requests (target (expand st n d)) = requests st
      \/ requests (target (expand st n d)) = requests st ++ [n]).
Proof.
  assert (forall s : State, exists more,
             queue s = queue s ++ more
             /\ Forall (fun q => depth q = (d + 1)%Z) more) as Hsame.
  { intros s. exists []. by rewrite (right_id_L [] (++)). }
  unfold ScanExclude.expand.
  destruct (Num.lt (Num.of_Z d) maxDepth && Scan.under (length (urls st)) maxUrls);
    [|simpl; split; [done|]; split; [done|]; split; [apply Hsame | by left]].
  destruct (Scan.fetchPage network (length (requests st)) n) as [[data|]|e]; simpl;
    [|split; [done|]; split; [done|]; split; [apply Hsame | by right]..].
  destruct (data_truthy data);
    [|simpl; split; [done|]; split; [done|]; split; [apply Hsame | by right]].
  destruct (Scan.extractLinks parse parse_relative (Scan.as_text data) n); simpl;
    [|split; [done|]; split; [done|]; split; [apply Hsame | by right]].
  split; [done|]. split; [done|]. split; [|by right]. apply enqueue_loop.
Qed.

Lemma step_excl_cases : turn_shape parse maxDepth step.
Proof.
  intros st. unfold ScanExclude.step. destruct (queue st) as [|item rest] eqn:Hq; [by left|].
  destruct (Scan.under (length (urls st)) maxUrls) eqn:Hu; simpl; [|by left].
  right. exists item, rest. split; [done|].
  destruct (normalizeUrl parse (url item)) as [n|] eqn:Hn; [|by left].
  destruct (nonempty n); simpl; [|by left].
  case_bool_decide as Hv; simpl; [by left|].
  destruct (Num.gt (Num.of_Z (depth item)) maxDepth) eqn:Hd; simpl; [by left|].
  case_bool_decide as Hex; [by left|]. right.
  match goal with |- context [ScanExclude.expand _ _ _ _ _ _ ?s n _] => set (st1 := s) end.
  destruct (expand_excl_cases st1 n (depth item))
    as (Hvis & Hurls & (more & Hqueue & Hmore) & Hreq).
  exists n, more. by repeat split.
Qed.

Lemma run_excl_orderly (startUrl : jsstring) (fuel : nat) (st : State) :
  coherent st -> breadth_first st -> rooted parse startUrl st ->
  orderly parse startUrl (run fuel st).
Proof.
  intros Hc Hb Hr.
  destruct (run fuel st) as [[final out]|] eqn:Hrun; [|done].
  destruct (CrawlExcludeFacts.run_excl_invariant parse parse_relative network
              maxUrls maxDepth excludeSet
              (fun s => coherent s /\ breadth_first s /\ rooted parse startUrl s)
              ltac:(intros s (? & ? & ?); split;
                    [by apply (TurnFacts.turn_coherent parse maxDepth step step_excl_cases)|
                      split; [by apply (TurnFacts.turn_breadth_first parse maxDepth step
                                          step_excl_cases)
                             | by apply (TurnFacts.turn_rooted parse maxDepth step
                                           step_excl_cases)]])
              fuel st final out ltac:(done) Hrun) as [(Hc' & Hb' & Hr') Hout].
  destruct out as [found|e]; [|done]. rewrite (Hout found eq_refl). simpl.
  destruct Hc' as (Hnd & _ & Hreq). destruct Hb' as (Hsorted & Hpos & _).
  split; [done|]. split; [done|].
  rewrite map_app in Hsorted. apply StronglySorted_app_1_l in Hsorted.
  apply Forall_app in Hpos as [Hpos _].
  split; [done|]. split; [done|].
  destruct Hr' as [[-> _]|(n & rest & Hn & ->)]; [done | done].
Qed.

End Route.

End CrawlExcludeOrder.

Module CrawlOrderClaims.

Import CrawlShape.

Lemma start_shapes (startUrl : jsstring) :
  coherent (Scan.start startUrl) /\ breadth_first (Scan.start startUrl).
Proof.
  split.
  - split; [constructor|]. split; [|constructor]. intros u. simpl. set_solver.
  - split; [|split]; simpl.
    + by repeat constructor.
    + by repeat constructor.
    + intros h [= <-]. repeat constructor. simpl. lia.
Qed.

(** X17.  A crawl lists no address twice; it requests only addresses it
    lists, each at most once and in the order of the list.  Depths never
    decrease along the list and none is negative.  The list of the route
    without [excludeUrls] opens, at depth 0, with the canonical form of the
    start address.  The route with [excludeUrls] canonicalises twice: its
    list opens with the canonical form of [startNormalized], which is
    itself the canonical form of the start address with its scheme; the
    two differ for a start address that ends in several slashes. *)
Theorem crawl_is_orderly (parse : jsstring -> option URL)
        (parse_relative : jsstring -> jsstring -> option URL)
        (network : nat -> jsstring -> Network) (fuel : nat) (startUrl : jsstring)
        (maxUrls maxDepth : Num.number) (excludeUrls : list jsstring) :
  orderly parse startUrl
    (Scan.crawlWebsite parse parse_relative network fuel startUrl maxUrls maxDepth)
  /\ match normalizeUrl parse (with_scheme startUrl) with
     | Some startNormalized =>
         orderly parse startNormalized
           (ScanExclude.crawlWebsite parse parse_relative network fuel startUrl
              maxUrls maxDepth excludeUrls)
     | None =>
         ScanExclude.crawlWebsite parse parse_relative network fuel startUrl
           maxUrls maxDepth excludeUrls
         = Some (ScanExclude.idle, Normal [])
     end.
Proof.
  split.
  - unfold Scan.crawlWebsite.
    destruct (start_shapes startUrl) as [Hc Hb].
    apply CrawlOrder.run_orderly; [done|done|]. left. split; [done | by right].
  - unfold ScanExclude.crawlWebsite.
    destruct (normalizeUrl parse (with_scheme startUrl)) as [s|]; [|done].
    destruct (nonempty s).
    + destruct (start_shapes s) as [Hc Hb].
      apply CrawlExcludeOrder.run_excl_orderly; [done|done|]. left. split; [done | by right].
    + simpl. repeat split; constructor.
Qed.

End CrawlOrderClaims.

(** ** The scan handler *)

Module HandlerFacts.

Import Scan CrawlShape HandlerShape.

Section Route.

Variable parse : jsstring -> option URL.
Variable parse_relative : jsstring -> jsstring -> option URL.
Variable network : nat -> jsstring -> Network.
Variables maxUrls maxDepth : Num.number.
Hypothesis Hcanon : canon_parses parse.

Lemma fetchPage_normal (k : nat) (u : jsstring) :
  exists r, fetchPage network k u = Normal r.
Proof.
  unfold fetchPage. destruct (network k u) as [msg| |status data]; simpl; [by eexists..|].
  destruct (status_2xx status); by eexists.
Qed.

Lemma extractLinks_normal (html n : jsstring) :
  is_Some (parse n) -> exists links, extractLinks parse parse_relative html n = Normal links.
Proof. intros [u Hu]. unfold extractLinks. rewrite Hu. by eexists. Qed.

Lemma normalizeUrl_parses (x n : jsstring) :
  normalizeUrl parse x = Some n -> is_Some (parse n).
Proof.
  unfold normalizeUrl. destruct (parse x) as [u|] eqn:Hx; [|done]. simpl.
  intros [= <-]. rewrite UrlFacts.href_clear_hash. by apply (Hcanon x).
Qed.

Lemma expand_continues (st : State) (n : jsstring) (d : Z) :
  is_Some (parse n) ->
  exists st', Scan.expand parse parse_relative network maxUrls maxDepth st n d = Continue st'.
Proof.
  intros Hn. unfold Scan.expand.
  destruct (Num.lt (Num.of_Z d) maxDepth && under (length (urls st)) maxUrls); [|by eexists].
  destruct (fetchPage_normal (length (requests st)) n) as [[data|] ->]; [|by eexists].
  destruct (data_truthy data); [|by eexists].
  destruct (extractLinks_normal (as_text data) n Hn) as [links ->]. by eexists.
Qed.

Lemma step_never_raises (st : State) (st' : State) (e : Thrown) :
  Scan.step parse parse_relative network maxUrls maxDepth st <> Raise st' e.
Proof.
  unfold Scan.step. destruct (queue st) as [|item rest]; [done|].
  destruct (negb _); [done|].
  destruct (normalizeUrl parse (url item)) as [n|] eqn:Hn; [|done].
  destruct (_ || _); [done|].
  match goal with |- context [Scan.expand _ _ _ _ _ ?s n _] => set (st1 := s) end.
  destruct (expand_continues st1 n (depth item) (normalizeUrl_parses _ _ Hn)) as [s ->].
  done.
Qed.

Lemma run_never_throws (fuel : nat) (st final : State) out :
  Scan.run parse parse_relative network maxUrls maxDepth fuel st = Some (final, out) ->
  out = Normal (urls final).
Proof.
  revert st. induction fuel as [|fuel IH]; intros st; [done|].
  rewrite CrawlFacts.run_unfold.
  destruct (Scan.step parse parse_relative network maxUrls maxDepth st)
    as [st'|st'|st' e] eqn:Hstep.
  - apply IH.
  - by intros [= <- <-].
  - by apply step_never_raises in Hstep.
Qed.

Variable excludeSet : gset jsstring.

Lemma expand_excl_continues (st : State) (n : jsstring) (d : Z) :
  is_Some (parse n) ->
  exists st', ScanExclude.expand parse parse_relative network maxUrls maxDepth
                excludeSet st n d = Continue st'.
Proof.
  intros Hn. unfold ScanExclude.expand.
  destruct (Num.lt (Num.of_Z d) maxDepth && under (length (urls st)) maxUrls); [|by eexists].
  destruct (fetchPage_normal (length (requests st)) n) as [[data|] ->]; [|by eexists].
  destruct (data_truthy data); [|by eexists].
  destruct (extractLinks_normal (as_text data) n Hn) as [links ->]. by eexists.
Qed.

Lemma step_excl_never_raises (st : State) (st' : State) (e : Thrown) :
  ScanExclude.step parse parse_relative network maxUrls maxDepth excludeSet st
  <> Raise st' e.
Proof.
  unfold ScanExclude.step. destruct (queue st) as [|item rest]; [done|].
  destruct (negb (under _ _)); [done|].
  destruct (normalizeUrl parse (url item)) as [n|] eqn:Hn; [|done].
  destruct (negb (nonempty n)); [done|].
  destruct (_ || _ || _); [done|].
  match goal with |- context [ScanExclude.expand _ _ _ _ _ _ ?s n _] => set (st1 := s) end.
  destruct (expand_excl_continues st1 n (depth item) (normalizeUrl_parses _ _ Hn))
    as [s ->].
  done.
Qed.

Lemma run_excl_never_throws (fuel : nat) (st final : State) out :
  ScanExclude.run parse parse_relative network maxUrls maxDepth excludeSet fuel st
  = Some (final, out) ->
  out = Normal (urls final).
Proof.
  revert st. induction fuel as [|fuel IH]; intros st; [done|].
  rewrite CrawlExcludeFacts.run_excl_unfold.
  destruct (ScanExclude.step parse parse_relative network maxUrls maxDepth excludeSet st)
    as [st'|st'|st' e] eqn:Hstep.
  - apply IH.
  - by intros [= <- <-].
  - by apply step_excl_never_raises in Hstep.
Qed.

End Route.

Section Handler.

Variable parse : jsstring -> option URL.
Variable parse_relative : jsstring -> jsstring -> option URL.
Variable network : nat -> jsstring -> Network.
Hypothesis Hcanon : canon_parses parse.

Lemma limits_of_record (maxUrls maxDepth : Num.number) (final : State) :
  bounded maxUrls maxDepth final -> breadth_first final ->
  Num.gt maxUrls (Num.of_Z 300) = false -> Num.gt maxDepth (Num.of_Z 5) = false ->
  scan_answer parse None maxUrls maxDepth (Success (urls final) (length (urls final))).
Proof.
  intros Hb (_ & Hpos & _) Hu Hd. simpl.
  destruct (LimitFacts.limited_by_handler _ _ _ Hu Hd Hb) as [Hlen Hdepth].
  split; [done|]. split; [done|]. split; [done|]. split; [done|].
  split; [by apply LimitFacts.limited_in_integers|]. split; [done|].
  apply Forall_app in Hpos as [Hpos _].
  apply Forall_forall. intros d Hin.
  rewrite Forall_forall in Hdepth, Hpos. specialize (Hdepth d Hin).
  specialize (Hpos d Hin). simpl in *. lia.
Qed.

Lemma crawl_returns (startUrl : jsstring) (maxUrls maxDepth : Num.number) :
  maxUrls <> Num.PosInfinity ->
  exists fuel final,
    Scan.crawlWebsite parse parse_relative network fuel startUrl maxUrls maxDepth
    = Some (final, Normal (urls final))
    /\ bounded maxUrls maxDepth final /\ breadth_first final.
Proof.
  intros Hfinite. destruct (LimitFacts.under_bound maxUrls Hfinite) as [cap Hcap].
  unfold Scan.crawlWebsite, Scan.start.
  destruct (CrawlFacts.run_terminates parse parse_relative network maxUrls maxDepth
              cap (Z.to_nat (cap - 0)) Hcap ∅ [] [mkURLData startUrl 0] []
              ltac:(simpl; lia))
    as [fuel [[final out] Hrun]].
  exists fuel, final.
  rewrite (run_never_throws parse parse_relative network maxUrls maxDepth Hcanon
             fuel _ final out Hrun) in Hrun.
  split; [done|].
  destruct (CrawlOrderClaims.start_shapes startUrl) as [_ Hb].
  destruct (CrawlFacts.run_invariant parse parse_relative network maxUrls maxDepth
              (fun s => bounded maxUrls maxDepth s /\ breadth_first s)
              ltac:(intros s [? ?]; split;
                    [by apply CrawlFacts.step_bounded
                    | by apply (TurnFacts.turn_breadth_first parse maxDepth _
                                  (CrawlOrder.step_cases parse parse_relative network
                                     maxUrls maxDepth))])
              fuel (Scan.start startUrl) final _
              ltac:(split; [apply LimitFacts.limited_nil | exact Hb])
              Hrun) as [[Hbd Hbf] _].
  done.
Qed.

Lemma crawl_excl_returns (startUrl : jsstring) (maxUrls maxDepth : Num.number)
      (excludeUrls : list jsstring) :
  maxUrls <> Num.PosInfinity ->
  exists fuel final,
    ScanExclude.crawlWebsite parse parse_relative network fuel startUrl maxUrls maxDepth
      excludeUrls
    = Some (final, Normal (urls final))
    /\ bounded maxUrls maxDepth final /\ breadth_first final.
Proof.
  intros Hfinite. destruct (LimitFacts.under_bound maxUrls Hfinite) as [cap Hcap].
  unfold ScanExclude.crawlWebsite.
  assert (bounded maxUrls maxDepth ScanExclude.idle /\ breadth_first ScanExclude.idle)
    as Hidle.
  { split; [apply LimitFacts.limited_nil|].
    split; [constructor|]. split; [constructor | done]. }
  destruct (normalizeUrl parse (with_scheme startUrl)) as [s|];
    [|by exists 0, ScanExclude.idle].
  destruct (nonempty s); [|by exists 0, ScanExclude.idle].
  set (excludeSet := ScanExclude.make_excludeSet parse excludeUrls).
  destruct (CrawlExcludeFacts.run_excl_terminates parse parse_relative network
              maxUrls maxDepth excludeSet
              cap (Z.to_nat (cap - 0)) Hcap ∅ [] [mkURLData s 0] [] ltac:(simpl; lia))
    as [fuel [[final out] Hrun]].
  exists fuel, final.
  rewrite (run_excl_never_throws parse parse_relative network maxUrls maxDepth Hcanon
             excludeSet fuel _ final out Hrun) in Hrun.
  split; [done|].
  destruct (CrawlOrderClaims.start_shapes s) as [_ Hb].
  destruct (CrawlExcludeFacts.run_excl_invariant parse parse_relative network
              maxUrls maxDepth excludeSet
              (fun s => bounded maxUrls maxDepth s /\ breadth_first s)
              ltac:(intros s0 [? ?]; split;
                    [by apply CrawlExcludeFacts.step_excl_bounded
                    | by apply (TurnFacts.turn_breadth_first parse maxDepth _
                                  (CrawlExcludeOrder.step_excl_cases parse parse_relative
                                     network maxUrls maxDepth excludeSet))])
              fuel (Scan.start s) final _
              ltac:(split; [apply LimitFacts.limited_nil | exact Hb])
              Hrun) as [[Hbd Hbf] _].
  done.
Qed.


End Handler.

End HandlerFacts.

Module SampleLaws.

Import Sample SampleFacts HandlerShape.

(** The sample parser accepts a serialisation without its last slash. *)
Lemma sample_drop_slash (x : jsstring) (u : URL) (h : jsstring) :
  parse x = Some u -> serialized u = h ++ ["/"%char] -> is_Some (parse h).
Proof.
  intros Hx Hser.
  destruct (parse_inv x u Hx)
    as (scheme & host & path & query & Hs & Hh & Hp & Hq & _ & Hu).
  rewrite Hu in Hser. simpl in Hser. apply all_of_default in Hp. simpl in Hp.
  set (p := default [] path) in *. clearbody p. clear Hu Hx.
  destruct query as [q|]; simpl in Hser.
  - destruct q as [|c q _] using rev_ind.
    + assert ((scheme ++ lit "//" ++ host ++ "/"%char :: p) ++ ["?"%char]
              = h ++ ["/"%char]) as Heq by (rewrite <- Hser; by list_nf).
      by apply app_inj_tail in Heq as [_ [=]].
    + assert ((scheme ++ lit "//" ++ host ++ "/"%char :: p ++ "?"%char :: q) ++ [c]
              = h ++ ["/"%char]) as Heq by (rewrite <- Hser; by list_nf).
      apply app_inj_tail in Heq as [<- ->].
      simpl in Hq. apply forallb_snoc_inv in Hq.
      eexists. apply (parse_parts _ scheme host (Some p) (Some q) None); try done.
      by list_nf.
  - destruct p as [|c p _] using rev_ind.
    + assert ((scheme ++ lit "//" ++ host) ++ ["/"%char] = h ++ ["/"%char]) as Heq
          by (rewrite <- Hser; by list_nf).
      apply app_inj_tail in Heq as [<- _].
      eexists. apply (parse_parts _ scheme host None None None); try done. by list_nf.
    + assert ((scheme ++ lit "//" ++ host ++ "/"%char :: p) ++ [c] = h ++ ["/"%char])
        as Heq by (rewrite <- Hser; by list_nf).
      apply app_inj_tail in Heq as [<- ->].
      apply forallb_snoc_inv in Hp.
      eexists. apply (parse_parts _ scheme host (Some p) None None); try done. by list_nf.
Qed.

Lemma sample_canon_parses : canon_parses parse.
Proof.
  intros x u Hx.
  destruct (UrlFacts.strip_slash_cases (serialized u)) as [(h & Hser & ->)|[_ ->]].
  - by apply (sample_drop_slash x u h).
  - destruct (sample_reparses x u Hx) as [_ ->]. by eexists.
Qed.


End SampleLaws.

(** ** A failed fetch *)

Module FailedFetchFacts.

Import Scan HandlerShape.

Section Route.

Variable parse : jsstring -> option URL.
Variable parse_relative : jsstring -> jsstring -> option URL.
Variable network : nat -> jsstring -> Network.
Variables maxUrls maxDepth : Num.number.
Hypothesis Hcanon : canon_parses parse.
Hypothesis Hfinite : maxUrls <> Num.PosInfinity.

(** From any state the loop runs to its end and returns its list. *)
Lemma run_returns_list (st : State) :
  exists fuel final,
    Scan.run parse parse_relative network maxUrls maxDepth fuel st
    = Some (final, Normal (urls final)).
Proof.
  destruct (LimitFacts.under_bound maxUrls Hfinite) as [cap Hcap].
  destruct st as [v us q rq].
  destruct (CrawlFacts.run_terminates parse parse_relative network maxUrls maxDepth
              cap (Z.to_nat (cap - Z.of_nat (length us))) Hcap v us q rq ltac:(lia))
    as [fuel [[final out] Hrun]].
  exists fuel, final.
  by rewrite (HandlerFacts.run_never_throws parse parse_relative network maxUrls
                maxDepth Hcanon fuel _ final out Hrun) in Hrun.
Qed.

Lemma run_excl_returns_list (excludeSet : gset jsstring) (st : State) :
  exists fuel final,
    ScanExclude.run parse parse_relative network maxUrls maxDepth excludeSet fuel st
    = Some (final, Normal (urls final)).
Proof.
  destruct (LimitFacts.under_bound maxUrls Hfinite) as [cap Hcap].
  destruct st as [v us q rq].
  destruct (CrawlExcludeFacts.run_excl_terminates parse parse_relative network
              maxUrls maxDepth excludeSet
              cap (Z.to_nat (cap - Z.of_nat (length us))) Hcap v us q rq ltac:(lia))
    as [fuel [[final out] Hrun]].
  exists fuel, final.
  by rewrite (HandlerFacts.run_excl_never_throws parse parse_relative network maxUrls
                maxDepth Hcanon excludeSet fuel _ final out Hrun) in Hrun.
Qed.

End Route.



End FailedFetchFacts.

Module RescanFacts.

Section Rescan.

Variable parse : jsstring -> option URL.
Variable parse_relative : jsstring -> jsstring -> option URL.
Variable network : nat -> jsstring -> Network.
Hypothesis Hre : reparses parse.
Hypothesis Hsl : slash_stable parse.


End Rescan.


End RescanFacts.

(** ** The scanner component *)

Module ClientFacts.

Import Client Shape ShapeFacts.

(** *** The map behind [mergeUrlLists] *)

Lemma map_set_keys {V} (m : list (jsstring * V)) (k : jsstring) (v : V) :
  map fst (map_set m k v) = if bool_decide (k ∈ map fst m) then map fst m
                            else map fst m ++ [k].
Proof.
  induction m as [|[k' v'] m IH]; simpl; [done|].
  destruct (decide (k' = k)) as [->|Hne].
  - rewrite bool_decide_eq_true_2 by done. simpl.
    rewrite bool_decide_eq_true_2; [done | apply list_elem_of_here].
  - rewrite (bool_decide_eq_false_2 (k' = k)) by done. simpl. rewrite IH.
    destruct (decide (k ∈ map fst m)) as [Hin|Hin].
    + rewrite !bool_decide_eq_true_2; [done | by apply list_elem_of_further | done].
    + rewrite !bool_decide_eq_false_2; [done | | done].
      intros [?|?]%elem_of_cons; [congruence | done].
Qed.

Lemma map_set_nodup {V} (m : list (jsstring * V)) (k : jsstring) (v : V) :
  NoDup (map fst m) -> NoDup (map fst (map_set m k v)).
Proof.
  intros Hnd. rewrite map_set_keys. case_bool_decide as Hin; [done|].
  apply NoDup_app. split; [done|]. split; [|apply NoDup_singleton].
  by intros x Hx ->%list_elem_of_singleton.
Qed.

Lemma map_set_elem {V} (m : list (jsstring * V)) (k : jsstring) (v : V) k' v' :
  NoDup (map fst m) ->
  (k', v') ∈ map_set m k v <-> (k' = k /\ v' = v) \/ (k' <> k /\ (k', v') ∈ m).
Proof.
  induction m as [|[k0 v0] m IH]; simpl; intros Hnd.
  - rewrite list_elem_of_singleton. split.
    + intros [= -> ->]. by left.
    + intros [[-> ->]|[_ H]]; [done | by apply elem_of_nil in H].
  - apply NoDup_cons in Hnd as [Hk0 Hnd].
    case_bool_decide as Hk.
    + subst k0. rewrite !elem_of_cons. split.
      * intros [[= -> ->]|Hin]; [by left|]. right. split; [|by right].
        intros ->. apply Hk0. apply list_elem_of_fmap. by exists (k, v').
      * intros [[-> ->]|[Hne [[= -> ->]|Hin]]]; [by left | done | by right].
    + rewrite !elem_of_cons, (IH Hnd). split.
      * intros [[= -> ->]|[[-> ->]|[Hne Hin]]].
        -- right. split; [congruence | by left].
        -- by left.
        -- right. split; [done | by right].
      * intros [[-> ->]|[Hne [[= -> ->]|Hin]]].
        -- right. by left.
        -- by left.
        -- right. right. by split.
Qed.

Section Component.

Variable parse : jsstring -> option URL.

Local Abbreviation key := (key parse).
Local Abbreviation put := (fun (m : list (jsstring * ScannedUrl)) s => map_set m (key s) s).

Local Abbreviation filed := (filed parse).

Lemma put_filed m s : filed m -> filed (put m s).
Proof.
  intros [Hnd Hkeys]. split; [by apply map_set_nodup|].
  apply Forall_forall. intros [k v] Hin.
  apply map_set_elem in Hin as [[-> ->]|[_ Hin]]; [done| |done].
  rewrite Forall_forall in Hkeys. by apply (Hkeys (k, v)).
Qed.

Lemma fold_filed l m : filed m -> filed (foldl put m l).
Proof.
  revert m. induction l as [|s l IH]; intros m Hm; simpl; [done|].
  by apply IH, put_filed.
Qed.

Lemma put_values m s s' :
  filed m ->
  s' ∈ map snd (put m s) <-> s' = s \/ (key s' <> key s /\ s' ∈ map snd m).
Proof.
  intros [Hnd Hkeys]. rewrite !list_elem_of_fmap. split.
  - intros ([k v] & -> & Hin). simpl.
    apply map_set_elem in Hin as [[-> ->]|[Hne Hin]]; [by left| |done].
    right. rewrite Forall_forall in Hkeys. pose proof (Hkeys _ Hin) as Hk. simpl in Hk.
    split; [congruence|]. by exists (k, v).
  - intros [->|[Hne ([k v] & -> & Hin)]].
    + exists (key s, s). split; [done|]. apply map_set_elem; [done|]. by left.
    + exists (k, v). split; [done|]. apply map_set_elem; [done|]. right.
      rewrite Forall_forall in Hkeys. pose proof (Hkeys _ Hin) as Hk. simpl in *.
      split; [congruence | done].
Qed.

(** An entry is in the map exactly if no later entry of the input has its
    key. *)
Lemma fold_values (l : list ScannedUrl) (s' : ScannedUrl) :
  s' ∈ map snd (foldl put [] l)
  <-> exists l1 l2, l = l1 ++ s' :: l2 /\ (key s' ∉ map key l2).
Proof.
  induction l as [|s l IH] using rev_ind; simpl.
  - split; [by intros ?%elem_of_nil|]. intros (l1 & l2 & H & _). by destruct l1.
  - rewrite foldl_app. simpl.
    rewrite (put_values _ s s' (fold_filed l [] ltac:(split; constructor))).
    rewrite IH. split.
    + intros [->|[Hne (l1 & l2 & -> & Hlast)]].
      * exists l, []. split; [done | apply not_elem_of_nil].
      * exists l1, (l2 ++ [s]). split; [by rewrite <- (assoc_L (++))|].
        rewrite map_app. simpl. rewrite not_elem_of_app. split; [done|].
        by intros ?%list_elem_of_singleton.
    + intros (l1 & l2 & Heq & Hlast).
      destruct l2 as [|x l2 _] using rev_ind.
      * left. apply app_inj_tail in Heq as [_ ->]. done.
      * right.
        assert (l1 ++ s' :: l2 ++ [x] = (l1 ++ s' :: l2) ++ [x]) as Hassoc
            by (by rewrite <- (assoc_L (++))).
        rewrite Hassoc in Heq. apply app_inj_tail in Heq as [-> ->].
        rewrite map_app in Hlast. simpl in Hlast.
        apply not_elem_of_app in Hlast as [Hl2 Hx].
        split; [by intros Heq; apply Hx, list_elem_of_singleton|].
        by exists l1, l2.
Qed.

Lemma mergeUrlLists_fold (existing incoming : list ScannedUrl) :
  mergeUrlLists parse existing incoming = map snd (foldl put [] (existing ++ incoming)).
Proof. unfold mergeUrlLists. by rewrite foldl_app. Qed.

(** X20.  The merged list holds one entry for each canonical address of the
    two lists: the last entry with that address, the incoming one if there
    is one. *)
Theorem merge_keeps_latest (existing incoming : list ScannedUrl) :
  NoDup (map key (mergeUrlLists parse existing incoming))
  /\ (forall s,
        s ∈ mergeUrlLists parse existing incoming
        <-> exists l1 l2, existing ++ incoming = l1 ++ s :: l2
                          /\ (key s ∉ map key l2)).
Proof.
  rewrite mergeUrlLists_fold. split; [|intros s; apply fold_values].
  destruct (fold_filed (existing ++ incoming) [] ltac:(split; constructor)) as [Hnd Hkeys].
  assert (map key (map snd (foldl put [] (existing ++ incoming)))
          = map fst (foldl put [] (existing ++ incoming))) as ->; [|done].
  induction Hkeys as [|[k v] m Hk _ IH]; [done|]. simpl in *.
  rewrite Hk. f_equal. apply IH. by apply NoDup_cons in Hnd as [_ ?].
Qed.

(** X21.  Lists without a common canonical address are joined as they
    stand. *)
Theorem merge_of_new_entries (existing incoming : list ScannedUrl) :
  NoDup (map key (existing ++ incoming)) ->
  mergeUrlLists parse existing incoming = existing ++ incoming.
Proof.
  rewrite mergeUrlLists_fold. generalize (existing ++ incoming). clear.
  intros l Hnd.
  assert (foldl put [] l = map (fun s => (key s, s)) l) as ->.
  { induction l as [|s l IH] using rev_ind; [done|].
    rewrite foldl_app, map_app. simpl.
    rewrite map_app in Hnd. apply NoDup_app in Hnd as (Hl & Hs & _).
    rewrite (IH Hl). clear IH.
    assert (key s ∉ map fst (map (fun s0 => (key s0, s0)) l)) as Hfresh.
    { rewrite map_map. simpl. intros Hin. apply (Hs _ Hin), list_elem_of_here. }
    revert Hfresh. generalize (map (fun s0 => (key s0, s0)) l). intros m.
    induction m as [|[k v] m IHm]; simpl; [done|].
    intros [Hk Hm]%not_elem_of_cons.
    rewrite bool_decide_eq_false_2 by congruence. by rewrite IHm. }
  rewrite map_map. simpl. apply map_id.
Qed.

End Component.

Lemma merge_of_new_entries_witness :
  let existing := [mkScanned (lit "https://example.edu") 0 analyzed None] in
  let incoming := [mkScanned (lit "https://example.edu/records") 1 pending None] in
  NoDup (map (Client.key Sample.parse) (existing ++ incoming))
  /\ mergeUrlLists Sample.parse existing incoming = existing ++ incoming.
Proof.
  intros existing incoming.
  assert (NoDup (map (Client.key Sample.parse) (existing ++ incoming))) as Hnd.
  { vm_compute. apply NoDup_cons. split; [|apply NoDup_singleton].
    intros H. apply list_elem_of_singleton in H. discriminate H. }
  split; [exact Hnd|].
  exact (merge_of_new_entries Sample.parse existing incoming Hnd).
Defined.

End ClientFacts.

Module KeywordFacts.

Import Client Shape ShapeFacts.

Lemma split_on_nonempty (sep : ascii -> bool) (s : jsstring) : split_on sep s <> [].
Proof.
  induction s as [|c s IH]; simpl; [done|].
  destruct (sep c); [done|]. by destruct (split_on sep s).
Qed.

Lemma split_on_pieces (sep : ascii -> bool) (s : jsstring) :
  Forall (fun piece => forallb (fun c => negb (sep c)) piece = true) (split_on sep s).
Proof.
  induction s as [|c s IH]; simpl; [by repeat constructor|].
  destruct (sep c) eqn:Hc; [by constructor|].
  destruct (split_on sep s) as [|piece pieces]; [by repeat constructor; simpl; rewrite Hc|].
  apply Forall_cons in IH as [Hp Hps]. constructor; [|done]. simpl. by rewrite Hc.
Qed.

Lemma split_on_app (sep : ascii -> bool) (k rest : jsstring) (c : ascii) :
  forallb (fun x => negb (sep x)) k = true -> sep c = true ->
  split_on sep (k ++ c :: rest) = k :: split_on sep rest.
Proof.
  intros Hk Hc. induction k as [|x k IH]; simpl.
  - by rewrite Hc.
  - simpl in Hk. apply andb_prop in Hk as [Hx Hk]. apply negb_true_iff in Hx.
    rewrite Hx. by rewrite (IH Hk).
Qed.

Lemma split_on_whole (sep : ascii -> bool) (k : jsstring) :
  forallb (fun x => negb (sep x)) k = true -> split_on sep k = [k].
Proof.
  intros Hk. induction k as [|x k IH]; simpl; [done|].
  simpl in Hk. apply andb_prop in Hk as [Hx Hk]. apply negb_true_iff in Hx.
  rewrite Hx. by rewrite (IH Hk).
Qed.

Lemma forallb_infix (P : ascii -> bool) (a m b : jsstring) :
  forallb P (a ++ m ++ b) = true -> forallb P m = true.
Proof. rewrite !forallb_app. by intros [_ [? _]%andb_prop]%andb_prop. Qed.

(** X22.  The keywords the component sends are not empty, carry no white
    space around them and hold no separator. *)
Theorem split_list_is_clean (text : jsstring) : Forall clean (split_list text).
Proof.
  unfold split_list. apply Forall_forall. intros k Hk.
  apply list_elem_of_In, filter_In in Hk as [Hin Hne].
  apply list_elem_of_In, list_elem_of_fmap in Hin as (piece & -> & Hpiece).
  split; [|split; [apply trim_no_leading | split; [apply trim_no_trailing|]]].
  - unfold nonempty in Hne. by apply negb_true_iff, bool_decide_eq_false in Hne.
  - pose proof (split_on_pieces is_separator text) as Hall.
    rewrite Forall_forall in Hall. specialize (Hall _ Hpiece).
    destruct (trim_infix piece) as (a & b & Hab). rewrite Hab in Hall.
    by apply forallb_infix in Hall.
Qed.

Lemma trimStart_fixed (k : jsstring) : no_leading_space k -> trimStart k = k.
Proof.
  destruct k as [|c k]; [done|]. intros H. simpl. by rewrite (H c eq_refl).
Qed.

Lemma trimStart_spaces (ws k : jsstring) :
  forallb is_space ws = true -> trimStart (ws ++ k) = trimStart k.
Proof.
  induction ws as [|c ws IH]; simpl; [done|].
  intros [-> Hws]%andb_prop. by apply IH.
Qed.

Lemma trim_padded (ws k : jsstring) :
  forallb is_space ws = true -> no_leading_space k -> no_trailing_space k ->
  trim (ws ++ k) = k.
Proof.
  intros Hws Hl Ht. unfold trim.
  rewrite (trimStart_spaces ws k Hws), (trimStart_fixed k Hl).
  rewrite trimStart_fixed; [apply reverse_involutive|].
  intros c Hc. apply Ht. by rewrite <- head_reverse.
Qed.

Lemma space_not_separator (ws : jsstring) :
  forallb is_space ws = true -> forallb (fun c => negb (is_separator c)) ws = true.
Proof.
  induction ws as [|c ws IH]; simpl; [done|].
  intros [Hc Hws]%andb_prop. rewrite (IH Hws), andb_true_r.
  destruct c as [[] [] [] [] [] [] [] []]; by vm_compute in Hc |- *.
Qed.

Lemma split_joined (ks : list jsstring) (ws : jsstring) :
  Forall clean ks -> ks <> [] -> forallb is_space ws = true ->
  List.filter nonempty (map trim (split_on is_separator (ws ++ Analyze.join ks))) = ks.
Proof.
  intros Hks. revert ws. induction Hks as [|k ks Hk _ IH]; intros ws Hne Hws; [done|].
  destruct Hk as (Hk0 & Hkl & Hkt & Hksep).
  assert (forallb (fun c => negb (is_separator c)) (ws ++ k) = true) as Hwk.
  { rewrite forallb_app, (space_not_separator ws Hws). done. }
  assert (nonempty k = true) as Hnk
      by (unfold nonempty; by apply negb_true_iff, bool_decide_eq_false).
  destruct ks as [|k' ks].
  - simpl. rewrite (split_on_whole _ _ Hwk). simpl.
    by rewrite (trim_padded ws k Hws Hkl Hkt), Hnk.
  - change (Analyze.join (k :: k' :: ks))
      with (k ++ ","%char :: [" "%char] ++ Analyze.join (k' :: ks)).
    rewrite (assoc_L (++) ws k).
    rewrite (split_on_app is_separator (ws ++ k) ([" "%char] ++ Analyze.join (k' :: ks))
               ","%char Hwk eq_refl).
    cbn [map].
    rewrite (trim_padded ws k Hws Hkl Hkt). cbn [List.filter]. rewrite Hnk.
    f_equal. by apply (IH [" "%char]).
Qed.

(** X23.  Splitting the comma-joined form of a list of clean keywords gives
    the list back. *)
Theorem split_list_of_join (ks : list jsstring) :
  Forall clean ks -> split_list (Analyze.join ks) = ks.
Proof.
  intros Hks. destruct ks as [|k ks]; [done|].
  by apply (split_joined (k :: ks) []).
Qed.

Lemma split_list_of_join_witness :
  let ks := [lit "Registration"; lit "Financial Aid"; lit "HR"] in
  Forall clean ks /\ split_list (Analyze.join ks) = ks.
Proof.
  intros ks.
  assert (Forall clean ks) as Hks.
  { repeat constructor; try done; by intros c [= <-]. }
  split; [exact Hks|]. exact (split_list_of_join ks Hks).
Defined.

End KeywordFacts.

Module HandlerClientFacts.

Import Client ClientShape ClientFacts HandlerShape.

Lemma trim_nonempty (s : jsstring) : trim s <> [] -> s <> [].
Proof. by intros H ->. Qed.

Lemma with_scheme_nonempty (s : jsstring) : s <> [] -> with_scheme s <> [].
Proof.
  unfold with_scheme. intros Hs. destruct (startsWith s (lit "http")); [done|].
  by destruct s.
Qed.

Lemma with_scheme_twice (s : jsstring) : with_scheme (with_scheme s) = with_scheme s.
Proof.
  unfold with_scheme at 1. by rewrite UrlFacts.startsWith_with_scheme.
Qed.

Section ScanHandler.

Variable parse : jsstring -> option URL.
Variable parse_relative : jsstring -> jsstring -> option URL.
Variable network : nat -> jsstring -> Network.

Local Abbreviation key := (key parse).
Local Abbreviation put := (fun (m : list (jsstring * ScannedUrl)) s => map_set m (key s) s).

Lemma fold_keys (l : list ScannedUrl) (m : list (jsstring * ScannedUrl)) (k : jsstring) :
  k ∈ map fst (foldl put m l) <-> k ∈ map fst m \/ k ∈ map key l.
Proof.
  revert m. induction l as [|s l IH]; intros m; simpl.
  - split; [by left|]. intros [?|H]; [done | by apply elem_of_nil in H].
  - rewrite IH, map_set_keys, elem_of_cons.
    case_bool_decide as Hin.
    + split; [intros [?|?]; auto|]. intros [?|[->|?]]; auto.
    + rewrite elem_of_app, list_elem_of_singleton. tauto.
Qed.

Lemma merged_keys (existing incoming : list ScannedUrl) :
  map key (mergeUrlLists parse existing incoming)
  = map fst (foldl put [] (existing ++ incoming)).
Proof.
  rewrite mergeUrlLists_fold.
  destruct (fold_filed parse (existing ++ incoming) [] ltac:(split; constructor))
    as [_ Hkeys].
  induction Hkeys as [|[k v] m Hk _ IH]; [done|]. simpl in *. by rewrite Hk, IH.
Qed.

Hypothesis Hcanon : canon_parses parse.


End ScanHandler.

Section AnalyzeHandler.

Import Analyze.

Variable stripMarkup : jsstring -> jsstring.
Variable titleMatch : jsstring -> option jsstring.
Variable JSON_parse : jsstring -> Completion (list (jsstring * JSValue)).
Variable network : nat -> jsstring -> Network.
Variable chatCompletion : nat -> Prompt -> Completion jsstring.

Local Abbreviation POST := (POST stripMarkup titleMatch JSON_parse network chatCompletion).

Lemma find_result (rs : list AnalysisResult) (u : jsstring) :
  u ∈ map Analyze.url rs ->
  exists r, List.find (fun r => bool_decide (Analyze.url r = u)) rs = Some r
            /\ Analyze.url r = u /\ r ∈ rs.
Proof.
  induction rs as [|r rs IH]; simpl; [by intros ?%elem_of_nil|].
  intros Hin. case_bool_decide as Hr.
  - exists r. split; [done|]. split; [done | apply list_elem_of_here].
  - apply elem_of_cons in Hin as [Hu|Hin]; [by subst|].
    destruct (IH Hin) as (r' & Hfind & Hu & Hr').
    exists r'. split; [done|]. split; [done | by apply list_elem_of_further].
Qed.

Lemma handleAnalyze_cases (keywords workStreamAreas : jsstring)
      (scanned : list Client.ScannedUrl) :
  (scanned = []
   /\ handleAnalyze POST keywords workStreamAreas scanned
      = Rejected (lit "Please run a scan or load URLs first."))
  \/ (500 < length scanned
      /\ handleAnalyze POST keywords workStreamAreas scanned
         = Rejected (lit "Maximum 500 URLs per request"))
  \/ (1 <= length scanned <= 500
      /\ exists after,
          handleAnalyze POST keywords workStreamAreas scanned = Updated after
          /\ Forall2 analyzed_from scanned after).
Proof.
  unfold handleAnalyze. destruct scanned as [|s ss]; [by left|]. right.
  cbn [length Nat.eqb]. unfold Analyze.POST. cbn [Analyze.urls map].
  destruct (500 <? length (Client.url s :: map Client.url ss)) eqn:Hlen.
  { left. split; [|done]. apply Nat.ltb_lt in Hlen.
    simpl in *. by rewrite length_map in Hlen. }
  right. apply Nat.ltb_ge in Hlen.
  set (body := {| Analyze.urls := _ |}).
  destruct (AnalyzeFacts.analyzeUrls_spec stripMarkup titleMatch JSON_parse network
              chatCompletion body (Client.url s :: map Client.url ss) 0 0 [])
    as (rs & Hrs & Hmap & Hall & _).
  rewrite Hrs. cbn [app].
  split; [simpl in *; rewrite length_map in Hlen; lia|].
  eexists. split; [done|].
  unfold apply_results. apply Forall2_fmap_r, Forall_Forall2_diag, Forall_forall.
  intros x Hx.
  destruct (find_result rs (Client.url x)) as (r & Hfind & Hu & Hr).
  { rewrite Hmap. change (Client.url x ∈ map Client.url (s :: ss)).
    apply list_elem_of_fmap. by exists x. }
  unfold compose. rewrite Hfind.
  repeat split. exists r. split; [by destruct r|]. split; [done|].
  rewrite Forall_forall in Hall. by apply Hall.
Qed.

Lemma find_first (rs : list AnalysisResult) (u : jsstring) (r : AnalysisResult) :
  List.find (fun r => bool_decide (Analyze.url r = u)) rs = Some r ->
  exists i, rs !! i = Some r /\ Analyze.url r = u
            /\ forall j r', j < i -> rs !! j = Some r' -> Analyze.url r' <> u.
Proof.
  induction rs as [|r0 rs IH]; simpl; [done|].
  case_bool_decide as Hr0.
  - intros [= <-]. exists 0. split; [done|]. split; [done|]. intros j r' Hj. lia.
  - intros Hfind. destruct (IH Hfind) as (i & Hi & Hu & Hbefore).
    exists (S i). split; [done|]. split; [done|].
    intros [|j] r' Hj Hr'; simpl in Hr'.
    + by injection Hr' as <-.
    + apply (Hbefore j r'); [lia | done].
Qed.

(** For a list with no address twice every entry takes the result at its
    own place. *)
Lemma apply_results_aligned (rs : list AnalysisResult) (prev : list Client.ScannedUrl) :
  map Analyze.url rs = map Client.url prev ->
  NoDup (map Client.url prev) ->
  map analysis (apply_results rs prev) = map Some rs.
Proof.
  intros Hmap Hnodup. apply list_eq. intros i.
  unfold apply_results. rewrite !list_lookup_fmap.
  assert (map Analyze.url rs !! i = map Client.url prev !! i) as Hi
    by by rewrite Hmap.
  rewrite !list_lookup_fmap in Hi.
  destruct (prev !! i) as [x|] eqn:Hx; simpl in *.
  2:{ by destruct (rs !! i). }
  destruct (rs !! i) as [r|] eqn:Hr; [|done]. simpl in *.
  injection Hi as Hi.
  destruct (find_result rs (Client.url x)) as (r' & Hfind & _ & _).
  { rewrite <- Hi. apply list_elem_of_fmap. exists r. split; [done|].
    by apply list_elem_of_lookup_2 in Hr. }
  rewrite Hfind. simpl.
  destruct (find_first rs (Client.url x) r' Hfind) as (i' & Hi' & Hu' & _).
  assert (i' = i) as ->.
  { apply (NoDup_lookup (map Client.url prev) i' i (Client.url x)); [done|..].
    - by rewrite <- Hmap, list_lookup_fmap, Hi', <- Hu'.
    - by rewrite list_lookup_fmap, Hx. }
  rewrite Hr in Hi'. injection Hi' as <-. by destruct r.
Qed.

(** X25.  An analysis of 1 to 500 entries marks every entry analyzed and
    leaves its address and depth as they were.  The handler answers the
    request for the addresses of the list with one result for each, in
    their order; an entry takes the first of these results that carries its
    address, so for a list with no address twice the entry takes the
    result at its own place.  The component refuses an empty list, and
    the handler a list of more than 500. *)
Theorem analysis_marks_every_entry (keywords workStreamAreas : jsstring)
        (scanned : list Client.ScannedUrl) :
  match handleAnalyze POST keywords workStreamAreas scanned with
  | Updated after =>
      1 <= length scanned <= 500
      /\ exists results,
          POST {| Analyze.urls := Some (map Client.url scanned);
                  Analyze.keywords := split_list keywords;
                  Analyze.workStreamAreas := split_list workStreamAreas |}
          = Success results
          /\ map Analyze.url results = map Client.url scanned
          /\ Forall2 (analyzed_with results) scanned after
          /\ (NoDup (map Client.url scanned) ->
              map analysis after = map Some results)
  | Rejected message =>
      (message = lit "Please run a scan or load URLs first." /\ scanned = [])
      \/ (message = lit "Maximum 500 URLs per request" /\ 500 < length scanned)
  end.
Proof.
  unfold handleAnalyze. destruct scanned as [|s ss]; [by left|].
  cbn [length Nat.eqb]. unfold Analyze.POST. cbn [Analyze.urls map].
  destruct (500 <? length (Client.url s :: map Client.url ss)) eqn:Hlen.
  { right. split; [done|]. apply Nat.ltb_lt in Hlen.
    simpl in *. by rewrite length_map in Hlen. }
  apply Nat.ltb_ge in Hlen.
  set (body := {| Analyze.urls := _ |}).
  destruct (AnalyzeFacts.analyzeUrls_spec stripMarkup titleMatch JSON_parse network
              chatCompletion body (Client.url s :: map Client.url ss) 0 0 [])
    as (rs & Hrs & Hmap & Hall & _).
  rewrite Hrs. cbn [app].
  split; [simpl in *; rewrite length_map in Hlen; lia|].
  exists rs. split; [done|]. split; [done|]. split.
  - unfold apply_results. apply Forall2_fmap_r, Forall_Forall2_diag, Forall_forall.
    intros x Hx.
    destruct (find_result rs (Client.url x)) as (r & Hfind & Hu & Hr).
    { rewrite Hmap. change (Client.url x ∈ map Client.url (s :: ss)).
      apply list_elem_of_fmap. by exists x. }
    destruct (find_first rs (Client.url x) r Hfind) as (i & Hi & _ & Hbefore).
    unfold compose. rewrite Hfind. split.
    + repeat split. exists r. split; [by destruct r|]. split; [done|].
      rewrite Forall_forall in Hall. by apply Hall.
    + exists i, r. split; [done|]. split; [by destruct r | done].
  - intros Hnodup. by apply apply_results_aligned.
Qed.

(** X26.  After an analysis the report lists exactly the entries the handler
    flagged, in the order of the list: a flagged entry always has a
    finding to show. *)
Theorem report_lists_flagged_entries (keywords workStreamAreas : jsstring)
        (scanned : list Client.ScannedUrl) :
  match handleAnalyze POST keywords workStreamAreas scanned with
  | Updated after =>
      urlsWithFindings after
      = List.filter (fun s => match analysis s with
                              | Some a => hasLegacyReferences a
                              | None => false
                              end) after
  | Rejected _ => True
  end.
Proof.
  destruct (handleAnalyze_cases keywords workStreamAreas scanned)
    as [[_ ->]|[[_ ->]|(_ & after & -> & Hafter)]]; [done|done|].
  unfold urlsWithFindings.
  induction Hafter as [|x y l l' Hxy _ IH]; [done|].
  cbn [List.filter]. rewrite IH.
  destruct Hxy as (_ & _ & _ & r & Hy & _ & Hr).
  unfold with_findings. rewrite Hy.
  destruct (hasLegacyReferences r) eqn:Hflag; [|done]. simpl.
  destruct (findings r) as [|f fs] eqn:Hfs; [|done].
  destruct Hr as [Hr _]. rewrite Hflag in Hr. by specialize (Hr Hfs).
Qed.

End AnalyzeHandler.


End HandlerClientFacts.
